(** * vSendGrid-Client: the campaign engine of [mail.py]

    A shallow embedding of the campaign progress/resume engine
    ([SendGridEmailer], [EmailCampaignManager], [run_email_campaign]) and the
    properties stated for it.

    Conventions of the embedding:
    - a Python [str] is a [string] whose characters are the code points
      U+0000..U+00FF; [lower] and [strip] below agree with [str.lower] and
      [str.strip] on that range;
    - a Python [int] is a [Z];
    - a [try ... except Exception] block is a computation in [result],
      followed by its handler;
    - what the program reads from outside (the CSV file under each encoding,
      the progress file, the content file, the clock, the random generator,
      the provider's replies) is an explicit argument;
    - the provider's library is not part of the program: a message is given
      by the arguments that the code passes to the library's helpers;
    - the functions of the ledger are modelled on ledgers of its schema
      ([Ledger.progress], [Ledger.stored]); [ProgressFile] has the progress
      file as JSON, with the objects outside the schema, and says which
      files the typed model stands for. *)

From Stdlib Require Import ZArith Ascii String Lia.
From stdpp Require Import base option list strings pretty gmap.

(** ** Python strings *)

Module PyStr.

Definition code (c : ascii) : nat := nat_of_ascii c.

(** [str.isspace] on code points below 256. *)
Definition is_space (c : ascii) : bool :=
  let n := code c in
  (((9 <=? n) && (n <=? 13)) || ((28 <=? n) && (n <=? 32))
   || (n =? 133) || (n =? 160))%nat.

(** [str.lower] on one character: A-Z, and the Latin-1 capitals
    U+00C0..U+00DE except the multiplication sign U+00D7. *)
Definition lower_char (c : ascii) : ascii :=
  let n := code c in
  if (((65 <=? n) && (n <=? 90))
      || ((192 <=? n) && (n <=? 222) && negb (n =? 215)))%nat
  then ascii_of_nat (n + 32) else c.

Fixpoint lower (s : string) : string :=
  match s with
  | EmptyString => EmptyString
  | String c s' => String (lower_char c) (lower s')
  end.

Fixpoint lstrip (s : string) : string :=
  match s with
  | EmptyString => EmptyString
  | String c s' => if is_space c then lstrip s' else s
  end.

(** [rstrip] keeps a character when something that is not white space
    follows it, or when it is not white space itself. *)
Fixpoint rstrip (s : string) : string :=
  match s with
  | EmptyString => EmptyString
  | String c s' =>
      match rstrip s' with
      | EmptyString => if is_space c then EmptyString else String c EmptyString
      | r => String c r
      end
  end.

Definition strip (s : string) : string := rstrip (lstrip s).

(** [c in s] for a one-character [c]. *)
Fixpoint contains (c : ascii) (s : string) : bool :=
  match s with
  | EmptyString => false
  | String d s' => if ascii_dec c d then true else contains c s'
  end.

(** [s.split(c)] for a one-character separator. *)
Fixpoint split (c : ascii) (s : string) : list string :=
  match s with
  | EmptyString => [EmptyString]
  | String d s' =>
      match split c s' with
      | [] => [EmptyString]
      | piece :: pieces =>
          if ascii_dec c d then EmptyString :: piece :: pieces
          else String d piece :: pieces
      end
  end.

Fixpoint startswith (p s : string) : bool :=
  match p, s with
  | EmptyString, _ => true
  | String a p', String b s' => if ascii_dec a b then startswith p' s' else false
  | String _ _, EmptyString => false
  end.

(** [p in s] for strings. *)
Fixpoint is_in (p s : string) : bool :=
  startswith p s ||
  match s with
  | EmptyString => false
  | String _ s' => is_in p s'
  end.

(** [s.replace(old, '')] for a non-empty [old]: every occurrence of [old],
    found from the left without overlap, is dropped. [skip] counts the
    characters of the current occurrence that are still to be dropped. *)
Fixpoint remove_from (old : string) (skip : nat) (s : string) : string :=
  match s with
  | EmptyString => EmptyString
  | String c s' =>
      match skip with
      | S skip' => remove_from old skip' s'
      | O =>
          if startswith old s then remove_from old (String.length old - 1) s'
          else String c (remove_from old 0 s')
      end
  end.

Definition remove (old s : string) : string := remove_from old 0 s.

(** [''.join(pieces)]. *)
Definition join (pieces : list string) : string :=
  foldr String.append EmptyString pieces.

(** Truth value of a string: the empty string is false. *)
Definition truthy (s : string) : bool :=
  match s with EmptyString => false | String _ _ => true end.

End PyStr.

(** ** Regular expressions, as far as [validate_email] needs them

    [re.match] is decided with Brzozowski derivatives: a pattern matches a
    string when the pattern left after consuming every character accepts the
    empty string. *)

Module Regex.

Inductive re : Type :=
| Nothing
| Epsilon
| Class (p : ascii → bool)
| Cat (r1 r2 : re)
| Alt (r1 r2 : re)
| Star (r : re).

Fixpoint nullable (r : re) : bool :=
  match r with
  | Nothing => false
  | Epsilon => true
  | Class _ => false
  | Cat r1 r2 => nullable r1 && nullable r2
  | Alt r1 r2 => nullable r1 || nullable r2
  | Star _ => true
  end.

Fixpoint deriv (c : ascii) (r : re) : re :=
  match r with
  | Nothing => Nothing
  | Epsilon => Nothing
  | Class p => if p c then Epsilon else Nothing
  | Cat r1 r2 =>
      if nullable r1 then Alt (Cat (deriv c r1) r2) (deriv c r2)
      else Cat (deriv c r1) r2
  | Alt r1 r2 => Alt (deriv c r1) (deriv c r2)
  | Star r1 => Cat (deriv c r1) (Star r1)
  end.

Fixpoint fullmatch (r : re) (s : string) : bool :=
  match s with
  | EmptyString => nullable r
  | String c s' => fullmatch (deriv c r) s'
  end.

(** The strings that a pattern stands for. *)
Inductive matches : re → string → Prop :=
| matches_epsilon : matches Epsilon ""
| matches_class p c : p c = true → matches (Class p) (String c "")
| matches_cat r1 r2 s1 s2 :
    matches r1 s1 → matches r2 s2 → matches (Cat r1 r2) (s1 +:+ s2)
| matches_alt_l r1 r2 s : matches r1 s → matches (Alt r1 r2) s
| matches_alt_r r1 r2 s : matches r2 s → matches (Alt r1 r2) s
| matches_star_nil r : matches (Star r) ""
| matches_star_app r s1 s2 :
    matches r s1 → matches (Star r) s2 → matches (Star r) (s1 +:+ s2).

(** [r+], [r{2,}], one literal character, and an optional [r]. *)
Definition Plus (r : re) : re := Cat r (Star r).
Definition AtLeast2 (r : re) : re := Cat r (Cat r (Star r)).
Definition Lit (c : ascii) : re := Class (λ d, bool_decide (c = d)).
Definition Opt (r : re) : re := Alt Epsilon r.

(** Every character of [s] is in the class [p]. *)
Fixpoint all_chars (p : ascii → bool) (s : string) : bool :=
  match s with
  | EmptyString => true
  | String c s' => p c && all_chars p s'
  end.

Definition between (lo hi : ascii) (c : ascii) : bool :=
  ((nat_of_ascii lo <=? nat_of_ascii c) && (nat_of_ascii c <=? nat_of_ascii hi))%nat.

Definition one_of (cs : string) (c : ascii) : bool := PyStr.contains c cs.

Definition alpha (c : ascii) : bool := between "a" "z" c || between "A" "Z" c.
Definition alnum (c : ascii) : bool := alpha c || between "0" "9" c.

End Regex.

(** ** Exceptions

    The exceptions that the modelled code raises or meets, each with the text
    that [str(e)] gives. *)

Inductive exn : Type :=
| ValueError (text : string)
| AttributeError (text : string)
| UnicodeDecodeError (text : string)
| RuntimeError (text : string)
| OtherException (text : string).

Definition str_of_exn (e : exn) : string :=
  match e with
  | ValueError t | AttributeError t | UnicodeDecodeError t
  | RuntimeError t | OtherException t => t
  end.

Inductive result (A : Type) : Type :=
| Ok (a : A)
| Raise (e : exn).
Arguments Ok {A} a.
Arguments Raise {A} e.

#[global] Instance result_ret : MRet result := λ A a, Ok a.
#[global] Instance result_bind : MBind result := λ A B f m,
  match m with
  | Ok a => f a
  | Raise e => Raise e
  end.

(** [if not cond: raise e]. *)
Definition require (cond : bool) (e : exn) : result unit :=
  if cond then Ok tt else Raise e.

(** ** [SendGridEmailer] *)

Module Emailer.

Import Regex.

Definition local_char (c : ascii) : bool := alnum c || one_of "._%+-" c.
Definition domain_char (c : ascii) : bool := alnum c || one_of ".-" c.
Definition newline : ascii := ascii_of_nat 10.

(** [^[a-zA-Z0-9._%+-]+@[a-zA-Z0-9.-]+\.[a-zA-Z]{2,}$]: [re.match] anchors
    the pattern at the start, and [$] accepts the end of the string or the
    position before a final newline. *)
Definition pattern : re :=
  Cat (Plus (Class local_char))
   (Cat (Lit "@")
    (Cat (Plus (Class domain_char))
     (Cat (Lit ".")
      (Cat (AtLeast2 (Class alpha))
       (Opt (Lit newline)))))).

Definition validate_email (email : string) : bool := fullmatch pattern email.

Inductive content : Type :=
| PlainTextContent (text : string)
| HtmlContent (text : string).

(** The message as lines 94-107 build it, given by the arguments that the
    code passes to the helpers of the provider's library: the address and
    the name passed to [From], the addresses passed to [To], in order, the
    text passed to [Subject], and the contents set, in order. What the
    library makes of these arguments is not part of the program and is not
    modelled: its helpers parse each address, which drops a newline at the
    end of one, and [Mail] keeps a repeated recipient once. For an address
    that is stripped and occurs once, the argument is the address of the
    message. *)
Record mail : Type := Mail {
  from_address : string * option string;
  to_list : list string;
  mail_subject : string;
  contents : list content
}.

(** What [self.sg.send(message)] does: a response, or an exception. *)
Inductive reply : Type :=
| Response (code : Z) (body : string) (headers : list (string * string))
| SendRaises (e : exn).

(** The dictionary that [send_email] returns; a key that a branch does not
    set is [None]. *)
Record send_result : Type := SendResult {
  success : bool;
  status_code : option Z;
  message : option string;
  error : option string;
  recipients : option (list string);
  response_body : option string;
  response_headers : option (list (string * string))
}.

Definition error_result (e : exn) : send_result :=
  {| success := false; status_code := None;
     message := Some "Failed to send email due to an error";
     error := Some (str_of_exn e);
     recipients := None; response_body := None; response_headers := None |}.

(** Lines 83-93: the checks made before the message is built. *)
Definition check_arguments (from_email : string) (to_emails : list string)
    (subject plain_text_content html_content : string) : result unit :=
  _ ← require (validate_email from_email)
        (ValueError ("Invalid sender email: " +:+ from_email));
  _ ← require (negb (bool_decide (to_emails = [])))
        (ValueError "At least one recipient email is required");
  _ ← match List.find (λ email, negb (validate_email email)) to_emails with
      | Some email => Raise (ValueError ("Invalid recipient email: " +:+ email))
      | None => Ok tt
      end;
  _ ← require (PyStr.truthy (PyStr.strip subject))
        (ValueError "Email subject cannot be empty");
  require (PyStr.truthy plain_text_content || PyStr.truthy html_content)
    (ValueError "Either plain text or HTML content is required").

(** Lines 94-107: the arguments of [Mail], [From], [To], [Subject] and of
    the content helpers. *)
Definition build_message (from_email : string) (to_emails : list string)
    (subject plain_text_content html_content from_name : string) : mail :=
  {| from_address :=
       (from_email, if PyStr.truthy from_name then Some from_name else None);
     to_list := to_emails;
     mail_subject := subject;
     contents :=
       (if PyStr.truthy plain_text_content
        then [PlainTextContent plain_text_content] else [])
       ++ (if PyStr.truthy html_content
           then [HtmlContent html_content] else []) |}.

Definition accepted_codes : list Z := [200; 201; 202]%Z.

(** Lines 83-127, the body of the [try]: the dictionary it returns or the
    exception it raises, together with the messages handed to the gateway
    [sg] (none or one). *)
Definition send_email_try (sg : mail → reply) (from_email : string)
    (to_emails : list string) (subject plain_text_content html_content
    from_name : string) : result send_result * list mail :=
  match check_arguments from_email to_emails subject plain_text_content
          html_content with
  | Raise e => (Raise e, [])
  | Ok _ =>
      let m := build_message from_email to_emails subject plain_text_content
                 html_content from_name in
      (match sg m with
       | Response code body headers =>
           if bool_decide (code ∈ accepted_codes) then
             Ok {| success := true; status_code := Some code;
                   message := Some "Email sent successfully";
                   error := None; recipients := Some to_emails;
                   response_body := None; response_headers := Some headers |}
           else
             Ok {| success := false; status_code := Some code;
                   message := Some ("Email sending failed with status code: "
                                      +:+ pretty code);
                   error := None; recipients := None;
                   response_body := Some body;
                   response_headers := Some headers |}
       | SendRaises e => Raise e
       end, [m])
  end.

(** [send_email]: the [try] and its [except Exception] handler. *)
Definition send_email (sg : mail → reply) (from_email : string)
    (to_emails : list string) (subject plain_text_content html_content
    from_name : string) : send_result * list mail :=
  let '(r, sent) :=
    send_email_try sg from_email to_emails subject plain_text_content
      html_content from_name in
  (match r with
   | Ok res => res
   | Raise e => error_result e
   end, sent).


End Emailer.

(** ** The recipient source: [load_email_list] *)

Module Source.

Import PyStr.

Inductive encoding : Type := utf_8 | utf_8_sig | iso_8859_1 | cp1252.

Definition encodings_to_try : list encoding :=
  [utf_8; utf_8_sig; iso_8859_1; cp1252].

(** A row of [csv.DictReader]: a dictionary from column names to cells. A
    cell that the line was too short to fill holds Python's [None]. *)
Abbreviation row := (gmap string (option string)).

(** How reading ends once the header is in: at the end of the file, or with
    an exception raised while a further line is decoded or parsed. *)
Inductive read_end : Type :=
| EndOfFile
| ReadRaises (e : exn).

(** What [open(csv_file, encoding=...)] followed by [csv.DictReader] gives
    under one encoding: an exception before the header is known, or the
    header ([[]] for an empty file, where [fieldnames] is [None]), the rows
    read, and how reading ends. *)
Inductive csv_read : Type :=
| OpenRaises (e : exn)
| Opened (fieldnames : list string) (rows : list row) (ending : read_end).

(** The CSV file: absent, or what each encoding makes of it. *)
Abbreviation source := (option (encoding → csv_read)).

Definition exact_names : list string :=
  ["email"; "emails"; "email_address"; "e-mail"].

Definition column_clean (column : string) : string := lower (strip column).

(** [not email_column], for a value that is [None] or a string. *)
Definition not_column (email_column : option string) : bool :=
  match email_column with
  | None => true
  | Some column => negb (truthy column)
  end.

(** Lines 235-245: the first column with one of the exact names, else the
    first column whose name contains [email]. *)
Definition find_email_column (fieldnames : list string) : option string :=
  let email_column :=
    List.find (λ column, bool_decide (column_clean column ∈ exact_names))
      fieldnames in
  if not_column email_column
  then List.find (λ column, is_in "email" (column_clean column)) fieldnames
  else email_column.

(** Lines 251-253: the address that a stripped cell gives, if it passes the
    filter. *)
Definition address_of_cell (cell : string) : option string :=
  let email_value := strip cell in
  if truthy email_value && contains "@" email_value
     && contains "." email_value
  then
    if (length (split "@" email_value) =? 2)%nat
    then Some (lower email_value)
    else None
  else None.

(** Lines 250-253, for one row: the cell is read with
    [row.get(email_column, '')]; [.strip()] on a [None] cell raises. *)
Definition read_row (email_column : string) (r : row) (emails : list string)
  : result (list string) :=
  match default (Some "") (r !! email_column) with
  | None => Raise (AttributeError "'NoneType' object has no attribute 'strip'")
  | Some cell =>
      Ok (match address_of_cell cell with
          | Some email => emails ++ [email]
          | None => emails
          end)
  end.

(** The [for row in reader] loop: [emails] keeps what was appended before an
    exception. *)
Fixpoint read_rows (email_column : string) (rows : list row)
    (ending : read_end) (emails : list string) : list string * option exn :=
  match rows with
  | [] =>
      match ending with
      | EndOfFile => (emails, None)
      | ReadRaises e => (emails, Some e)
      end
  | r :: rows' =>
      match read_row email_column r emails with
      | Ok emails' => read_rows email_column rows' ending emails'
      | Raise e => (emails, Some e)
      end
  end.

(** How one pass of the loop over the encodings went. *)
Inductive attempt : Type :=
| Parsed
| NoFieldnames
| NoEmailColumn
| Excepted (e : exn).

(** Lines 231-258: one pass of the loop over [encodings_to_try]. Every
    outcome leads to the next encoding: neither the passes that end in
    [continue] nor the pass that reads the file to its end leaves the loop. *)
Definition try_encoding (r : csv_read) (emails : list string)
  : list string * attempt :=
  match r with
  | OpenRaises e => (emails, Excepted e)
  | Opened [] _ _ => (emails, NoFieldnames)
  | Opened fieldnames rows ending =>
      let email_column := find_email_column fieldnames in
      if not_column email_column then (emails, NoEmailColumn)
      else
        match read_rows (default "" email_column) rows ending emails with
        | (emails', None) => (emails', Parsed)
        | (emails', Some e) => (emails', Excepted e)
        end
  end.

(** The list [emails] after the loop over all encodings. *)
Definition collect (read : encoding → csv_read) : list string :=
  foldl (λ emails enc, (try_encoding (read enc) emails).1) []
    encodings_to_try.

(** [list(dict.fromkeys(emails))]: a dictionary keeps its keys in insertion
    order, and inserting a key that is present leaves its position. *)
Definition fromkeys (emails : list string) : list string :=
  foldl (λ keys k, if bool_decide (k ∈ keys) then keys else keys ++ [k])
    [] emails.

Definition load_email_list (csv : source) : list string :=
  match csv with
  | None => []
  | Some read =>
      let emails := collect read in
      if bool_decide (emails = []) then [] else fromkeys emails
  end.

(** The spec's words for the same list: "deduplicated preserving first-seen
    order". The first address stays and its later occurrences go; the rest
    is treated alike. *)
Fixpoint first_seen (emails : list string) : list string :=
  match emails with
  | [] => []
  | email :: rest => email :: filter (λ e, e ≠ email) (first_seen rest)
  end.

(** The addresses that the cells of an address column give, in order. *)
Definition addresses_of (cells : list string) : list string :=
  omap address_of_cell cells.

(** The spec's words for the choice of encoding: "use the first one that
    parses successfully; if all fail, returns an empty list". *)
Fixpoint first_parsed (read : encoding → csv_read) (encodings : list encoding)
  : list string :=
  match encodings with
  | [] => []
  | enc :: rest =>
      match try_encoding (read enc) [] with
      | (emails, Parsed) => emails
      | _ => first_parsed read rest
      end
  end.

Definition load_first_parsed (csv : source) : list string :=
  match csv with
  | None => []
  | Some read => fromkeys (first_parsed read encodings_to_try)
  end.

(** What every address of the list looks like: not empty, and its own
    lower-case form. *)
Definition normalized (email : string) : Prop :=
  email ≠ "" ∧ lower email = email.

(** A file that every encoding reads alike (plain ASCII). *)
Definition ascii_file (fieldnames : list string) (rows : list row) : source :=
  Some (λ _, Opened fieldnames rows EndOfFile).

(** Rows of a file with the single column [column]. *)
Definition one_column (column : string) (cells : list string) : list row :=
  (λ cell, {[ column := Some cell ]}) <$> cells.

(** The file of bytes [email\n], [C3 A9], [@x.com\n]: one address, with an
    e-acute written in UTF-8. [utf-8] and [utf-8-sig] decode the two bytes to
    U+00E9; [iso-8859-1] and [cp1252] decode them to U+00C3 U+00A9. *)
Definition accented_file : source :=
  Some (λ enc,
    match enc with
    | utf_8 | utf_8_sig =>
        Opened ["email"]
          (one_column "email" [String (ascii_of_nat 233) "@x.com"]) EndOfFile
    | iso_8859_1 | cp1252 =>
        Opened ["email"]
          (one_column "email"
             [String (ascii_of_nat 195) (String (ascii_of_nat 169) "@x.com")])
          EndOfFile
    end).

End Source.

(** ** [random.sample]

    The sampling function belongs to Python's library. It is modelled by its
    selection loop over a pool: the [i]-th choice takes position
    [randbelow(n - i)] of the pool and moves the pool's last item into the
    vacancy. The generator's raw draws are the argument [rand]. *)

Module Random.

Section Sample.
Context {A : Type}.
Variable rand : nat → nat.

Fixpoint select (i : nat) (pool : list A) (k : nat) : list A :=
  match k with
  | O => []
  | S k' =>
      let j := rand i mod length pool in
      match pool !! j, last pool with
      | Some chosen, Some moved =>
          chosen :: select (S i) (take (length pool - 1) (<[j:=moved]> pool)) k'
      | _, _ => []
      end
  end.

Definition sample (population : list A) (k : Z) : result (list A) :=
  if bool_decide (0 ≤ k ≤ Z.of_nat (length population))%Z
  then Ok (select 0 population (Z.to_nat k))
  else Raise (ValueError "Sample larger than population or is negative").

End Sample.

End Random.

(** ** The progress ledger *)

Module Ledger.

Import PyStr.

(** A dictionary item of [sent_emails]. [email] and [success] are read with
    [item.get], so either key may be missing; [success] holds the truth value
    of what is stored under the key. *)
Record entry : Type := Entry {
  email : option string;
  timestamp : string;
  success : option bool;
  error : string
}.

(** An item of [sent_emails]: a dictionary, or anything else, of which the
    code only uses [str(item)]. *)
Inductive item : Type :=
| Dict (e : entry)
| NotDict (str : string).

(** [campaign_stats]; a key that is missing is [None]. [last_run] holds
    Python's [None] ([Some None]) or a time stamp. *)
Record stats : Type := Stats {
  total_sent : option Z;
  successful : option Z;
  failed : option Z;
  last_run : option (option string)
}.

(** [progress_data]; a key that is missing is [None]. *)
Record progress : Type := Progress {
  sent_emails : option (list item);
  campaign_stats : option stats
}.

(** The dictionary of lines 211 and 214. *)
Definition fresh : progress :=
  {| sent_emails := Some [];
     campaign_stats :=
       Some {| total_sent := Some 0%Z; successful := None; failed := None;
               last_run := Some None |} |}.

(** The progress file, for the files that the program writes and for those
    it replaces by the fresh ledger: missing; not readable as JSON (opening,
    reading or parsing raises); JSON that is not an object, or an object
    whose [sent_emails] has no length, so that line 207 raises; or a JSON
    object of the ledger's schema, [Object p]. A JSON object that line 207
    can read and that is not of this schema (its [sent_emails] a string, an
    item with a number for its address) is returned by [load_progress] as it
    is and has no place in this type: [ProgressFile] below has the file as
    JSON, and [ProgressFile.abstract] says which files this type stands
    for. *)
Inductive stored : Type :=
| NoFile
| Unreadable (e : exn)
| NotAnObject
| Object (p : progress).

(** Lines 204-211, the body of the [try]. *)
Definition load_progress_try (file : stored) : result progress :=
  match file with
  | NoFile => Ok fresh
  | Unreadable e => Raise e
  | NotAnObject => Raise (AttributeError "object has no attribute 'get'")
  | Object p => Ok p
  end.

Definition load_progress (file : stored) : progress :=
  match load_progress_try file with
  | Ok p => p
  | Raise _ => fresh
  end.

(** Lines 216-222: [last_run] is set in memory first (a [KeyError] when
    [campaign_stats] is missing), then the file is written; every exception
    is logged and dropped. The result is [progress_data] and the file. *)
Definition save_progress (now : string) (writable : bool) (pd : progress)
    (file : stored) : progress * stored :=
  match campaign_stats pd with
  | None => (pd, file)
  | Some st =>
      let pd' :=
        {| sent_emails := sent_emails pd;
           campaign_stats :=
             Some {| total_sent := total_sent st; successful := successful st;
                     failed := failed st; last_run := Some (Some now) |} |} in
      (pd', if writable then Object pd' else file)
  end.

(** [item.get("email", "")] on a dictionary, else [str(item)]. *)
Definition address (it : item) : string :=
  match it with
  | Dict e => default "" (email e)
  | NotDict str => str
  end.

(** [self.progress_data.get("sent_emails", [])]. *)
Definition get_sent_emails (pd : progress) : list item :=
  default [] (sent_emails pd).

(** Lines 269-276: the set of lower-cased addresses of the ledger; an empty
    address is not added. *)
Definition sent_email_addresses (pd : progress) : gset string :=
  foldl (λ sent it,
           let email := address it in
           if truthy email then sent ∪ {[ lower email ]} else sent)
    ∅ (get_sent_emails pd).

(** Line 277. *)
Definition unsent_emails (all_emails : list string) (pd : progress)
  : list string :=
  filter (λ email, lower email ∉ sent_email_addresses pd) all_emails.

Definition get_unsent_emails (rand : nat → nat) (csv : Source.source)
    (pd : progress) (limit : Z) : result (list string) :=
  let all_emails := Source.load_email_list csv in
  let unsent := unsent_emails all_emails pd in
  if bool_decide (unsent = []) then Ok []
  else
    let selected_count := Z.min limit (Z.of_nat (length unsent)) in
    Random.sample rand unsent selected_count.

(** [item.get("success", False)] and [not item.get("success", True)], each
    behind [isinstance(item, dict)]. *)
Definition is_successful (it : item) : bool :=
  match it with
  | Dict e => default false (success e)
  | NotDict _ => false
  end.

Definition is_failed (it : item) : bool :=
  match it with
  | Dict e => negb (default true (success e))
  | NotDict _ => false
  end.

Definition count (p : item → bool) (items : list item) : Z :=
  Z.of_nat (length (filter (λ it, p it) items)).

(** Lines 285-309. *)
Definition mark_email_sent (now : string) (email : string) (success : bool)
    (error_message : string) (pd : progress) : progress :=
  let email_record :=
    Dict {| email := Some email; timestamp := now; success := Some success;
            error := error_message |} in
  let items := default [] (sent_emails pd) in
  let existing_emails := address <$> items in
  let items :=
    if bool_decide (email ∈ existing_emails) then items
    else items ++ [email_record] in
  let st :=
    default {| total_sent := Some 0%Z; successful := Some 0%Z;
               failed := Some 0%Z; last_run := None |}
      (campaign_stats pd) in
  {| sent_emails := Some items;
     campaign_stats :=
       Some {| total_sent := Some (Z.of_nat (length items));
               successful := Some (count is_successful items);
               failed := Some (count is_failed items);
               last_run := last_run st |} |}.

(** [stats.get(key, 0)] on [campaign_stats], itself read with
    [progress_data.get("campaign_stats", {})]. *)
Definition stat (key : stats → option Z) (pd : progress) : Z :=
  default 0%Z (campaign_stats pd ≫= key).

(** The dictionary of [get_campaign_stats]. *)
Record campaign_status : Type := CampaignStatus {
  total_emails_in_csv : Z;
  emails_sent : Z;
  emails_remaining : Z;
  successful_sends : Z;
  failed_sends : Z;
  status_last_run : option string
}.

Definition get_campaign_stats (csv : Source.source) (pd : progress)
  : campaign_status :=
  let all_emails := Source.load_email_list csv in
  let sent_count := Z.of_nat (length (get_sent_emails pd)) in
  let total := Z.of_nat (length all_emails) in
  {| total_emails_in_csv := total;
     emails_sent := sent_count;
     emails_remaining := (total - sent_count)%Z;
     successful_sends := stat successful pd;
     failed_sends := stat failed pd;
     status_last_run :=
       default (Some "Never") (campaign_stats pd ≫= last_run) |}.

(** The ledgers that [mark_email_sent] builds from the fresh one. *)
Inductive reachable : progress → Prop :=
| reachable_fresh : reachable fresh
| reachable_mark pd now email success error_message :
    reachable pd →
    reachable (mark_email_sent now email success error_message pd).

End Ledger.

(** ** The campaign driver *)

Module Campaign.

Import PyStr Emailer Ledger.

(** A content file ([email.html], [email.txt]): missing, or what
    [open] and [readlines] give. *)
Abbreviation content_file := (option (result (list string))).

(** The body of either branch of [read_email_content], after the file was
    found: the subject and the rest of the text. *)
Definition read_content (name : string) (file : result (list string))
  : result (string * string) :=
  lines ← file;
  match lines with
  | first :: rest =>
      if startswith "SUBJECT:" first
      then Ok (strip (remove "SUBJECT:" first), lstrip (join rest))
      else Raise (RuntimeError
                    ("First line of " +:+ name +:+ " must be 'SUBJECT: ...'"))
  | [] => Raise (RuntimeError
                   ("First line of " +:+ name +:+ " must be 'SUBJECT: ...'"))
  end.

(** [read_email_content]: subject, plain text, HTML. *)
Definition read_email_content (email_html email_txt : content_file)
  : result (string * string * string) :=
  match email_html, email_txt with
  | Some file, _ =>
      '(subject, html_message) ← read_content "email.html" file;
      Ok (subject, "", html_message)
  | None, Some file =>
      '(subject, plain_text_message) ← read_content "email.txt" file;
      Ok (subject, plain_text_message, "")
  | None, None =>
      Raise (RuntimeError
        "No email.html or email.txt found. Please create one with 'SUBJECT: ...' as the first line.")
  end.

(** The lines that the program prints, one constructor for each [print]. *)
Inductive line : Type :=
| ContentError (text : string)
| SendingCampaignEmail (recipient : string)
| EmailSent (recipient : string)
| FailedToSend (recipient : string) (why : option string)
| Status (st : campaign_status)
| CampaignComplete
| NoEmailsToSend
| ErrorInitializingEmailer (text : string)
| StartingBatch (recipients : nat) (sender_name sender_email : string)
| SendingTo (i n : nat) (recipient : string)
| Success
| Failed (error_msg : string)
| BatchComplete (successful_sends failed_sends : Z) (recipients : nat)
| UpdatedStatus (emails_sent emails_remaining : Z).

(** What a run does to the outside, in order. *)
Inductive event : Type :=
| Output (l : line)
| GatewayCall (m : mail)
| FileWritten (pd : progress)
| Sleep (seconds : Z).

Definition gateway_calls (trace : list event) : list mail :=
  omap (λ ev, match ev with GatewayCall m => Some m | _ => None end) trace.

Definition printed (trace : list event) : list line :=
  omap (λ ev, match ev with Output l => Some l | _ => None end) trace.

Section Run.

(** The settings, the files and the outside world of one run. The replies of
    the provider, the clock and the outcome of writing the progress file may
    change from one use to the next: each is indexed by the number of events
    so far. *)
Variables SENDER_EMAIL SENDER_NAME SENDGRID_API_KEY : string.
Variable csv : Source.source.
Variables email_html email_txt : content_file.
Variable sg : nat → mail → reply.
Variable clock : nat → string.
Variable writable : nat → bool.
Variable rand : nat → nat.

(** [SendGridEmailer(api_key=...)]. *)
Definition new_emailer (api_key : string) : result unit :=
  require (truthy api_key) (ValueError "SendGrid API key is required.").

(** [send_campaign_email], run after the events [before]: its dictionary and
    the events it adds. *)
Definition send_campaign_email (before : list event) (recipient_email : string)
    (show_output : bool) : result (send_result * list event) :=
  _ ← new_emailer SENDGRID_API_KEY;
  let say (l : line) : list event := if show_output then [Output l] else [] in
  match read_email_content email_html email_txt with
  | Raise e =>
      Ok ({| Emailer.success := false; status_code := None; message := None;
             Emailer.error := Some (str_of_exn e); recipients := None;
             response_body := None; response_headers := None |},
          say (ContentError (str_of_exn e)))
  | Ok (subject, plain_text_message, html_message) =>
      let started := say (SendingCampaignEmail recipient_email) in
      let '(res, sent) :=
        send_email (sg (length (before ++ started))) SENDER_EMAIL
          [recipient_email] subject plain_text_message html_message
          SENDER_NAME in
      Ok (res,
          started ++ (GatewayCall <$> sent)
          ++ say (if Emailer.success res then EmailSent recipient_email
                  else FailedToSend recipient_email
                         (match Emailer.error res with
                          | Some e => Some e
                          | None => message res
                          end)))
  end.

(** The state of the loop of [run_email_campaign]. *)
Record loop_state : Type := LoopState {
  progress_data : progress;
  progress_file : stored;
  successful_sends : Z;
  failed_sends : Z;
  trace : list event
}.

(** Lines 352-368, for one recipient. *)
Definition send_one (n i : nat) (recipient_email : string) (s : loop_state)
  : result loop_state :=
  let t := trace s ++ [Output (SendingTo i n recipient_email)] in
  '(res, evs) ← send_campaign_email t recipient_email false;
  let t := t ++ evs in
  let '(pd, ok, bad, t) :=
    if Emailer.success res then
      (mark_email_sent (clock (length t)) recipient_email true ""
         (progress_data s),
       (successful_sends s + 1)%Z, failed_sends s, t ++ [Output Success])
    else
      let error_msg := default "Unknown error" (Emailer.error res) in
      (mark_email_sent (clock (length t)) recipient_email false error_msg
         (progress_data s),
       successful_sends s, (failed_sends s + 1)%Z,
       t ++ [Output (Failed error_msg)]) in
  let '(pd', file') :=
    save_progress (clock (length t)) (writable (length t)) pd
      (progress_file s) in
  let written :=
    match campaign_stats pd with
    | Some _ => if writable (length t) then [FileWritten pd'] else []
    | None => []
    end in
  Ok {| progress_data := pd'; progress_file := file';
        successful_sends := ok; failed_sends := bad;
        trace := t ++ written ++ [Sleep 2] |}.

(** The loop of lines 351-368. An exception ends the loop; the state reached
    before it is kept with it. *)
Fixpoint send_all (n i : nat) (target_emails : list string) (s : loop_state)
  : loop_state * option exn :=
  match target_emails with
  | [] => (s, None)
  | recipient_email :: rest =>
      match send_one n i recipient_email s with
      | Ok s' => send_all n (S i) rest s'
      | Raise e => (s, Some e)
      end
  end.

(** [run_email_campaign], started on the progress file [file]: the state at
    the end, and the exception that left the function, if any. *)
Definition run_email_campaign (batch_size : Z) (file : stored)
  : loop_state * option exn :=
  let pd := load_progress file in
  let stats := get_campaign_stats csv pd in
  let s := {| progress_data := pd; progress_file := file;
              successful_sends := 0; failed_sends := 0;
              trace := [Output (Status stats)] |} in
  let say (l : line) :=
    {| progress_data := progress_data s; progress_file := progress_file s;
       successful_sends := 0; failed_sends := 0;
       trace := trace s ++ [Output l] |} in
  if bool_decide (emails_remaining stats = 0%Z) then (say CampaignComplete, None)
  else
    match get_unsent_emails rand csv pd batch_size with
    | Raise e => (s, Some e)
    | Ok [] => (say NoEmailsToSend, None)
    | Ok target_emails =>
        match new_emailer SENDGRID_API_KEY with
        | Raise e => (say (ErrorInitializingEmailer (str_of_exn e)), None)
        | Ok _ =>
            let n := length target_emails in
            match send_all n 1 target_emails
                    (say (StartingBatch n SENDER_NAME SENDER_EMAIL)) with
            | (s', Some e) => (s', Some e)
            | (s', None) =>
                let updated := get_campaign_stats csv (progress_data s') in
                ({| progress_data := progress_data s';
                    progress_file := progress_file s';
                    successful_sends := successful_sends s';
                    failed_sends := failed_sends s';
                    trace :=
                      trace s'
                      ++ [Output (BatchComplete (successful_sends s')
                                   (failed_sends s') n);
                          Output (UpdatedStatus (emails_sent updated)
                                   (emails_remaining updated))] |},
                 None)
            end
        end
    end.

End Run.

End Campaign.

(** ** The test-address dialog of [mail_gui.py] *)

Module Gui.

Import PyStr.

(** [s.partition(c)] for a one-character separator: the text before the
    first [c], the separator if it is there, and the text after it. *)
Fixpoint partition (c : ascii) (s : string) : string * string * string :=
  match s with
  | EmptyString => (EmptyString, EmptyString, EmptyString)
  | String d s' =>
      if ascii_dec c d then (EmptyString, String c EmptyString, s')
      else
        let '(before, sep, after) := partition c s' in
        (String d before, sep, after)
  end.

(** [is_valid_email] of [_show_test_email_dialog], lines 244-248. *)
Definition is_valid_email (email : string) : bool :=
  if negb (truthy email) || negb (contains "@" email) then false
  else
    let '(local, _, domain) := partition "@" email in
    contains "." domain
    && (0 <? String.length local)%nat
    && (2 <? String.length domain)%nat.

End Gui.

(** ** Notions used to state what the recipient source does *)

Module SourceSpec.

Import Source.

(** [x] is the first element of [l] with the property [P]. *)
Definition first_with {A} (P : A → Prop) (l : list A) (x : A) : Prop :=
  ∃ l1 l2, l = l1 ++ x :: l2 ∧ P x ∧ ∀ y, y ∈ l1 → ¬ P y.

(** The cells of the column [column], row by row, up to the first row that
    is too short to have one. *)
Fixpoint cells_until_short (column : string) (rows : list row) : list string :=
  match rows with
  | [] => []
  | r :: rest =>
      match default (Some "") (r !! column) with
      | Some cell => cell :: cells_until_short column rest
      | None => []
      end
  end.

(** What one encoding adds to the list: lines 231-258 run on an empty
    list. *)
Definition emails_under (r : csv_read) : list string :=
  (try_encoding r []).1.


End SourceSpec.

(** ** The progress file as JSON *)

Module Json.

(** A value as [json.load] returns it. A number that is not an integer is
    kept by its text; a dictionary is the list of its items, where the
    first item of a key counts. *)
#[warnings="-register-all"]
Inductive value : Type :=
| Null
| Bool (b : bool)
| Int (z : Z)
| Float (text : string)
| Str (s : string)
| Arr (items : list value)
| Obj (fields : list (string * value)).

(** [d.get(key)], with [None] for a key that is missing. *)
Fixpoint get (key : string) (fields : list (string * value)) : option value :=
  match fields with
  | [] => None
  | (k, v) :: rest => if String.eqb k key then Some v else get key rest
  end.

(** Whether [len(v)] is defined: on strings, lists and dictionaries. *)
Definition has_len (v : value) : bool :=
  match v with
  | Str _ | Arr _ | Obj _ => true
  | Null | Bool _ | Int _ | Float _ => false
  end.

End Json.

Module ProgressFile.

Import Json Ledger.

(** The progress file before [load_progress] runs: missing; such that
    [open] or [json.load] raises; or text that [json.load] turns into the
    value [v]. *)
Inductive content : Type :=
| Missing
| Fails (e : exn)
| Holds (v : value).

(** The dictionary of lines 211 and 214. *)
Definition fresh : value :=
  Obj [("sent_emails", Arr []);
       ("campaign_stats", Obj [("total_sent", Int 0); ("last_run", Null)])].

(** Lines 204-211, the body of the [try]. Line 207 calls [progress.get],
    which only a dictionary has, and takes the [len] of what it gives; the
    value itself is returned as [json.load] gave it. *)
Definition load_progress_try (file : content) : result value :=
  match file with
  | Missing => Ok fresh
  | Fails e => Raise e
  | Holds progress =>
      match progress with
      | Obj fields =>
          if has_len (default (Arr []) (get "sent_emails" fields))
          then Ok progress
          else Raise (OtherException "object has no len()")
      | _ => Raise (AttributeError "object has no attribute 'get'")
      end
  end.

(** [load_progress]: the [try] and its [except Exception] handler of lines
    212-214. *)
Definition load_progress (file : content) : result value :=
  match load_progress_try file with
  | Ok progress => Ok progress
  | Raise _ => Ok fresh
  end.

(** The schema of the ledger, as the functions of [Ledger] read it. An item
    of [sent_emails] is a dictionary whose address, if it has one, is a
    string and whose [success], if it has one, is a truth value, or it is a
    string. *)
Definition decode_item (v : value) : option item :=
  match v with
  | Obj fields =>
      email ← match get "email" fields with
              | None => Some None
              | Some (Str s) => Some (Some s)
              | Some _ => None
              end;
      timestamp ← match get "timestamp" fields with
                  | Some (Str s) => Some s
                  | _ => None
                  end;
      success ← match get "success" fields with
                | None => Some None
                | Some (Bool b) => Some (Some b)
                | Some _ => None
                end;
      error ← match get "error" fields with
              | Some (Str s) => Some s
              | _ => None
              end;
      Some (Dict {| email := email; timestamp := timestamp;
                    success := success; error := error |})
  | Str s => Some (NotDict s)
  | _ => None
  end.

(** A counter of [campaign_stats]: missing, or an integer. *)
Definition decode_counter (key : string) (fields : list (string * value))
  : option (option Z) :=
  match get key fields with
  | None => Some None
  | Some (Int z) => Some (Some z)
  | Some _ => None
  end.

Definition decode_stats (v : value) : option stats :=
  match v with
  | Obj fields =>
      total_sent ← decode_counter "total_sent" fields;
      successful ← decode_counter "successful" fields;
      failed ← decode_counter "failed" fields;
      last_run ← match get "last_run" fields with
                 | None => Some None
                 | Some Null => Some (Some None)
                 | Some (Str s) => Some (Some (Some s))
                 | Some _ => None
                 end;
      Some {| total_sent := total_sent; successful := successful;
              failed := failed; last_run := last_run |}
  | _ => None
  end.

(** The ledger that a JSON value is, if it is of the schema: an object
    whose [sent_emails], if there, is a list of items and whose
    [campaign_stats], if there, is an object of counters. *)
Definition decode (v : value) : option progress :=
  match v with
  | Obj fields =>
      sent_emails ← match get "sent_emails" fields with
                    | None => Some None
                    | Some (Arr items) => Some <$> mapM decode_item items
                    | Some _ => None
                    end;
      campaign_stats ← match get "campaign_stats" fields with
                       | None => Some None
                       | Some st => Some <$> decode_stats st
                       end;
      Some {| sent_emails := sent_emails; campaign_stats := campaign_stats |}
  | _ => None
  end.

(** A well-formed ledger: a value of the schema. *)
Definition well_formed (v : value) : Prop := is_Some (decode v).

(** The element of [Ledger.stored] that stands for a file: there is one for
    every file but those that hold an object which line 207 can read and
    which is not of the schema. *)
Definition abstract (file : content) : option stored :=
  match file with
  | Missing => Some NoFile
  | Fails e => Some (Unreadable e)
  | Holds v =>
      match load_progress_try (Holds v) with
      | Raise _ => Some NotAnObject
      | Ok _ => Object <$> decode v
      end
  end.

End ProgressFile.

(** ** Notions used to state what the ledger and the driver do *)

Module LedgerSpec.

Import Source Ledger.

(** The addresses of the ledger's items, in order. *)
Definition addresses (pd : progress) : list string :=
  address <$> get_sent_emails pd.

(** An item that counts in [successful] or in [failed]: a dictionary with a
    [success] value. *)
Definition has_outcome (it : item) : Prop :=
  ∃ e b, it = Dict e ∧ success e = Some b.

(** A ledger that belongs to the recipient file: its addresses are pairwise
    different and all of them are addresses of the list. *)
Definition matches_list (csv : source) (pd : progress) : Prop :=
  NoDup (addresses pd) ∧ addresses pd ⊆ load_email_list csv.

End LedgerSpec.

Module DriverSpec.

Import Emailer Ledger Campaign.

(** The recipients of the gateway calls of a run, call by call. *)
Definition recipients_called (trace : list event) : list (list string) :=
  to_list <$> gateway_calls trace.

(** A record of a failed attempt with the error text [text]. *)
Definition failed_with (text : string) (it : item) : Prop :=
  ∃ e, it = Dict e ∧ success e = Some false ∧ error e = text.

(** The addresses handed to the gateway that the progress file, as last
    written, does not hold; [pending] are those from before the trace. *)
Fixpoint unsaved (pending : list string) (trace : list event) : list string :=
  match trace with
  | [] => pending
  | GatewayCall m :: rest => unsaved (pending ++ to_list m) rest
  | FileWritten pd :: rest =>
      unsaved (filter (λ r, r ∉ LedgerSpec.addresses pd) pending) rest
  | _ :: rest => unsaved pending rest
  end.

(** Every gateway call of the trace is made when the progress file holds
    all addresses handed to the gateway before. *)
Fixpoint saved_before_each_call (pending : list string) (trace : list event)
  : Prop :=
  match trace with
  | [] => True
  | GatewayCall m :: rest =>
      pending = [] ∧ saved_before_each_call (to_list m) rest
  | FileWritten pd :: rest =>
      saved_before_each_call
        (filter (λ r, r ∉ LedgerSpec.addresses pd) pending) rest
  | _ :: rest => saved_before_each_call pending rest
  end.

(** Between two gateway calls of the trace the program sleeps 2 seconds;
    [called] says that a call was made and no sleep has followed yet. *)
Fixpoint sleeps_between_calls (called : bool) (trace : list event) : Prop :=
  match trace with
  | [] => True
  | GatewayCall _ :: rest => called = false ∧ sleeps_between_calls true rest
  | Sleep seconds :: rest => seconds = 2%Z ∧ sleeps_between_calls false rest
  | _ :: rest => sleeps_between_calls called rest
  end.

(** Whether the trace ends with a gateway call that no sleep has
    followed. *)
Fixpoint called_after (called : bool) (trace : list event) : bool :=
  match trace with
  | [] => called
  | GatewayCall _ :: rest => called_after true rest
  | Sleep _ :: rest => called_after false rest
  | _ :: rest => called_after called rest
  end.

(** A message as [send_campaign_email] has [send_email] build it: from the
    configured sender, a valid address, to one valid address, with the
    subject and the body of the content file that is read. *)
Definition campaign_message (sender_email sender_name : string)
    (email_html email_txt : content_file) (m : mail) : Prop :=
  from_address m
  = (sender_email,
     if PyStr.truthy sender_name then Some sender_name else None)
  ∧ validate_email sender_email = true
  ∧ (∃ r, to_list m = [r] ∧ validate_email r = true)
  ∧ ∃ subject plain html,
      read_email_content email_html email_txt = Ok (subject, plain, html)
      ∧ mail_subject m = subject
      ∧ subject ≠ EmptyString
      ∧ contents m
        = match email_html with
          | Some _ => [HtmlContent html]
          | None => [PlainTextContent plain]
          end.

(** A record of an attempt with the outcome [ok]. *)
Definition recorded_as (ok : bool) (it : item) : Prop :=
  ∃ e, it = Dict e ∧ success e = Some ok.

(** What a run that ends in the state [s], with the exception [raised] if
    any, has done: the items [new_items] appended to the ledger and the
    addresses [recipients] handed to the gateway. *)
Definition run_facts (csv : Source.source) (email_html email_txt : content_file)
    (api_key : string) (writable : nat → bool) (batch_size : Z)
    (file : stored) (s : loop_state) (raised : option exn)
    (new_items : list item) (recipients : list string) : Prop :=
  let pd0 := load_progress file in
  let unsent := unsent_emails (Source.load_email_list csv) pd0 in
  let remaining := emails_remaining (get_campaign_stats csv pd0) in
  let sends :=
    remaining ≠ 0%Z ∧ unsent ≠ [] ∧ (0 ≤ batch_size)%Z
    ∧ PyStr.truthy api_key = true in
  get_sent_emails (progress_data s) = get_sent_emails pd0 ++ new_items
  ∧ NoDup (address <$> new_items)
  ∧ address <$> new_items ⊆ unsent
  ∧ Forall LedgerSpec.has_outcome new_items
  ∧ (sends → Z.of_nat (length new_items)
             = Z.min batch_size (Z.of_nat (length unsent)))
  ∧ (¬ sends → new_items = [])
  ∧ (new_items = [] → progress_data s = pd0 ∧ progress_file s = file)
  ∧ successful_sends s = count is_successful new_items
  ∧ failed_sends s = count is_failed new_items
  ∧ recipients_called (trace s) = (λ r, [r]) <$> recipients
  ∧ recipients `sublist_of` (address <$> new_items)
  ∧ (count is_successful new_items ≤ Z.of_nat (length recipients))%Z
  ∧ ((∀ k, writable k = true) → new_items ≠ [] →
     progress_file s = Object (progress_data s))
  ∧ (∀ e, read_email_content email_html email_txt = Raise e →
          recipients = [] ∧ Forall (failed_with (str_of_exn e)) new_items)
  ∧ (raised = None
     ↔ ¬ (remaining ≠ 0%Z ∧ unsent ≠ [] ∧ (batch_size < 0)%Z))
  ∧ (∀ it, it ∈ new_items → is_successful it = true →
           address it ∈ recipients).

End DriverSpec.

(** * Properties *)

(** ** Python strings and the address pattern *)

Example strip_ex : PyStr.strip "  bob@y.org  " = "bob@y.org".
Proof. reflexivity. Qed.

Example lower_ex : PyStr.lower "A@X.com" = "a@x.com".
Proof. reflexivity. Qed.

Example split_ex : PyStr.split "@" "a@@b" = ["a"; ""; "b"].
Proof. reflexivity. Qed.

Example is_in_ex : PyStr.is_in "email" "contact_email" = true.
Proof. reflexivity. Qed.

Example validate_ok : Emailer.validate_email "a.b+c@mail.example.org" = true.
Proof. vm_compute. reflexivity. Qed.

Example validate_final_newline :
  Emailer.validate_email ("a@b.co" +:+ String Emailer.newline "") = true.
Proof. vm_compute. reflexivity. Qed.

Example validate_short_tld : Emailer.validate_email "a@b.c" = false.
Proof. vm_compute. reflexivity. Qed.

Example validate_two_ats : Emailer.validate_email "a@b@c.co" = false.
Proof. vm_compute. reflexivity. Qed.

Section PyStrFacts.
Import PyStr.

Lemma lower_char_idemp c : lower_char (lower_char c) = lower_char c.
Proof. destruct c as [[] [] [] [] [] [] [] []]; reflexivity. Qed.

Lemma lower_idemp s : lower (lower s) = lower s.
Proof.
  induction s as [|c s IH]; simpl; [reflexivity|].
  now rewrite lower_char_idemp, IH.
Qed.

Lemma truthy_lower s : truthy (lower s) = truthy s.
Proof. now destruct s. Qed.

Lemma truthy_false s : truthy s = false ↔ s = "".
Proof. destruct s; simpl; split; congruence. Qed.

Lemma truthy_true s : truthy s = true ↔ s ≠ "".
Proof. destruct s; simpl; split; congruence. Qed.

End PyStrFacts.

(** ** The matcher decides the patterns *)

Section RegexFacts.
Import Regex.

Lemma append_nil_l s : "" +:+ s = s.
Proof. reflexivity. Qed.

Lemma append_cons c s1 s2 : String c s1 +:+ s2 = String c (s1 +:+ s2).
Proof. reflexivity. Qed.

Lemma append_empty s1 s2 : s1 +:+ s2 = "" → s1 = "" ∧ s2 = "".
Proof. destruct s1; simpl; [tauto|discriminate]. Qed.

Lemma nullable_matches r : nullable r = true ↔ matches r "".
Proof.
  split.
  - induction r as [| |p|r1 IH1 r2 IH2|r1 IH1 r2 IH2|r IH]; simpl;
      try discriminate; intros H.
    + constructor.
    + apply andb_prop in H as [H1 H2].
      change (matches (Cat r1 r2) ("" +:+ "")). constructor; auto.
    + apply orb_prop in H as [H|H]; [apply matches_alt_l|apply matches_alt_r];
        auto.
    + constructor.
  - intros H. remember "" as s eqn:Hs.
    induction H as [|p c Hp|r1 r2 s1 s2 H1 IH1 H2 IH2|r1 r2 s H IH
                    |r1 r2 s H IH| |r s1 s2 H1 IH1 H2 IH2]; simpl;
      try reflexivity; try discriminate.
    + apply append_empty in Hs as [-> ->]. now rewrite IH1, IH2.
    + now rewrite IH.
    + rewrite IH by assumption. apply orb_true_r.
Qed.

Lemma matches_deriv c r s : matches r (String c s) → matches (deriv c r) s.
Proof.
  intros H. remember (String c s) as cs eqn:Hcs. revert s Hcs.
  induction H as [|p d Hp|r1 r2 s1 s2 H1 IH1 H2 IH2|r1 r2 s' H IH
                  |r1 r2 s' H IH| |r s1 s2 H1 IH1 H2 IH2]; intros s Hcs;
    simpl; try discriminate.
  - injection Hcs as -> <-. rewrite Hp. constructor.
  - destruct s1 as [|d s1']; rewrite ?append_nil_l, ?append_cons in Hcs.
    + subst s2. apply nullable_matches in H1. rewrite H1.
      apply matches_alt_r. now apply IH2.
    + injection Hcs as -> <-.
      assert (matches (Cat (deriv c r1) r2) (s1' +:+ s2))
        by (constructor; auto).
      destruct (nullable r1); [now apply matches_alt_l|assumption].
  - apply matches_alt_l. now apply IH.
  - apply matches_alt_r. now apply IH.
  - destruct s1 as [|d s1']; rewrite ?append_nil_l, ?append_cons in Hcs.
    + subst s2. now apply IH2.
    + injection Hcs as -> <-. constructor; auto.
Qed.

Lemma deriv_matches c r : ∀ s, matches (deriv c r) s → matches r (String c s).
Proof.
  induction r as [| |p|r1 IH1 r2 IH2|r1 IH1 r2 IH2|r IH]; simpl; intros s H.
  - inversion H.
  - inversion H.
  - destruct (p c) eqn:Hp; inversion H; subst. now constructor.
  - assert (∀ s, matches (Cat (deriv c r1) r2) s →
                 matches (Cat r1 r2) (String c s)) as Hcat.
    { intros s' H'. inversion H' as [| |? ? s1 s2 H1 H2| | | |]; subst.
      change (matches (Cat r1 r2) (String c s1 +:+ s2)). constructor; auto. }
    destruct (nullable r1) eqn:Hnull; [|auto].
    inversion H as [| | |? ? ? H'|? ? ? H'| |]; subst; [auto|].
    change (matches (Cat r1 r2) ("" +:+ String c s)).
    constructor; [now apply nullable_matches|auto].
  - inversion H as [| | |? ? ? H'|? ? ? H'| |]; subst;
      [apply matches_alt_l|apply matches_alt_r]; auto.
  - inversion H as [| |? ? s1 s2 H1 H2| | | |]; subst.
    change (matches (Star r) (String c s1 +:+ s2)). constructor; auto.
Qed.

(** [fullmatch] accepts exactly the strings that the pattern stands for. *)
Lemma fullmatch_matches r s : fullmatch r s = true ↔ matches r s.
Proof.
  revert r. induction s as [|c s IH]; intros r; simpl.
  - apply nullable_matches.
  - rewrite IH. split; [apply deriv_matches|apply matches_deriv].
Qed.

Lemma matches_class_iff p s :
  matches (Class p) s ↔ ∃ c, s = String c "" ∧ p c = true.
Proof.
  split; [inversion 1; eauto|]. intros (c & -> & Hp). now constructor.
Qed.

Lemma matches_cat_iff r1 r2 s :
  matches (Cat r1 r2) s
  ↔ ∃ s1 s2, s = s1 +:+ s2 ∧ matches r1 s1 ∧ matches r2 s2.
Proof.
  split; [inversion 1; eauto|]. intros (s1 & s2 & -> & H1 & H2).
  now constructor.
Qed.

Lemma matches_star_class p s :
  matches (Star (Class p)) s ↔ all_chars p s = true.
Proof.
  split.
  - intros H. remember (Star (Class p)) as r eqn:Hr.
    induction H as [| | | | | |r s1 s2 H1 _ H2 IH2]; try discriminate;
      [reflexivity|].
    injection Hr as ->. apply matches_class_iff in H1 as (c & -> & Hp).
    rewrite append_cons, append_nil_l. simpl. rewrite Hp. now apply IH2.
  - induction s as [|c s IH]; simpl; [constructor|].
    intros [Hp Hs]%andb_prop.
    change (matches (Star (Class p)) (String c "" +:+ s)).
    constructor; [now constructor|auto].
Qed.

(** [[p]+]: a non-empty string of characters of the class. *)
Lemma matches_plus_class p s :
  matches (Plus (Class p)) s ↔ s ≠ "" ∧ all_chars p s = true.
Proof.
  unfold Plus. rewrite matches_cat_iff. split.
  - intros (s1 & s2 & -> & (c & -> & Hp)%matches_class_iff
            & Hs%matches_star_class).
    rewrite append_cons, append_nil_l. simpl. now rewrite Hp.
  - destruct s as [|c s]; [tauto|]. simpl.
    intros [_ [Hp Hs]%andb_prop].
    exists (String c ""), s. split; [reflexivity|].
    split; [now constructor|now apply matches_star_class].
Qed.

(** [[p]{2,}]: at least two characters, all of the class. *)
Lemma matches_atleast2_class p s :
  matches (AtLeast2 (Class p)) s
  ↔ 2 ≤ String.length s ∧ all_chars p s = true.
Proof.
  unfold AtLeast2. rewrite matches_cat_iff. split.
  - intros (s1 & s2 & -> & (c & -> & Hp)%matches_class_iff
            & (s' & Hs')%matches_plus_class).
    rewrite append_cons, append_nil_l. simpl. rewrite Hp.
    destruct s2; [contradiction|]. simpl. split; [lia|assumption].
  - destruct s as [|c [|d s]]; simpl; try lia.
    intros [_ [Hp Hs]%andb_prop].
    exists (String c ""), (String d s). split; [reflexivity|].
    split; [now constructor|]. now apply matches_plus_class.
Qed.

End RegexFacts.

(** ** [send_email] *)

Section EmailerFacts.
Import PyStr Regex Emailer.

(** What [validate_email] accepts: a non-empty local part of letters,
    digits and [._%+-], an [@], a non-empty domain of letters, digits, dots
    and hyphens, a dot, and at least two letters; one final newline may
    follow. *)
Lemma validate_email_shape email :
  validate_email email = true
  ↔ ∃ local domain tld final,
      email = local +:+ "@" +:+ domain +:+ "." +:+ tld +:+ final
      ∧ (local ≠ "" ∧ all_chars local_char local = true)
      ∧ (domain ≠ "" ∧ all_chars domain_char domain = true)
      ∧ (2 ≤ String.length tld ∧ all_chars alpha tld = true)
      ∧ (final = "" ∨ final = String newline "").
Proof.
  unfold validate_email, pattern. rewrite fullmatch_matches.
  assert (∀ c s, matches (Lit c) s ↔ s = String c "") as Hlit.
  { intros c s. unfold Lit. rewrite matches_class_iff. split.
    - intros (d & -> & Hd). apply bool_decide_eq_true_1 in Hd. now subst.
    - intros ->. exists c. split; [reflexivity|now apply bool_decide_eq_true_2]. }
  assert (∀ s, matches (Opt (Lit newline)) s
               ↔ s = "" ∨ s = String newline "") as Hopt.
  { intros s. unfold Opt. split.
    - inversion 1 as [| | |? ? ? H'|? ? ? H'| |]; subst;
        [inversion H'; tauto|right; now apply Hlit].
    - intros [-> | ->]; [apply matches_alt_l; constructor|].
      apply matches_alt_r. now apply Hlit. }
  split.
  - intros (local & s1 & -> & Hlocal%matches_plus_class
            & (at_ & s2 & -> & ->%Hlit
            & (domain & s3 & -> & Hdomain%matches_plus_class
            & (dot & s4 & -> & ->%Hlit
            & (tld & final & -> & Htld%matches_atleast2_class
            & Hfinal%Hopt)%matches_cat_iff)%matches_cat_iff)%matches_cat_iff)
            %matches_cat_iff)%matches_cat_iff.
    exists local, domain, tld, final. tauto.
  - intros (local & domain & tld & final & -> & Hlocal & Hdomain & Htld
            & Hfinal).
    apply matches_cat_iff. exists local, ("@" +:+ domain +:+ "." +:+ tld +:+ final).
    split; [reflexivity|]. split; [now apply matches_plus_class|].
    apply matches_cat_iff. exists "@", (domain +:+ "." +:+ tld +:+ final).
    split; [reflexivity|]. split; [now apply Hlit|].
    apply matches_cat_iff. exists domain, ("." +:+ tld +:+ final).
    split; [reflexivity|]. split; [now apply matches_plus_class|].
    apply matches_cat_iff. exists ".", (tld +:+ final).
    split; [reflexivity|]. split; [now apply Hlit|].
    apply matches_cat_iff. exists tld, final.
    split; [reflexivity|]. split; [now apply matches_atleast2_class|].
    now apply Hopt.
Qed.

(** [check_arguments] raises a [ValueError] on each of the four faults. *)
Lemma check_arguments_rejects from_email to_emails subject plain html :
  validate_email from_email = false
  ∨ to_emails = []
  ∨ (∃ email, email ∈ to_emails ∧ validate_email email = false)
  ∨ strip subject = "" →
  ∃ text, check_arguments from_email to_emails subject plain html
          = Raise (ValueError text).
Proof.
  intros H. unfold check_arguments.
  destruct (validate_email from_email) eqn:Hfrom; [|simpl; eauto].
  destruct H as [H|H]; [discriminate|].
  destruct (bool_decide (to_emails = [])) eqn:Hto; [simpl; eauto|].
  apply bool_decide_eq_false_1 in Hto.
  destruct H as [H|H]; [contradiction|].
  destruct (List.find (λ email, negb (validate_email email)) to_emails)
    as [bad|] eqn:Hfind; [simpl; eauto|].
  destruct H as [(email & Hin & Hbad)|H].
  - apply list_elem_of_In in Hin.
    apply (List.find_none _ _ Hfind) in Hin. simpl in Hin.
    rewrite Hbad in Hin. discriminate.
  - simpl. rewrite H. simpl. eauto.
Qed.

Lemma accepted_codes_spec code :
  code ∈ accepted_codes ↔ (code = 200 ∨ code = 201 ∨ code = 202)%Z.
Proof.
  unfold accepted_codes. rewrite !elem_of_cons, elem_of_nil. tauto.
Qed.

(** The handler turns every exception of the [try] into the error
    dictionary. *)
Lemma send_email_handles sg from_email to_emails subject plain html name e sent :
  send_email_try sg from_email to_emails subject plain html name
    = (Raise e, sent) →
  send_email sg from_email to_emails subject plain html name
    = (error_result e, sent).
Proof. unfold send_email. now intros ->. Qed.

(** C9. If the sender address is invalid, or there is no recipient, or a
    recipient address is invalid, or the subject is empty once stripped,
    [send_email] answers with a failure made locally (success [False], an
    error text, no status code) and hands nothing to the gateway. *)
Theorem send_email_validates_before_gateway
    sg from_email to_emails subject plain html name :
  validate_email from_email = false
  ∨ to_emails = []
  ∨ (∃ email, email ∈ to_emails ∧ validate_email email = false)
  ∨ strip subject = "" →
  let '(res, sent) :=
    send_email sg from_email to_emails subject plain html name in
  success res = false ∧ sent = [] ∧ status_code res = None
  ∧ ∃ text, res = error_result (ValueError text).
Proof.
  intros H.
  destruct (check_arguments_rejects _ _ _ plain html H) as [text Hc].
  unfold send_email, send_email_try. rewrite Hc. simpl. eauto.
Qed.

(** An invalid sender, a valid recipient, and a gateway that would accept
    anything. *)
Lemma send_email_validates_before_gateway_witness :
  validate_email "not-an-address" = false
  ∧ let '(res, sent) :=
      send_email (λ _, Response 202 "" []) "not-an-address" ["a@x.com"]
        "Hello" "text" "" "" in
    success res = false ∧ sent = [] ∧ status_code res = None
    ∧ ∃ text, res = error_result (ValueError text).
Proof.
  split; [reflexivity|].
  apply send_email_validates_before_gateway. left. reflexivity.
Defined.

(** C10. [send_email] always returns a dictionary: an exception of the
    [try], one raised by the gateway included, comes back as success [False]
    with the exception's text under [error]. It returns success [True]
    exactly when the arguments pass the checks and the provider responds with
    status code 200, 201 or 202; with any other status code it returns
    success [False] and that code. *)
Theorem send_email_never_raises_and_success_iff
    sg from_email to_emails subject plain html name :
  let try_ := send_email_try sg from_email to_emails subject plain html name in
  let res := (send_email sg from_email to_emails subject plain html name).1 in
  let m := build_message from_email to_emails subject plain html name in
  (∀ e, try_.1 = Raise e →
        success res = false ∧ error res = Some (str_of_exn e))
  ∧ (∀ e, check_arguments from_email to_emails subject plain html = Ok tt →
          sg m = SendRaises e →
          success res = false ∧ error res = Some (str_of_exn e))
  ∧ (success res = true ↔
       check_arguments from_email to_emails subject plain html = Ok tt
       ∧ ∃ code body headers,
           sg m = Response code body headers
           ∧ (code = 200 ∨ code = 201 ∨ code = 202)%Z)
  ∧ (∀ code body headers,
       check_arguments from_email to_emails subject plain html = Ok tt →
       sg m = Response code body headers →
       code ≠ 200%Z → code ≠ 201%Z → code ≠ 202%Z →
       success res = false ∧ status_code res = Some code).
Proof.
  cbv zeta. unfold send_email, send_email_try.
  destruct (check_arguments _ _ _ _ _) as [[]|e0] eqn:Hc; simpl.
  - destruct (sg _) as [code body headers|e1] eqn:Hsg; simpl.
    + pose proof (accepted_codes_spec code) as Hspec.
      destruct (bool_decide (code ∈ accepted_codes)) eqn:Hcode; simpl.
      * apply bool_decide_eq_true_1 in Hcode. apply Hspec in Hcode.
        split; [discriminate|]. split; [discriminate|]. split.
        -- split; [|reflexivity]. intros _. split; [reflexivity|].
           exists code, body, headers. split; [reflexivity|assumption].
        -- intros c b h _ [= -> -> ->] N0 N1 N2.
           destruct Hcode as [?|[?|?]]; contradiction.
      * apply bool_decide_eq_false_1 in Hcode.
        split; [discriminate|]. split; [discriminate|]. split.
        -- split; [discriminate|].
           intros [_ (c & b & h & [= -> -> ->] & Hc')].
           exfalso. apply Hcode, Hspec, Hc'.
        -- intros c b h _ [= -> -> ->] _ _ _. split; reflexivity.
    + split; [intros e [= ->]; split; reflexivity|].
      split; [intros e _ [= ->]; split; reflexivity|].
      split; [|discriminate].
      split; [discriminate|]. intros [_ (c & b & h & [=] & _)].
  - split; [intros e [= ->]; split; reflexivity|].
    split; [discriminate|].
    split; [|discriminate].
    split; [discriminate|]. intros [[=] _].
Qed.

End EmailerFacts.
(** ** [load_email_list] *)

Section SourceFacts.
Import PyStr Source.

Lemma first_seen_elem_of e emails : e ∈ first_seen emails ↔ e ∈ emails.
Proof.
  induction emails as [|x l IH]; simpl; [reflexivity|].
  rewrite !elem_of_cons, list_elem_of_filter, IH.
  destruct (decide (e = x)); tauto.
Qed.

Lemma first_seen_NoDup emails : NoDup (first_seen emails).
Proof.
  induction emails as [|x l IH]; simpl; [constructor|].
  apply NoDup_cons. split.
  - rewrite list_elem_of_filter. tauto.
  - now apply NoDup_filter.
Qed.

(** The dictionary's insertions, started from the keys [keys]. *)
Lemma fromkeys_from keys emails :
  foldl (λ keys k, if bool_decide (k ∈ keys) then keys else keys ++ [k])
    keys emails
  = keys ++ filter (λ e, e ∉ keys) (first_seen emails).
Proof.
  revert keys. induction emails as [|x l IH]; intros keys; simpl.
  - now rewrite filter_nil, app_nil_r.
  - rewrite IH. rewrite filter_cons, list_filter_filter.
    destruct (bool_decide (x ∈ keys)) eqn:Hx.
    + apply bool_decide_eq_true_1 in Hx.
      rewrite decide_False by tauto.
      f_equal. apply list_filter_iff. intros e. split; [|tauto].
      intros He. split; [assumption|]. intros ->. contradiction.
    + apply bool_decide_eq_false_1 in Hx.
      rewrite decide_True by assumption.
      rewrite <- app_assoc. simpl. do 2 f_equal.
      apply list_filter_iff. intros e.
      rewrite elem_of_app, list_elem_of_singleton. tauto.
Qed.

(** [dict.fromkeys] keeps the first-seen order. *)
Lemma fromkeys_first_seen emails : fromkeys emails = first_seen emails.
Proof.
  unfold fromkeys. rewrite fromkeys_from. simpl.
  induction (first_seen emails) as [|x l IH]; [reflexivity|].
  rewrite filter_cons_True by apply not_elem_of_nil. now rewrite IH.
Qed.

Lemma filter_none {A} (P : A → Prop) `{∀ x, Decision (P x)} (l : list A) :
  (∀ x, x ∈ l → ¬ P x) → filter P l = [].
Proof.
  induction l as [|x l IH]; intros Hl; [reflexivity|].
  rewrite filter_cons_False by (apply Hl; left).
  apply IH. intros y Hy. apply Hl. now right.
Qed.

(** Reading the same addresses again adds nothing. *)
Lemma first_seen_app_again emails again :
  again ⊆ emails → first_seen (emails ++ again) = first_seen emails.
Proof.
  intros Hsub. rewrite <- !fromkeys_first_seen. unfold fromkeys.
  rewrite foldl_app, fromkeys_from.
  fold (fromkeys emails). rewrite fromkeys_first_seen.
  rewrite filter_none; [apply app_nil_r|].
  intros x Hx Hnot. apply Hnot.
  apply first_seen_elem_of, Hsub. exact (proj1 (first_seen_elem_of _ _) Hx).
Qed.

Lemma address_of_cell_normalized cell email :
  address_of_cell cell = Some email → normalized email.
Proof.
  unfold address_of_cell, normalized.
  destruct (truthy (strip cell)) eqn:Ht; simpl; [|discriminate].
  destruct (_ && _); [|discriminate].
  destruct (_ =? _)%nat; [|discriminate].
  intros [= <-]. split; [|apply lower_idemp].
  apply truthy_true. now rewrite truthy_lower.
Qed.

Lemma read_row_normalized column r emails emails' :
  Forall normalized emails →
  read_row column r emails = Ok emails' → Forall normalized emails'.
Proof.
  unfold read_row. intros Hall.
  destruct (default _ _) as [cell|]; [|discriminate].
  destruct (address_of_cell cell) as [email|] eqn:Hcell; intros [= <-];
    [|assumption].
  apply Forall_app. split; [assumption|].
  apply Forall_singleton. eauto using address_of_cell_normalized.
Qed.

Lemma read_rows_normalized column rows ending emails :
  Forall normalized emails →
  Forall normalized (read_rows column rows ending emails).1.
Proof.
  revert emails. induction rows as [|r rows IH]; intros emails Hall; simpl.
  - now destruct ending.
  - destruct (read_row column r emails) as [emails'|e] eqn:Hrow; [|assumption].
    eauto using read_row_normalized.
Qed.

Lemma try_encoding_normalized r emails :
  Forall normalized emails → Forall normalized (try_encoding r emails).1.
Proof.
  intros Hall. unfold try_encoding.
  destruct r as [e|[|f fs] rows ending]; try assumption.
  destruct (not_column _); [assumption|].
  pose proof (read_rows_normalized
                (default "" (find_email_column (f :: fs))) rows ending
                emails Hall) as H.
  now destruct (read_rows _ _ _ _) as [emails' [e|]].
Qed.

Lemma collect_normalized read : Forall normalized (collect read).
Proof.
  unfold collect. generalize encodings_to_try.
  assert (Forall normalized []) as Hnil by constructor.
  revert Hnil. generalize (@nil string).
  intros emails Hall encs. revert emails Hall.
  induction encs as [|enc encs IH]; intros emails Hall; simpl; [assumption|].
  apply IH, try_encoding_normalized, Hall.
Qed.

(** The list is the first-seen deduplication of what the loop collected. *)
Lemma load_email_list_first_seen csv :
  load_email_list csv
  = first_seen (match csv with Some read => collect read | None => [] end).
Proof.
  destruct csv as [read|]; [|reflexivity]. unfold load_email_list.
  case_bool_decide as Hnil; [now rewrite Hnil|apply fromkeys_first_seen].
Qed.

Lemma load_email_list_NoDup csv : NoDup (load_email_list csv).
Proof. rewrite load_email_list_first_seen. apply first_seen_NoDup. Qed.

Lemma load_email_list_normalized csv email :
  email ∈ load_email_list csv → normalized email.
Proof.
  rewrite load_email_list_first_seen, first_seen_elem_of.
  destruct csv as [read|]; [|now intros ?%elem_of_nil].
  revert email. apply Forall_forall, collect_normalized.
Qed.

Lemma find_email_column_truthy fieldnames column :
  find_email_column fieldnames = Some column →
  not_column (Some column) = false.
Proof.
  unfold find_email_column.
  destruct (not_column (List.find _ fieldnames)) eqn:Hnot.
  - intros Hfind. apply List.find_some in Hfind as [_ Hin].
    destruct column; [discriminate|reflexivity].
  - now intros <-.
Qed.

Lemma read_rows_one_column column cells emails :
  read_rows column (one_column column cells) EndOfFile emails
  = (emails ++ addresses_of cells, None).
Proof.
  revert emails. induction cells as [|cell cells IH]; intros emails; simpl.
  - now rewrite app_nil_r.
  - unfold read_row. rewrite lookup_singleton_eq. simpl.
    fold (one_column column cells). rewrite IH. unfold addresses_of. simpl.
    destruct (address_of_cell cell); [|reflexivity].
    now rewrite <- app_assoc.
Qed.

(** A file of one recognised column, read alike by every encoding, gives
    the first-seen deduplication of its addresses. *)
Lemma load_email_list_one_column column cells :
  find_email_column [column] = Some column →
  load_email_list (ascii_file [column] (one_column column cells))
  = first_seen (addresses_of cells).
Proof.
  intros Hcol. rewrite load_email_list_first_seen. unfold ascii_file, collect.
  assert (∀ emails,
    try_encoding (Opened [column] (one_column column cells) EndOfFile) emails
    = (emails ++ addresses_of cells, Parsed)) as Htry.
  { intros emails. unfold try_encoding. rewrite Hcol.
    rewrite (find_email_column_truthy _ _ Hcol). simpl.
    now rewrite read_rows_one_column. }
  unfold encodings_to_try. cbn [foldl]. rewrite !Htry. cbn [fst app].
  rewrite !first_seen_app_again; [reflexivity|..];
    intros e He; rewrite ?elem_of_app; tauto.
Qed.

(** The header [Name], [EMAIL ] with the row [Bob], [ bob@y.org ]. *)
Example load_email_list_header_case_and_space :
  load_email_list
    (ascii_file ["Name"; "EMAIL "]
       [ {[ "Name" := Some "Bob"; "EMAIL " := Some " bob@y.org " ]} ])
  = ["bob@y.org"].
Proof. vm_compute. reflexivity. Qed.

(** C6. On the file [accented_file] the first encoding, [utf-8], parses the
    file to its end, and the list still holds an address that only
    [iso-8859-1] and [cp1252] produce: the loop reads the file under every
    encoding and keeps what each of them gives. Using the first encoding
    that parses would give one address. *)
Theorem load_email_list_reads_every_encoding :
  (∃ read, accented_file = Some read
     ∧ try_encoding (read utf_8) []
       = ([String (ascii_of_nat 233) "@x.com"], Parsed))
  ∧ load_first_parsed accented_file = [String (ascii_of_nat 233) "@x.com"]
  ∧ load_email_list accented_file
    = [String (ascii_of_nat 233) "@x.com";
       String (ascii_of_nat 227) (String (ascii_of_nat 169) "@x.com")].
Proof.
  split; [eexists; split; [reflexivity|vm_compute; reflexivity]|].
  split; vm_compute; reflexivity.
Qed.

(** When no encoding gets as far as a header with an address column, the
    list is empty. *)
Lemma load_email_list_all_fail read :
  (∀ enc, (∃ e, read enc = OpenRaises e)
          ∨ (∃ rows ending, read enc = Opened [] rows ending)
          ∨ (∃ fieldnames rows ending,
               read enc = Opened fieldnames rows ending
               ∧ find_email_column fieldnames = None)) →
  load_email_list (Some read) = [].
Proof.
  intros Hfail.
  assert (∀ enc emails, (try_encoding (read enc) emails).1 = emails) as Htry.
  { intros enc emails.
    destruct (Hfail enc) as [[e ->]|[(rows & ending & ->)
      |(fieldnames & rows & ending & -> & Hcol)]]; try reflexivity.
    unfold try_encoding. destruct fieldnames; [reflexivity|].
    now rewrite Hcol. }
  unfold load_email_list, collect, encodings_to_try. cbn [foldl].
  rewrite !Htry. reflexivity.
Qed.

End SourceFacts.

(** ** [random.sample] *)

Section RandomFacts.
Import Random.
Context {A : Type}.
Variable rand : nat → nat.

(** One choice: the chosen item and the pool that is left make up the pool. *)
Lemma select_step (pool : list A) j chosen moved :
  pool !! j = Some chosen → last pool = Some moved →
  chosen :: take (length pool - 1) (<[j:=moved]> pool) ≡ₚ pool.
Proof.
  intros Hj Hlast. apply last_Some in Hlast as [init ->].
  rewrite length_app. simpl.
  replace (length init + 1 - 1) with (length init) by lia.
  destruct (decide (j < length init)) as [Hlt|Hge].
  - rewrite insert_app_l by assumption.
    rewrite take_app_length' by now rewrite length_insert.
    rewrite lookup_app_l in Hj by assumption.
    pose proof (take_drop_middle init j chosen Hj) as Hmid.
    rewrite insert_take_drop by assumption.
    set (before := take j init) in *. set (after := drop (S j) init) in *.
    rewrite <- Hmid. clear. solve_Permutation.
  - apply lookup_lt_Some in Hj as Hlen. rewrite length_app in Hlen.
    simpl in Hlen. rewrite take_insert_ge by lia.
    rewrite take_app_length.
    assert (j = length init) as -> by lia.
    rewrite list_lookup_middle in Hj by reflexivity.
    injection Hj as <-. apply Permutation_cons_append.
Qed.

(** [k] choices from a pool of at least [k] items: [k] items that, with the
    items left in the pool, make up the pool. *)
Lemma select_perm k : ∀ i (pool : list A),
  k ≤ length pool →
  length (select rand i pool k) = k
  ∧ ∃ rest, select rand i pool k ++ rest ≡ₚ pool.
Proof.
  induction k as [|k IH]; intros i pool Hk; simpl.
  - split; [reflexivity|]. now exists pool.
  - assert (0 < length pool) as Hpos by lia.
    assert (rand i mod length pool < length pool) as Hj
      by (apply Nat.mod_upper_bound; lia).
    destruct (lookup_lt_is_Some_2 pool _ Hj) as [chosen Hchosen].
    destruct (last pool) as [moved|] eqn:Hlast;
      [|apply last_None in Hlast; subst; simpl in Hpos; lia].
    rewrite Hchosen.
    pose proof (select_step pool _ chosen moved Hchosen Hlast) as Hstep.
    destruct (IH (S i) (take (length pool - 1)
                          (<[rand i mod length pool:=moved]> pool)))
      as [Hlen [rest Hrest]].
    { rewrite length_take, length_insert. lia. }
    split; [simpl; now rewrite Hlen|].
    exists rest. simpl. now rewrite Hrest.
Qed.

Lemma select_subseteq k i (pool : list A) :
  k ≤ length pool → select rand i pool k ⊆ pool.
Proof.
  intros Hk x Hx. destruct (select_perm k i pool Hk) as [_ [rest Hrest]].
  rewrite <- Hrest. apply elem_of_app. now left.
Qed.

Lemma select_NoDup k i (pool : list A) :
  k ≤ length pool → NoDup pool → NoDup (select rand i pool k).
Proof.
  intros Hk Hnd. destruct (select_perm k i pool Hk) as [_ [rest Hrest]].
  rewrite <- Hrest in Hnd. now apply NoDup_app in Hnd as [? _].
Qed.

Lemma select_all i (pool : list A) :
  select rand i pool (length pool) ≡ₚ pool.
Proof.
  destruct (select_perm (length pool) i pool (le_n _)) as [Hlen [rest Hrest]].
  apply Permutation_length in Hrest as Hl. rewrite length_app, Hlen in Hl.
  destruct rest; [now rewrite app_nil_r in Hrest|simpl in Hl; lia].
Qed.

(** [random.sample] succeeds exactly on a count between 0 and the size of
    the population. *)
Lemma sample_Ok (population : list A) (k : Z) :
  (0 ≤ k ≤ Z.of_nat (length population))%Z →
  sample rand population k = Ok (select rand 0 population (Z.to_nat k)).
Proof. intros Hk. unfold sample. now rewrite bool_decide_eq_true_2. Qed.

Lemma sample_inv (population : list A) (k : Z) batch :
  sample rand population k = Ok batch →
  (0 ≤ k ≤ Z.of_nat (length population))%Z
  ∧ batch = select rand 0 population (Z.to_nat k).
Proof.
  unfold sample. case_bool_decide; [|discriminate]. now intros [= <-].
Qed.

End RandomFacts.

(** ** The progress ledger *)

Section LedgerFacts.
Import PyStr Source Random Ledger.

(** The set of line 276 holds the lower-cased non-empty addresses of the
    ledger's items, and nothing else. *)
Lemma elem_of_sent_email_addresses pd a :
  a ∈ sent_email_addresses pd
  ↔ ∃ it, it ∈ get_sent_emails pd ∧ address it ≠ "" ∧ a = lower (address it).
Proof.
  unfold sent_email_addresses.
  assert (∀ items (sent : gset string),
    a ∈ foldl (λ sent it,
                 let email := address it in
                 if truthy email then sent ∪ {[ lower email ]} else sent)
          sent items
    ↔ a ∈ sent
      ∨ ∃ it, it ∈ items ∧ address it ≠ "" ∧ a = lower (address it)) as H.
  { induction items as [|it items IH]; intros sent; simpl.
    - split; [tauto|]. intros [?|(it & Hin & _)]; [assumption|].
      now apply elem_of_nil in Hin.
    - rewrite IH. clear IH. cbv zeta.
      destruct (truthy (address it)) eqn:Ht.
      + apply truthy_true in Ht. rewrite elem_of_union, elem_of_singleton.
        split.
        * intros [[? | ->] | (it' & Hin & ?)]; [tauto|right|right].
          -- exists it. split; [left|tauto].
          -- exists it'. split; [now right|assumption].
        * intros [?|(it' & Hin & Hne & ->)]; [tauto|].
          apply elem_of_cons in Hin as [-> | Hin]; [tauto|]. right. eauto.
      + apply truthy_false in Ht. split.
        * intros [?|(it' & Hin & ?)]; [tauto|right].
          exists it'. split; [now right|assumption].
        * intros [?|(it' & Hin & Hne & ->)]; [tauto|].
          apply elem_of_cons in Hin as [-> | Hin]; [contradiction|]. right. eauto. }
  rewrite H. split; [|tauto]. intros [Hin|?]; [|assumption].
  now apply elem_of_empty in Hin.
Qed.

(** An address of the list that is unsent differs, whatever the letter
    case, from the address of every item of the ledger. *)
Lemma unsent_emails_not_attempted csv pd email it :
  email ∈ unsent_emails (load_email_list csv) pd →
  it ∈ get_sent_emails pd →
  lower (address it) ≠ lower email.
Proof.
  unfold unsent_emails. rewrite list_elem_of_filter.
  intros [Hnot Hin] Hit Heq.
  apply load_email_list_normalized in Hin as [Hne Hlow].
  destruct (decide (address it = "")) as [Hempty|Hfull].
  - rewrite Hempty in Heq. simpl in Heq. rewrite Hlow in Heq. congruence.
  - apply Hnot, elem_of_sent_email_addresses. exists it. eauto.
Qed.

Lemma unsent_emails_NoDup csv pd :
  NoDup (unsent_emails (load_email_list csv) pd).
Proof. apply NoDup_filter, load_email_list_NoDup. Qed.

(** What [get_unsent_emails] returns, when it returns. *)
Lemma get_unsent_emails_inv rand csv pd limit batch :
  get_unsent_emails rand csv pd limit = Ok batch →
  let unsent := unsent_emails (load_email_list csv) pd in
  batch ⊆ unsent ∧ NoDup batch.
Proof.
  unfold get_unsent_emails. cbv zeta. case_bool_decide as Hnil.
  - intros [= <-]. split; [apply list_subseteq_nil|constructor].
  - intros [Hk ->]%sample_inv.
    split; [apply select_subseteq|apply select_NoDup]; try lia.
    apply unsent_emails_NoDup.
Qed.

(** C1. Whatever the recipient file, the ledger, the limit and the random
    draws, an address of the batch that [get_unsent_emails] returns differs,
    letter case set aside, from the address of every item of [sent_emails],
    whether that attempt succeeded or failed. *)
Theorem get_unsent_emails_disjoint_from_attempts
    rand csv pd limit batch email it :
  get_unsent_emails rand csv pd limit = Ok batch →
  email ∈ batch →
  it ∈ get_sent_emails pd →
  lower (address it) ≠ lower email.
Proof.
  intros Hbatch Hin Hit.
  apply get_unsent_emails_inv in Hbatch as [Hsub _].
  eapply unsent_emails_not_attempted; eauto.
Qed.

(** A ledger with a failed attempt for [A@X.com], a file with [a@x.com] and
    [b@x.com]: the batch is [b@x.com]. *)
Lemma get_unsent_emails_disjoint_from_attempts_witness :
  let csv := ascii_file ["email"] (one_column "email" ["a@x.com"; "b@x.com"]) in
  let it :=
    Dict {| email := Some "A@X.com"; timestamp := "t1";
            success := Some false; error := "boom" |} in
  let pd := mark_email_sent "t1" "A@X.com" false "boom" fresh in
  get_unsent_emails (λ _, 0) csv pd 50 = Ok ["b@x.com"]
  ∧ lower (address it) ≠ lower "b@x.com".
Proof.
  cbv zeta. split; [vm_compute; reflexivity|].
  apply (get_unsent_emails_disjoint_from_attempts (λ _, 0)
           (ascii_file ["email"] (one_column "email" ["a@x.com"; "b@x.com"]))
           (mark_email_sent "t1" "A@X.com" false "boom" fresh) 50
           ["b@x.com"] "b@x.com").
  - vm_compute. reflexivity.
  - left.
  - simpl. left.
Defined.

(** C4, as amended. For a limit that is not negative, [get_unsent_emails]
    returns a batch of exactly min(limit, number of unsent addresses)
    addresses, each of them unsent, none of them twice; when the unsent
    addresses are at most [limit] many, the batch holds all of them. *)
Theorem get_unsent_emails_batch rand csv pd limit :
  (0 ≤ limit)%Z →
  let unsent := unsent_emails (load_email_list csv) pd in
  ∃ batch,
    get_unsent_emails rand csv pd limit = Ok batch
    ∧ Z.of_nat (length batch) = Z.min limit (Z.of_nat (length unsent))
    ∧ batch ⊆ unsent
    ∧ NoDup batch
    ∧ ((Z.of_nat (length unsent) ≤ limit)%Z → batch ≡ₚ unsent).
Proof.
  intros Hlimit unsent. unfold get_unsent_emails. fold unsent.
  case_bool_decide as Hnil.
  - exists []. rewrite Hnil. simpl.
    split; [reflexivity|]. split; [lia|].
    split; [reflexivity|]. split; [constructor|reflexivity].
  - set (k := Z.min limit (Z.of_nat (length unsent))).
    assert (0 ≤ k ≤ Z.of_nat (length unsent))%Z as Hk by (unfold k; lia).
    exists (select rand 0 unsent (Z.to_nat k)).
    split; [now apply sample_Ok|].
    assert (Z.to_nat k ≤ length unsent) as Hle by lia.
    destruct (select_perm rand (Z.to_nat k) 0 unsent Hle) as [Hlen _].
    split; [rewrite Hlen; lia|].
    split; [now apply select_subseteq|].
    split; [apply select_NoDup; [assumption|apply unsent_emails_NoDup]|].
    intros Hall.
    replace (Z.to_nat k) with (length unsent) by (unfold k; lia).
    apply select_all.
Qed.

(** Three unsent addresses and a limit of two. *)
Lemma get_unsent_emails_batch_witness :
  (0 ≤ 2)%Z
  ∧ let unsent :=
      unsent_emails
        (load_email_list
           (ascii_file ["email"]
              (one_column "email" ["a@x.com"; "b@x.com"; "c@x.com"])))
        fresh in
    ∃ batch,
      get_unsent_emails (λ n, n + 1)
        (ascii_file ["email"]
           (one_column "email" ["a@x.com"; "b@x.com"; "c@x.com"]))
        fresh 2 = Ok batch
      ∧ Z.of_nat (length batch) = Z.min 2 (Z.of_nat (length unsent))
      ∧ batch ⊆ unsent
      ∧ NoDup batch
      ∧ ((Z.of_nat (length unsent) ≤ 2)%Z → batch ≡ₚ unsent).
Proof.
  split; [lia|]. apply get_unsent_emails_batch. lia.
Defined.

(** C4, as stated, fails for a negative limit: with one unsent address and
    the limit -1, [random.sample] is asked for -1 items and raises, so no
    batch is returned. *)
Lemma get_unsent_emails_negative_limit :
  unsent_emails
    (load_email_list (ascii_file ["email"] (one_column "email" ["a@x.com"])))
    fresh
  = ["a@x.com"]
  ∧ get_unsent_emails (λ _, 0)
      (ascii_file ["email"] (one_column "email" ["a@x.com"])) fresh (-1)
    = Raise (ValueError "Sample larger than population or is negative").
Proof. split; vm_compute; reflexivity. Qed.

(** What [mark_email_sent] does to [sent_emails]: the record is appended
    when no item has exactly the given address. *)
Lemma mark_email_sent_sent_emails now email ok msg pd :
  get_sent_emails (mark_email_sent now email ok msg pd)
  = if bool_decide (email ∈ address <$> get_sent_emails pd)
    then get_sent_emails pd
    else get_sent_emails pd
         ++ [Dict {| Ledger.email := Some email; timestamp := now;
                     success := Some ok; error := msg |}].
Proof. reflexivity. Qed.

(** Marking the very same address again adds nothing, whatever the
    outcome given. *)
Lemma mark_email_sent_twice now1 now2 email ok1 ok2 msg1 msg2 pd :
  get_sent_emails
    (mark_email_sent now2 email ok2 msg2
       (mark_email_sent now1 email ok1 msg1 pd))
  = get_sent_emails (mark_email_sent now1 email ok1 msg1 pd).
Proof.
  rewrite (mark_email_sent_sent_emails now2).
  rewrite bool_decide_eq_true_2; [reflexivity|].
  rewrite mark_email_sent_sent_emails. case_bool_decide as Hin; [assumption|].
  rewrite fmap_app. apply elem_of_app. right. simpl. left.
Qed.

(** C2. [mark_email_sent] compares addresses as they are written: after
    [a@x.com] is recorded, recording [A@X.com], which is the same address
    letter case set aside, appends a second record. *)
Theorem mark_email_sent_compares_exactly :
  let pd1 := mark_email_sent "t1" "a@x.com" true "" fresh in
  let pd2 := mark_email_sent "t2" "A@X.com" false "boom" pd1 in
  lower "A@X.com" = lower "a@x.com"
  ∧ address <$> get_sent_emails pd1 = ["a@x.com"]
  ∧ address <$> get_sent_emails pd2 = ["a@x.com"; "A@X.com"]
  ∧ stat total_sent pd2 = 2%Z.
Proof. cbv zeta. repeat split. Qed.

(** Every item that [mark_email_sent] has written is a dictionary with a
    [success] value. *)
Lemma reachable_items pd :
  reachable pd →
  Forall (λ it, ∃ e b, it = Dict e ∧ success e = Some b) (get_sent_emails pd).
Proof.
  induction 1 as [|pd now email ok msg Hr IH]; [constructor|].
  rewrite mark_email_sent_sent_emails. case_bool_decide; [assumption|].
  apply Forall_app. split; [assumption|].
  apply Forall_singleton. eauto.
Qed.

(** Each such item counts as successful or as failed, never as both. *)
Lemma count_successful_failed items :
  Forall (λ it, ∃ e b, it = Dict e ∧ success e = Some b) items →
  (count is_successful items + count is_failed items
   = Z.of_nat (length items))%Z.
Proof.
  unfold count. induction 1 as [|it items (e & b & -> & Hb) _ IH];
    [reflexivity|].
  rewrite !filter_cons. simpl. rewrite Hb. simpl.
  destruct b; simpl in *; lia.
Qed.

(** C3. In every ledger that [mark_email_sent] builds from the fresh one,
    [total_sent] is the number of items of [sent_emails], and [successful]
    plus [failed] is [total_sent]; a counter whose key the fresh ledger does
    not have yet is read as 0, as [get_campaign_stats] reads it, and after
    the first call all three keys are there. *)
Theorem reachable_counters pd :
  reachable pd →
  stat total_sent pd = Z.of_nat (length (get_sent_emails pd))
  ∧ (stat successful pd + stat failed pd = stat total_sent pd)%Z
  ∧ (pd = fresh
     ∨ ∃ st, campaign_stats pd = Some st
         ∧ total_sent st = Some (Z.of_nat (length (get_sent_emails pd)))
         ∧ successful st = Some (count is_successful (get_sent_emails pd))
         ∧ failed st = Some (count is_failed (get_sent_emails pd))).
Proof.
  intros Hr. pose proof (reachable_items pd Hr) as Hitems.
  destruct Hr as [|pd now email ok msg Hr]; [repeat split; now left|].
  split; [reflexivity|].
  split; [exact (count_successful_failed _ Hitems)|].
  right. eexists. repeat split.
Qed.

(** Two recipients, one sent and one failed. *)
Lemma reachable_counters_witness :
  let pd :=
    mark_email_sent "t2" "b@x.com" false "boom"
      (mark_email_sent "t1" "a@x.com" true "" fresh) in
  reachable pd
  ∧ stat total_sent pd = Z.of_nat (length (get_sent_emails pd))
  ∧ (stat successful pd + stat failed pd = stat total_sent pd)%Z
  ∧ (pd = fresh
     ∨ ∃ st, campaign_stats pd = Some st
         ∧ total_sent st = Some (Z.of_nat (length (get_sent_emails pd)))
         ∧ successful st = Some (count is_successful (get_sent_emails pd))
         ∧ failed st = Some (count is_failed (get_sent_emails pd))).
Proof.
  cbv zeta.
  assert (reachable
            (mark_email_sent "t2" "b@x.com" false "boom"
               (mark_email_sent "t1" "a@x.com" true "" fresh))) as Hr
    by (do 2 constructor; constructor).
  split; [exact Hr|]. exact (reachable_counters _ Hr).
Defined.

End LedgerFacts.

(** ** [run_email_campaign] *)

Section CampaignFacts.
Import PyStr Source Emailer Ledger Campaign.





(** A run that sends: two recipients, one already recorded. The provider is
    asked once, the new attempt is recorded and written to the file. *)
Example run_email_campaign_sends_the_rest :
  let run :=
    run_email_campaign "sender@x.com" "Sender" "key"
      (ascii_file ["email"] (one_column "email" ["a@x.com"; "c@x.com"]))
      None (Some (Ok ["SUBJECT: Hello"; "text"]))
      (λ _ _, Response 202 "" []) (λ _, "t2") (λ _, true) (λ _, 0) 50
      (Object (mark_email_sent "t1" "a@x.com" true "" fresh)) in
  run.2 = None
  ∧ to_list <$> gateway_calls (trace run.1) = [["c@x.com"]]
  ∧ address <$> get_sent_emails (progress_data run.1) = ["a@x.com"; "c@x.com"]
  ∧ progress_file run.1 = Object (progress_data run.1)
  ∧ stat successful (progress_data run.1) = 2%Z.
Proof. cbv zeta. repeat split; vm_compute; reflexivity. Qed.

End CampaignFacts.

(** * Further properties of the code *)

(** ** [validate_email] and [send_email] *)

Section EmailerMore.
Import PyStr Regex Emailer.

(** X1. [validate_email] accepts exactly the strings made of a non-empty
    local part of letters, digits and [._%+-], an [@], a non-empty domain of
    letters, digits, dots and hyphens, a dot, and at least two letters,
    possibly followed by one final newline. *)
Theorem validate_email_accepts_exactly email :
  validate_email email = true
  ↔ ∃ local domain tld final,
      email = local +:+ "@" +:+ domain +:+ "." +:+ tld +:+ final
      ∧ (local ≠ "" ∧ all_chars local_char local = true)
      ∧ (domain ≠ "" ∧ all_chars domain_char domain = true)
      ∧ (2 ≤ String.length tld ∧ all_chars alpha tld = true)
      ∧ (final = "" ∨ final = String newline "").
Proof. exact (validate_email_shape email). Qed.

(** The checks of lines 83-93 pass exactly when the sender is valid, there
    is a recipient, every recipient is valid, the stripped subject is not
    empty and one of the two contents is not empty. *)
Lemma check_arguments_Ok from_email to_emails subject plain html :
  check_arguments from_email to_emails subject plain html = Ok tt
  ↔ validate_email from_email = true
    ∧ to_emails ≠ []
    ∧ Forall (λ email, validate_email email = true) to_emails
    ∧ strip subject ≠ ""
    ∧ (plain ≠ "" ∨ html ≠ "").
Proof.
  unfold check_arguments.
  destruct (validate_email from_email); simpl;
    [|split; [discriminate|intros [[=] _]]].
  destruct (bool_decide (to_emails = [])) eqn:Hto; simpl.
  { apply bool_decide_eq_true_1 in Hto. split; [discriminate|tauto]. }
  apply bool_decide_eq_false_1 in Hto.
  destruct (List.find (λ email, negb (validate_email email)) to_emails)
    as [bad|] eqn:Hfind; simpl.
  { apply List.find_some in Hfind as [Hin Hbad].
    apply list_elem_of_In in Hin.
    split; [discriminate|]. intros (_ & _ & Hall & _).
    rewrite Forall_forall in Hall. apply Hall in Hin.
    rewrite Hin in Hbad. discriminate. }
  assert (Forall (λ email, validate_email email = true) to_emails) as Hall.
  { apply Forall_forall. intros email Hin. apply list_elem_of_In in Hin.
    apply (List.find_none _ _ Hfind) in Hin.
    now destruct (validate_email email). }
  destruct (truthy (strip subject)) eqn:Hsub; simpl.
  - apply truthy_true in Hsub.
    destruct (truthy plain) eqn:Hp; simpl.
    + apply truthy_true in Hp. tauto.
    + apply truthy_false in Hp.
      destruct (truthy html) eqn:Hh; simpl.
      * apply truthy_true in Hh. tauto.
      * apply truthy_false in Hh. split; [discriminate|]. tauto.
  - apply truthy_false in Hsub. split; [discriminate|]. tauto.
Qed.



End EmailerMore.

(** ** [strip], [lower] and [split] *)

Section PyStrMore.
Import PyStr.

Lemma lstrip_starts s :
  match lstrip s with String c _ => is_space c = false | EmptyString => True end.
Proof.
  induction s as [|c s IH]; simpl; [exact I|].
  destruct (is_space c) eqn:Hc; [assumption|exact Hc].
Qed.

Lemma lstrip_id s :
  match s with String c _ => is_space c = false | EmptyString => True end →
  lstrip s = s.
Proof. destruct s as [|c s]; simpl; [reflexivity|]. now intros ->. Qed.

Lemma rstrip_starts s :
  match s with String c _ => is_space c = false | EmptyString => True end →
  match rstrip s with String c _ => is_space c = false | EmptyString => True end.
Proof.
  destruct s as [|c s]; simpl; [exact id|]. intros Hc.
  destruct (rstrip s); [now rewrite Hc|exact Hc].
Qed.

Lemma rstrip_idemp s : rstrip (rstrip s) = rstrip s.
Proof.
  induction s as [|c s IH]; simpl; [reflexivity|].
  destruct (rstrip s) as [|a r] eqn:E.
  - destruct (is_space c) eqn:Hc; simpl; [reflexivity|now rewrite Hc].
  - change (rstrip (String c (String a r))) with
      (match rstrip (String a r) with
       | EmptyString => if is_space c then EmptyString else String c EmptyString
       | r' => String c r'
       end).
    now rewrite IH.
Qed.

(** Stripping twice is stripping once. *)
Lemma strip_idemp s : strip (strip s) = strip s.
Proof.
  unfold strip. rewrite (lstrip_id (rstrip (lstrip s))).
  - apply rstrip_idemp.
  - apply rstrip_starts, lstrip_starts.
Qed.

Lemma is_space_lower_char c : is_space (lower_char c) = is_space c.
Proof. destruct c as [[] [] [] [] [] [] [] []]; reflexivity. Qed.

Lemma lstrip_lower s : lstrip (lower s) = lower (lstrip s).
Proof.
  induction s as [|c s IH]; simpl; [reflexivity|].
  rewrite is_space_lower_char. now destruct (is_space c).
Qed.

Lemma rstrip_lower s : rstrip (lower s) = lower (rstrip s).
Proof.
  induction s as [|c s IH]; simpl; [reflexivity|].
  rewrite IH, is_space_lower_char.
  destruct (rstrip s); simpl; [now destruct (is_space c)|reflexivity].
Qed.

Lemma strip_lower s : strip (lower s) = lower (strip s).
Proof. unfold strip. now rewrite lstrip_lower, rstrip_lower. Qed.

(** Lower-casing leaves [@] and [.] where they are. *)
Lemma lower_char_at_dot c :
  (lower_char c = "@"%char ↔ c = "@"%char)
  ∧ (lower_char c = "."%char ↔ c = "."%char).
Proof.
  destruct c as [[] [] [] [] [] [] [] []]; split; split; intros H;
    first [reflexivity|discriminate H].
Qed.

Lemma contains_lower c s :
  c = "@"%char ∨ c = "."%char → contains c (lower s) = contains c s.
Proof.
  intros Hc. induction s as [|d s IH]; simpl; [reflexivity|]. rewrite IH.
  destruct (lower_char_at_dot d) as [Hat Hdot].
  destruct (ascii_dec c (lower_char d)) as [E|E],
           (ascii_dec c d) as [E'|E']; try reflexivity; exfalso.
  - apply E'. destruct Hc; subst c; symmetry; [apply Hat|apply Hdot];
      now symmetry.
  - apply E. destruct Hc; subst c; symmetry; [apply Hat|apply Hdot];
      now symmetry.
Qed.

Lemma split_nonempty c s : split c s ≠ [].
Proof.
  destruct s as [|d s]; simpl; [discriminate|].
  destruct (split c s); [discriminate|]. now destruct (ascii_dec c d).
Qed.

Lemma split_length_cons c d s :
  length (split c (String d s))
  = (if ascii_dec c d then 1 else 0) + length (split c s).
Proof.
  simpl. pose proof (split_nonempty c s) as Hne.
  destruct (split c s) as [|piece pieces]; [contradiction|].
  now destruct (ascii_dec c d).
Qed.

Lemma split_length_lower s :
  length (split "@" (lower s)) = length (split "@" s).
Proof.
  induction s as [|d s IH]; [reflexivity|].
  change (lower (String d s)) with (String (lower_char d) (lower s)).
  rewrite !split_length_cons, IH. f_equal.
  destruct (lower_char_at_dot d) as [Hat _].
  destruct (ascii_dec "@" (lower_char d)) as [E|E],
           (ascii_dec "@" d) as [E'|E']; try reflexivity; exfalso.
  - apply E'. symmetry. apply Hat. now symmetry.
  - apply E. symmetry. apply Hat. now symmetry.
Qed.

End PyStrMore.

(** ** [load_email_list], encoding by encoding *)

Section SourceMore.
Import PyStr Source SourceSpec.

Lemma find_first {A} (f : A → bool) (l : list A) x :
  List.find f l = Some x → first_with (λ y, f y = true) l x.
Proof.
  induction l as [|y l IH]; simpl; [discriminate|].
  destruct (f y) eqn:Hy.
  - intros [= ->]. exists [], l. split; [reflexivity|]. split; [assumption|].
    intros z Hz. now apply elem_of_nil in Hz.
  - intros (l1 & l2 & -> & Hx & Hl1)%IH. exists (y :: l1), l2.
    split; [reflexivity|]. split; [assumption|].
    intros z [-> | Hz]%elem_of_cons; [congruence|auto].
Qed.

Lemma find_None_iff {A} (f : A → bool) (l : list A) :
  List.find f l = None ↔ ∀ y, y ∈ l → f y = false.
Proof.
  split.
  - intros H y Hy. apply list_elem_of_In in Hy. exact (List.find_none _ _ H _ Hy).
  - intros H. destruct (List.find f l) as [x|] eqn:Hfind; [|reflexivity].
    apply List.find_some in Hfind as [Hin Hx].
    apply list_elem_of_In, H in Hin. congruence.
Qed.

(** X4. [find_email_column] returns the first column whose stripped,
    lower-cased name is [email], [emails], [email_address] or [e-mail], if
    there is one, wherever it stands; otherwise the first column whose
    stripped, lower-cased name contains [email]; and no column exactly when
    no name is of either kind. *)
Theorem find_email_column_choice fieldnames :
  let exact column := column_clean column ∈ exact_names in
  let loose column := is_in "email" (column_clean column) = true in
  (∀ column, first_with exact fieldnames column →
             find_email_column fieldnames = Some column)
  ∧ (∀ column, (∀ c, c ∈ fieldnames → ¬ exact c) →
               first_with loose fieldnames column →
               find_email_column fieldnames = Some column)
  ∧ (find_email_column fieldnames = None
     ↔ ∀ c, c ∈ fieldnames → ¬ exact c ∧ ¬ loose c).
Proof.
  cbv zeta. unfold find_email_column.
  set (fe := λ column, bool_decide (column_clean column ∈ exact_names)).
  set (fl := λ column, is_in "email" (column_clean column)).
  assert (∀ l x, first_with (λ y, fe y = true) l x → List.find fe l = Some x)
    as Hfirst_e.
  { intros l x (l1 & l2 & -> & Hx & Hl1). induction l1 as [|y l1 IH]; simpl.
    - now rewrite Hx.
    - destruct (fe y) eqn:Hy; [exfalso; apply (Hl1 y); [left|assumption]|].
      apply IH. intros z Hz. apply Hl1. now right. }
  assert (∀ l x, first_with (λ y, fl y = true) l x → List.find fl l = Some x)
    as Hfirst_l.
  { intros l x (l1 & l2 & -> & Hx & Hl1). induction l1 as [|y l1 IH]; simpl.
    - now rewrite Hx.
    - destruct (fl y) eqn:Hy; [exfalso; apply (Hl1 y); [left|assumption]|].
      apply IH. intros z Hz. apply Hl1. now right. }
  assert (∀ c, fe c = true → truthy c = true) as Hfull.
  { intros c Hc. destruct c; [discriminate Hc|reflexivity]. }
  split; [|split].
  - intros column (l1 & l2 & Hl & Hx & Hl1).
    rewrite (Hfirst_e fieldnames column).
    + simpl. rewrite Hfull; [reflexivity|now apply bool_decide_eq_true_2].
    + exists l1, l2. split; [assumption|].
      split; [now apply bool_decide_eq_true_2|].
      intros y Hy Hfy. apply (Hl1 y Hy). now apply bool_decide_eq_true_1 in Hfy.
  - intros column Hnone Hloose.
    assert (List.find fe fieldnames = None) as ->.
    { apply find_None_iff. intros y Hy. apply bool_decide_eq_false_2. auto. }
    simpl. now apply Hfirst_l.
  - destruct (List.find fe fieldnames) as [c|] eqn:He.
    + apply List.find_some in He as [Hin Hc]. apply list_elem_of_In in Hin.
      simpl. rewrite (Hfull c Hc). simpl. split; [discriminate|].
      intros H. destruct (H c Hin) as [Hne _]. exfalso. apply Hne.
      now apply bool_decide_eq_true_1 in Hc.
    + simpl. rewrite find_None_iff in He. rewrite find_None_iff. split.
      * intros Hl c Hin. split.
        -- intros Hc. apply (bool_decide_eq_true_2 _) in Hc.
           fold (fe c) in Hc. rewrite He in Hc by assumption. discriminate.
        -- pose proof (Hl c Hin) as Hlc. unfold fl in Hlc. congruence.
      * intros H c Hin. destruct (H c Hin) as [_ Hl]. unfold fl.
        now destruct (is_in "email" (column_clean c)).
Qed.

(** Two header rows: an exact name wins over an earlier column that only
    contains [email]; without an exact name the first such column is
    taken. *)
Lemma find_email_column_choice_witness :
  find_email_column ["backup_email"; " E-Mail "; "email"] = Some " E-Mail "
  ∧ find_email_column ["name"; "work_email"; "home_email"] = Some "work_email".
Proof.
  destruct (find_email_column_choice ["backup_email"; " E-Mail "; "email"])
    as (H1 & _ & _).
  destruct (find_email_column_choice ["name"; "work_email"; "home_email"])
    as (_ & H2 & _).
  split.
  - apply H1. exists ["backup_email"], ["email"]. split; [reflexivity|].
    split; [apply (bool_decide_unpack _); vm_compute; exact I|].
    intros y ->%list_elem_of_singleton.
    apply (bool_decide_unpack _). vm_compute. exact I.
  - apply H2.
    + apply Forall_forall. apply (bool_decide_unpack _). vm_compute. exact I.
    + exists ["name"], ["home_email"]. split; [reflexivity|].
      split; [reflexivity|].
      intros y ->%list_elem_of_singleton. vm_compute. discriminate.
Defined.

(** The loop over the rows adds the addresses of the cells it gets to;
    neither a short row nor an exception takes back what was appended. *)
Lemma read_rows_cells column rows ending emails :
  (read_rows column rows ending emails).1
  = emails ++ addresses_of (cells_until_short column rows).
Proof.
  revert emails. induction rows as [|r rows IH]; intros emails; simpl.
  - rewrite app_nil_r. now destruct ending.
  - unfold read_row. destruct (default (Some "") (r !! column)) as [cell|];
      simpl; [|now rewrite app_nil_r].
    rewrite IH. unfold addresses_of. simpl.
    destruct (address_of_cell cell); [|reflexivity].
    now rewrite <- app_assoc.
Qed.

Lemma try_encoding_app r emails :
  (try_encoding r emails).1 = emails ++ emails_under r.
Proof.
  unfold emails_under, try_encoding.
  destruct r as [e|[|f fs] rows ending]; simpl; try now rewrite app_nil_r.
  destruct (not_column _); simpl; [now rewrite app_nil_r|].
  pose proof (read_rows_cells (default "" (find_email_column (f :: fs)))
                rows ending emails) as H1.
  pose proof (read_rows_cells (default "" (find_email_column (f :: fs)))
                rows ending []) as H2.
  destruct (read_rows _ _ _ emails) as [l1 [e1|]],
           (read_rows _ _ _ []) as [l2 [e2|]]; simpl in *; now subst.
Qed.

Lemma emails_under_cells r : ∃ cells, emails_under r = addresses_of cells.
Proof.
  unfold emails_under, try_encoding.
  destruct r as [e|[|f fs] rows ending]; try (now exists []).
  destruct (not_column _); [now exists []|].
  pose proof (read_rows_cells (default "" (find_email_column (f :: fs)))
                rows ending []) as H.
  destruct (read_rows _ _ _ []) as [l [e|]]; simpl in *; subst; eauto.
Qed.

Lemma collect_union read :
  collect read
  = emails_under (read utf_8) ++ emails_under (read utf_8_sig)
    ++ emails_under (read iso_8859_1) ++ emails_under (read cp1252).
Proof.
  unfold collect, encodings_to_try. cbn [foldl].
  rewrite !try_encoding_app. simpl. now rewrite <- !app_assoc.
Qed.

(** X5. The list that [load_email_list] returns is made from all four
    encodings: it is the first-seen deduplication of what [utf-8],
    [utf-8-sig], [iso-8859-1] and [cp1252] give, in this order. Under an
    encoding with a recognised address column these are the addresses of
    the cells up to the first row without a cell, whether reading then ends
    with the file or with an exception; an encoding that cannot be opened,
    has no header or no address column gives nothing. *)
Theorem load_email_list_all_encodings read :
  load_email_list (Some read)
  = first_seen
      (emails_under (read utf_8) ++ emails_under (read utf_8_sig)
       ++ emails_under (read iso_8859_1) ++ emails_under (read cp1252))
  ∧ (∀ enc fieldnames rows ending column,
       read enc = Opened fieldnames rows ending →
       find_email_column fieldnames = Some column →
       emails_under (read enc)
       = addresses_of (cells_until_short column rows))
  ∧ (∀ enc,
       (∃ e, read enc = OpenRaises e)
       ∨ (∃ fieldnames rows ending,
            read enc = Opened fieldnames rows ending
            ∧ find_email_column fieldnames = None) →
       emails_under (read enc) = []).
Proof.
  split; [now rewrite load_email_list_first_seen, collect_union|]. split.
  - intros enc fieldnames rows ending column -> Hcol.
    unfold emails_under, try_encoding.
    destruct fieldnames as [|f fs]; [discriminate Hcol|].
    rewrite Hcol, (find_email_column_truthy _ _ Hcol). simpl.
    pose proof (read_rows_cells column rows ending []) as H.
    now destruct (read_rows _ _ _ []) as [l [e|]].
  - intros enc [[e ->]|(fieldnames & rows & ending & -> & Hcol)];
      [reflexivity|].
    unfold emails_under, try_encoding.
    destruct fieldnames; [reflexivity|]. now rewrite Hcol.
Qed.

(** A file whose third row makes [utf-8] raise, and which the other
    encodings cannot open: the two rows read before are in the list. *)
Lemma load_email_list_all_encodings_witness :
  let read enc :=
    match enc with
    | utf_8 =>
        Opened ["email"] (one_column "email" ["a@x.com"; "B@x.com"])
          (ReadRaises (UnicodeDecodeError "invalid start byte"))
    | _ => OpenRaises (OtherException "cannot open")
    end in
  load_email_list (Some read) = ["a@x.com"; "b@x.com"]
  ∧ emails_under (read utf_8)
    = addresses_of
        (cells_until_short "email"
           (one_column "email" ["a@x.com"; "B@x.com"])).
Proof.
  intros read. split; [vm_compute; reflexivity|].
  exact (proj1 (proj2 (load_email_list_all_encodings read)) utf_8 _ _ _
           "email" eq_refl eq_refl).
Defined.

(** What a cell must look like to give an address, and what the address
    then looks like. *)
Lemma address_of_cell_shape cell email :
  address_of_cell cell = Some email →
  email = lower (strip cell)
  ∧ email ≠ ""
  ∧ lower email = email
  ∧ strip email = email
  ∧ length (split "@" email) = 2
  ∧ contains "." email = true.
Proof.
  unfold address_of_cell.
  destruct (truthy (strip cell)) eqn:Ht; simpl; [|discriminate].
  destruct (contains "@" (strip cell)) eqn:Hat; simpl; [|discriminate].
  destruct (contains "." (strip cell)) eqn:Hdot; simpl; [|discriminate].
  destruct (length (split "@" (strip cell)) =? 2)%nat eqn:Hsplit;
    [|discriminate].
  intros [= <-]. apply Nat.eqb_eq in Hsplit.
  split; [reflexivity|].
  split; [apply truthy_true; now rewrite truthy_lower|].
  split; [apply lower_idemp|].
  split; [now rewrite strip_lower, strip_idemp|].
  split; [now rewrite split_length_lower|].
  rewrite contains_lower by now right. assumption.
Qed.

Lemma load_email_list_from_cell csv email :
  email ∈ load_email_list csv → ∃ cell, address_of_cell cell = Some email.
Proof.
  destruct csv as [read|]; [|now intros ?%elem_of_nil].
  rewrite load_email_list_first_seen, first_seen_elem_of, collect_union.
  rewrite !elem_of_app.
  assert (∀ r, email ∈ emails_under r →
               ∃ cell, address_of_cell cell = Some email) as H.
  { intros r Hin. destruct (emails_under_cells r) as [cells Hc].
    rewrite Hc in Hin. unfold addresses_of in Hin.
    apply list_elem_of_omap in Hin as (cell & _ & Hcell). eauto. }
  intros [?|[?|[?|?]]]; eauto.
Qed.

(** X6. Every address of the list that [load_email_list] returns is the
    lower-cased, stripped text of a cell; it is not empty, has no white
    space at either end, has exactly one [@] and at least one dot. *)
Theorem load_email_list_address_shape csv email :
  email ∈ load_email_list csv →
  (∃ cell, email = lower (strip cell))
  ∧ email ≠ ""
  ∧ lower email = email
  ∧ strip email = email
  ∧ length (split "@" email) = 2
  ∧ contains "." email = true.
Proof.
  intros (cell & Hcell)%load_email_list_from_cell.
  apply address_of_cell_shape in Hcell as (-> & H).
  split; [eauto|exact H].
Qed.

(** The cell [  Bob@Y.org ] gives [bob@y.org]. *)
Lemma load_email_list_address_shape_witness :
  let csv := ascii_file ["email"] (one_column "email" ["  Bob@Y.org "; "x"]) in
  "bob@y.org" ∈ load_email_list csv
  ∧ (∃ cell, "bob@y.org" = lower (strip cell))
  ∧ "bob@y.org" ≠ ""
  ∧ lower "bob@y.org" = "bob@y.org"
  ∧ strip "bob@y.org" = "bob@y.org"
  ∧ length (split "@" "bob@y.org") = 2
  ∧ contains "." "bob@y.org" = true.
Proof.
  cbv zeta.
  assert ("bob@y.org"
          ∈ load_email_list
              (ascii_file ["email"]
                 (one_column "email" ["  Bob@Y.org "; "x"]))) as Hin
    by (vm_compute; left).
  split; [exact Hin|]. exact (load_email_list_address_shape _ _ Hin).
Defined.

End SourceMore.

(** ** The ledger on any [progress_data] *)

Section LedgerMore.
Import PyStr Source Random Ledger LedgerSpec.

(** X7. The unsent addresses are the addresses of the list, in the order of
    the list, that no item of the ledger carries: an item excludes an
    address when its own address, lower-cased, is that address, whether the
    item is a dictionary or not and whatever its outcome. *)
Theorem unsent_emails_exactly csv pd :
  unsent_emails (load_email_list csv) pd `sublist_of` load_email_list csv
  ∧ ∀ email,
      email ∈ unsent_emails (load_email_list csv) pd
      ↔ email ∈ load_email_list csv
        ∧ ∀ it, it ∈ get_sent_emails pd → lower (address it) ≠ email.
Proof.
  split; [apply sublist_filter|]. intros email. split.
  - intros Hin. split; [now apply list_elem_of_filter in Hin|].
    intros it Hit. pose proof (unsent_emails_not_attempted _ _ _ _ Hin Hit) as H.
    apply list_elem_of_filter in Hin as [_ Hin].
    apply load_email_list_normalized in Hin as [_ Hlow]. now rewrite Hlow in H.
  - intros [Hin Hnone]. apply list_elem_of_filter. split; [|assumption].
    apply load_email_list_normalized in Hin as [_ Hlow]. rewrite Hlow.
    intros (it & Hit & _ & Heq)%elem_of_sent_email_addresses.
    now apply (Hnone it Hit).
Qed.

Lemma count_bounds p items :
  (0 ≤ count p items ≤ Z.of_nat (length items))%Z.
Proof. unfold count. pose proof (length_filter (λ it, p it) items). lia. Qed.

Lemma count_outcomes items :
  (count is_successful items + count is_failed items
   ≤ Z.of_nat (length items))%Z
  ∧ ((count is_successful items + count is_failed items
      = Z.of_nat (length items))%Z ↔ Forall has_outcome items).
Proof.
  unfold count. induction items as [|it items [IHle IHeq]];
    [split; [reflexivity|]; split; [constructor|reflexivity]|].
  rewrite !filter_cons.
  pose proof (length_filter (λ it, is_successful it) items) as Hs.
  pose proof (length_filter (λ it, is_failed it) items) as Hf.
  rewrite Forall_cons. unfold has_outcome at 1.
  destruct it as [e|str]; simpl.
  - destruct (success e) as [[]|] eqn:Hb; simpl.
    + split; [lia|]. rewrite <- IHeq. split.
      * intros H. split; [eauto|lia].
      * intros [_ H]. lia.
    + split; [lia|]. rewrite <- IHeq. split.
      * intros H. split; [eauto|lia].
      * intros [_ H]. lia.
    + split; [lia|]. split; [lia|].
      intros [(e' & b & [= <-] & Hb') _]. congruence.
  - split; [lia|]. split; [lia|]. intros [(e' & b & [=] & _) _].
Qed.

(** X8. On every ledger of the schema, also one that the program did not
    write itself (keys missing, items that are strings, items without
    address or outcome, counters with any numbers), [mark_email_sent] only
    appends: the items that were there stay as they are, in place.
    Afterwards the given address is the address of an item, [total_sent] is
    the number of items, [successful] plus [failed] is at most
    [total_sent], and it is [total_sent] exactly when every item is a
    dictionary with a [success] value; [last_run] is left as it was.
    Nothing is said of an object outside the schema, on which the code can
    raise. *)
Theorem mark_email_sent_schema_ledger now email ok msg v pd :
  ProgressFile.decode v = Some pd →
  let pd' := mark_email_sent now email ok msg pd in
  get_sent_emails pd `prefix_of` get_sent_emails pd'
  ∧ email ∈ addresses pd'
  ∧ stat total_sent pd' = Z.of_nat (length (get_sent_emails pd'))
  ∧ (0 ≤ stat successful pd')%Z ∧ (0 ≤ stat failed pd')%Z
  ∧ (stat successful pd' + stat failed pd' ≤ stat total_sent pd')%Z
  ∧ ((stat successful pd' + stat failed pd' = stat total_sent pd')%Z
     ↔ Forall has_outcome (get_sent_emails pd'))
  ∧ campaign_stats pd' ≫= last_run = campaign_stats pd ≫= last_run.
Proof.
  intros _.
  cbv zeta. unfold addresses. rewrite mark_email_sent_sent_emails.
  set (items' := if bool_decide _ then _ else _).
  assert (get_sent_emails pd `prefix_of` items') as Hprefix.
  { unfold items'. case_bool_decide; [reflexivity|now apply prefix_app_r]. }
  assert (email ∈ address <$> items') as Hin.
  { unfold items'. case_bool_decide; [assumption|].
    rewrite fmap_app. apply elem_of_app. right. simpl. left. }
  split; [exact Hprefix|]. split; [exact Hin|].
  change (stat total_sent (mark_email_sent now email ok msg pd))
    with (Z.of_nat (length items')).
  change (stat successful (mark_email_sent now email ok msg pd))
    with (count is_successful items').
  change (stat failed (mark_email_sent now email ok msg pd))
    with (count is_failed items').
  split; [reflexivity|].
  split; [apply count_bounds|]. split; [apply count_bounds|].
  split; [apply count_outcomes|]. split; [apply count_outcomes|].
  unfold mark_email_sent. simpl. now destruct (campaign_stats pd).
Qed.

(** A ledger written by hand: an item that is a string, an item without
    outcome, and a counter that does not fit. After the call there are
    three items, [total_sent] is 3 and the two counters do not add up to
    it. *)
Lemma mark_email_sent_schema_ledger_witness :
  let v :=
    Json.Obj
      [("sent_emails",
        Json.Arr
          [Json.Str "x@y.org";
           Json.Obj [("email", Json.Str "a@x.com");
                     ("timestamp", Json.Str "t0");
                     ("error", Json.Str "")]]);
       ("campaign_stats", Json.Obj [("total_sent", Json.Int 7)])] in
  ∃ pd,
    ProgressFile.decode v = Some pd
    ∧ let pd' := mark_email_sent "t1" "b@x.com" true "" pd in
      get_sent_emails pd `prefix_of` get_sent_emails pd'
      ∧ address <$> get_sent_emails pd' = ["x@y.org"; "a@x.com"; "b@x.com"]
      ∧ stat total_sent pd' = 3%Z
      ∧ (stat successful pd' + stat failed pd' ≠ stat total_sent pd')%Z.
Proof.
  intros v. eexists. split; [reflexivity|]. cbv zeta.
  split.
  - match goal with
    | |- context [mark_email_sent ?n ?e ?o ?m ?pd] =>
        exact (proj1 (mark_email_sent_schema_ledger n e o m v pd eq_refl))
    end.
  - repeat split; vm_compute; congruence.
Defined.

(** X9. [mark_email_sent] keeps the first outcome recorded for an address:
    when an item already has exactly the given address, the items are left
    as they are, whatever outcome is given now; in particular a second call
    for the same address changes nothing at all. *)
Theorem mark_email_sent_keeps_first now email ok msg pd :
  email ∈ addresses pd →
  get_sent_emails (mark_email_sent now email ok msg pd) = get_sent_emails pd
  ∧ ∀ now' ok' msg',
      mark_email_sent now' email ok' msg' (mark_email_sent now email ok msg pd)
      = mark_email_sent now email ok msg pd.
Proof.
  intros Hin. unfold addresses in Hin. split.
  - rewrite mark_email_sent_sent_emails. now rewrite bool_decide_eq_true_2.
  - unfold get_sent_emails in Hin.
    intros now' ok' msg'. unfold mark_email_sent at 1 3. simpl.
    repeat rewrite (bool_decide_eq_true_2 _ Hin).
    now destruct (campaign_stats pd).
Qed.

(** A failed attempt for [a@x.com], then a call that reports success. *)
Lemma mark_email_sent_keeps_first_witness :
  let pd := mark_email_sent "t1" "a@x.com" false "boom" fresh in
  "a@x.com" ∈ addresses pd
  ∧ get_sent_emails (mark_email_sent "t2" "a@x.com" true "" pd)
    = get_sent_emails pd
  ∧ stat failed (mark_email_sent "t2" "a@x.com" true "" pd) = 1%Z.
Proof.
  intros pd. assert ("a@x.com" ∈ addresses pd) as Hin by left.
  split; [exact Hin|].
  split; [|reflexivity].
  exact (proj1 (mark_email_sent_keeps_first "t2" "a@x.com" true "" pd Hin)).
Defined.

(** X10. Once [mark_email_sent] has recorded an address, no later batch
    holds it, in whatever letter case the recipient file has it, whatever the
    outcome recorded, and however many records are appended afterwards. *)
Theorem marked_address_never_selected
    rand csv limit now email ok msg pd pd' batch other :
  get_sent_emails (mark_email_sent now email ok msg pd)
    `prefix_of` get_sent_emails pd' →
  get_unsent_emails rand csv pd' limit = Ok batch →
  other ∈ batch →
  lower other ≠ lower email.
Proof.
  intros Hprefix Hbatch Hother.
  assert (∃ it, it ∈ get_sent_emails (mark_email_sent now email ok msg pd)
                ∧ address it = email) as (it & Hit & <-).
  { rewrite mark_email_sent_sent_emails. case_bool_decide as Hin.
    - apply list_elem_of_fmap in Hin as (it & -> & Hit). eauto.
    - eexists. split; [apply elem_of_app; right; left|reflexivity]. }
  apply get_unsent_emails_inv in Hbatch as [Hsub _]. apply Hsub in Hother.
  intros Heq. symmetry in Heq. revert Heq.
  eapply unsent_emails_not_attempted; [exact Hother|].
  destruct Hprefix as [more ->]. apply elem_of_app. now left.
Qed.

(** [a@x.com] recorded as failed, one more record appended, and a file that
    has the address in capitals. *)
Lemma marked_address_never_selected_witness :
  let pd := mark_email_sent "t1" "a@x.com" false "boom" fresh in
  let pd' := mark_email_sent "t2" "c@x.com" true "" pd in
  let csv := ascii_file ["email"] (one_column "email" ["A@X.com"; "b@x.com"]) in
  get_sent_emails pd `prefix_of` get_sent_emails pd'
  ∧ get_unsent_emails (λ _, 0) csv pd' 50 = Ok ["b@x.com"]
  ∧ lower "b@x.com" ≠ lower "a@x.com".
Proof.
  intros pd pd' csv.
  assert (get_sent_emails pd `prefix_of` get_sent_emails pd') as Hprefix
    by (eexists; reflexivity).
  assert (get_unsent_emails (λ _, 0) csv pd' 50 = Ok ["b@x.com"]) as Hbatch
    by (vm_compute; reflexivity).
  split; [exact Hprefix|]. split; [exact Hbatch|].
  apply (marked_address_never_selected (λ _, 0) csv 50 "t1" "a@x.com" false
           "boom" fresh pd' ["b@x.com"] "b@x.com" Hprefix Hbatch).
  left.
Defined.

(** In a ledger that belongs to the file, the list splits into the
    addresses recorded and the addresses unsent. *)
Lemma matches_list_split csv pd :
  matches_list csv pd →
  load_email_list csv
  ≡ₚ addresses pd ++ unsent_emails (load_email_list csv) pd.
Proof.
  intros [Hnd Hsub]. apply NoDup_Permutation.
  - apply load_email_list_NoDup.
  - apply NoDup_app. split; [assumption|]. split; [|apply unsent_emails_NoDup].
    intros x Hx Hun. pose proof (Hsub x Hx) as Hin.
    apply load_email_list_normalized in Hin as [Hne Hlow].
    apply list_elem_of_filter in Hun as [Hnot _]. apply Hnot.
    apply elem_of_sent_email_addresses.
    unfold addresses in Hx. apply list_elem_of_fmap in Hx as (it & -> & Hit).
    exists it. rewrite Hlow. auto.
  - intros x. rewrite elem_of_app. split.
    + intros Hx.
      destruct (decide (lower x ∈ sent_email_addresses pd)) as [Hsent|Hnot].
      * left. apply elem_of_sent_email_addresses in Hsent
          as (it & Hit & _ & Heq).
        assert (address it ∈ addresses pd) as Ha
          by (unfold addresses; now apply list_elem_of_fmap_2).
        pose proof (Hsub _ Ha) as Hn.
        apply load_email_list_normalized in Hn as [_ Hlow].
        apply load_email_list_normalized in Hx as [_ Hlowx].
        rewrite Hlow, Hlowx in Heq. now subst.
      * right. apply list_elem_of_filter. auto.
    + intros [Hx|Hx]; [auto|]. now apply list_elem_of_filter in Hx.
Qed.

(** X11. For a ledger whose addresses are pairwise different and all in
    the recipient list, the [emails_remaining] of [get_campaign_stats] is the
    number of unsent addresses, so it is 0 exactly when nothing is unsent;
    and recording an unsent address gives such a ledger again. *)
Theorem get_campaign_stats_remaining csv pd :
  matches_list csv pd →
  let st := get_campaign_stats csv pd in
  let unsent := unsent_emails (load_email_list csv) pd in
  emails_remaining st = Z.of_nat (length unsent)
  ∧ (emails_remaining st = 0%Z ↔ unsent = [])
  ∧ ∀ now email ok msg,
      email ∈ unsent →
      matches_list csv (mark_email_sent now email ok msg pd).
Proof.
  intros Hm st unsent.
  pose proof (matches_list_split csv pd Hm) as Hsplit.
  apply Permutation_length in Hsplit. rewrite length_app in Hsplit.
  unfold addresses in Hsplit. rewrite length_fmap in Hsplit.
  fold unsent in Hsplit.
  assert (emails_remaining st = Z.of_nat (length unsent)) as Hrem.
  { unfold st, get_campaign_stats. simpl. lia. }
  split; [exact Hrem|]. split.
  - rewrite Hrem. destruct unsent; simpl; split; try lia; congruence.
  - intros now email ok msg Hun. destruct Hm as [Hnd Hsub].
    assert (email ∉ addresses pd) as Hnew.
    { intros Hin. pose proof (Hsub _ Hin) as Hn.
      apply load_email_list_normalized in Hn as [Hne Hlow].
      apply list_elem_of_filter in Hun as [Hnot _]. apply Hnot.
      apply elem_of_sent_email_addresses.
      unfold addresses in Hin. apply list_elem_of_fmap in Hin as (it & -> & Hit).
      exists it. rewrite Hlow. auto. }
    unfold matches_list, addresses. rewrite mark_email_sent_sent_emails.
    rewrite bool_decide_eq_false_2 by exact Hnew.
    rewrite fmap_app. simpl. split.
    + apply NoDup_app. split; [assumption|]. split; [|apply NoDup_singleton].
      intros x Hx ->%list_elem_of_singleton. contradiction.
    + intros x [Hx| ->%list_elem_of_singleton]%elem_of_app; [auto|].
      now apply list_elem_of_filter in Hun.
Qed.

(** Two addresses, one of them recorded. *)
Lemma get_campaign_stats_remaining_witness :
  let csv := ascii_file ["email"] (one_column "email" ["a@x.com"; "b@x.com"]) in
  let pd := mark_email_sent "t1" "a@x.com" true "" fresh in
  matches_list csv pd
  ∧ emails_remaining (get_campaign_stats csv pd) = 1%Z
  ∧ unsent_emails (load_email_list csv) pd = ["b@x.com"].
Proof.
  intros csv pd.
  assert (matches_list csv pd) as Hm.
  { split.
    - apply NoDup_singleton.
    - intros x ->%list_elem_of_singleton. vm_compute. left. }
  split; [exact Hm|].
  destruct (get_campaign_stats_remaining csv pd Hm) as (Hrem & _ & _).
  split; [rewrite Hrem; reflexivity|reflexivity].
Defined.

End LedgerMore.

(** ** [read_email_content] and [send_campaign_email] *)

Section ContentMore.
Import PyStr Emailer Ledger Campaign.

Lemma read_content_Ok name file subject body :
  read_content name file = Ok (subject, body)
  ↔ ∃ first rest,
      file = Ok (first :: rest)
      ∧ startswith "SUBJECT:" first = true
      ∧ subject = strip (remove "SUBJECT:" first)
      ∧ body = lstrip (join rest).
Proof.
  unfold read_content. destruct file as [[|first rest]|e];
    cbn [mbind result_bind].
  - split; [discriminate|]. intros (f & r & [=] & _).
  - destruct (startswith "SUBJECT:" first) eqn:Hs.
    + split.
      * intros H. simplify_eq. exists first, rest.
        split; [reflexivity|]. split; [assumption|]. split; reflexivity.
      * intros (f & r & Hf & _ & -> & ->). now simplify_eq.
    + split; [discriminate|].
      intros (f & r & Hf & Hs' & _). simplify_eq. congruence.
  - split; [discriminate|]. intros (f & r & [=] & _).
Qed.

(** X12. [read_email_content] reads [email.html] whenever it exists and
    looks at [email.txt] only when it does not, so a faulty [email.html]
    is an error even beside a good [email.txt]. It returns exactly when the
    file it reads has a first line that starts with [SUBJECT:]; the subject
    returned is stripped, the body has no white space at its start, and of
    plain text and HTML only the one of the file read can be non-empty. *)
Theorem read_email_content_result email_html email_txt :
  let chosen :=
    match email_html with Some file => Some file | None => email_txt end in
  (∀ file, email_html = Some file →
     read_email_content email_html email_txt
     = read_email_content email_html None)
  ∧ ((∃ r, read_email_content email_html email_txt = Ok r)
     ↔ ∃ first rest, chosen = Some (Ok (first :: rest))
                     ∧ startswith "SUBJECT:" first = true)
  ∧ (∀ subject plain html,
       read_email_content email_html email_txt = Ok (subject, plain, html) →
       strip subject = subject
       ∧ lstrip plain = plain ∧ lstrip html = html
       ∧ match email_html with
         | Some _ => plain = ""
         | None => html = ""
         end).
Proof.
  cbv zeta. split; [now intros file ->|].
  assert (∀ name file,
    match read_content name file with
    | Ok (subject, body) =>
        (∃ first rest, file = Ok (first :: rest)
                       ∧ startswith "SUBJECT:" first = true)
        ∧ strip subject = subject ∧ lstrip body = body
    | Raise _ =>
        ¬ ∃ first rest, file = Ok (first :: rest)
                        ∧ startswith "SUBJECT:" first = true
    end) as Hread.
  { intros name file.
    destruct (read_content name file) as [[subject body]|e] eqn:Hr.
    - apply read_content_Ok in Hr as (first & rest & -> & Hs & -> & ->).
      split; [eauto|].
      split; [apply strip_idemp|apply lstrip_id, lstrip_starts].
    - intros (first & rest & -> & Hs).
      assert (read_content name (Ok (first :: rest))
              = Ok (strip (remove "SUBJECT:" first), lstrip (join rest))) as H
        by (apply read_content_Ok; eauto 10).
      congruence. }
  unfold read_email_content.
  destruct email_html as [file|]; [|destruct email_txt as [file|]].
  - specialize (Hread "email.html" file).
    destruct (read_content "email.html" file) as [[subject body]|e]; simpl.
    + destruct Hread as ((first & rest & -> & Hs) & Hsub & Hbody).
      split; [split; eauto|]. intros ? ? ? H. now simplify_eq.
    + split; [|discriminate]. split; [intros [r [=]]|].
      intros (first & rest & Hf & Hs). simplify_eq. exfalso. apply Hread. eauto.
  - specialize (Hread "email.txt" file).
    destruct (read_content "email.txt" file) as [[subject body]|e]; simpl.
    + destruct Hread as ((first & rest & -> & Hs) & Hsub & Hbody).
      split; [split; eauto|]. intros ? ? ? H. now simplify_eq.
    + split; [|discriminate]. split; [intros [r [=]]|].
      intros (first & rest & Hf & Hs). simplify_eq. exfalso. apply Hread. eauto.
  - split; [|discriminate].
    split; [intros [r [=]]|intros (f & r & [=] & _)].
Qed.

(** A faulty [email.html] beside a good [email.txt]. *)
Lemma read_email_content_result_witness :
  read_email_content (Some (Ok ["Hello"])) (Some (Ok ["SUBJECT: Hi"; "text"]))
  = read_email_content (Some (Ok ["Hello"])) None
  ∧ read_email_content None (Some (Ok ["SUBJECT:  Hi "; ""; " text"]))
    = Ok ("Hi", "text", "").
Proof.
  split; [|vm_compute; reflexivity].
  exact (proj1 (read_email_content_result (Some (Ok ["Hello"]))
                  (Some (Ok ["SUBJECT: Hi"; "text"]))) _ eq_refl).
Defined.

End ContentMore.

(** ** One recipient of a run *)

Section RunMore.
Import PyStr Source Random Emailer Ledger LedgerSpec Campaign DriverSpec.

Variables sender_email sender_name api_key : string.
Variable csv : source.
Variables email_html email_txt : content_file.
Variable sg : nat → mail → reply.
Variable clock : nat → string.
Variable writable : nat → bool.
Variable rand : nat → nat.

Lemma gateway_calls_app t1 t2 :
  gateway_calls (t1 ++ t2) = gateway_calls t1 ++ gateway_calls t2.
Proof. unfold gateway_calls. apply omap_app. Qed.

Lemma gateway_calls_fmap sent : gateway_calls (GatewayCall <$> sent) = sent.
Proof. induction sent as [|m sent IH]; simpl; [reflexivity|]. now f_equal. Qed.

Lemma send_email_cases sg' from_email to_emails subject plain html name :
  let '(res, sent) :=
    send_email sg' from_email to_emails subject plain html name in
  (sent = [] ∧ Emailer.success res = false)
  ∨ ∃ m, sent = [m] ∧ to_list m = to_emails
         ∧ (from_address m).1 = from_email.
Proof.
  unfold send_email, send_email_try.
  destruct (check_arguments _ _ _ _ _); [right|left; now split].
  eexists. split; [reflexivity|]. split; reflexivity.
Qed.

Lemma save_progress_sent now w pd file :
  get_sent_emails (save_progress now w pd file).1 = get_sent_emails pd.
Proof. unfold save_progress. now destruct (campaign_stats pd). Qed.

Lemma save_progress_written now pd file :
  is_Some (campaign_stats pd) →
  (save_progress now true pd file).2
  = Object (save_progress now true pd file).1.
Proof. intros [st Hst]. unfold save_progress. now rewrite Hst. Qed.

(** What [send_campaign_email] does when the API key is not empty. *)
Lemma send_campaign_email_spec before recipient show :
  truthy api_key = true →
  ∃ res evs,
    send_campaign_email sender_email sender_name api_key email_html email_txt
      sg before recipient show = Ok (res, evs)
    ∧ (gateway_calls evs = []
       ∨ ∃ m, gateway_calls evs = [m] ∧ to_list m = [recipient]
              ∧ (from_address m).1 = sender_email)
    ∧ (gateway_calls evs = [] → Emailer.success res = false)
    ∧ (∀ e, read_email_content email_html email_txt = Raise e →
            gateway_calls evs = [] ∧ Emailer.success res = false
            ∧ Emailer.error res = Some (str_of_exn e))
    ∧ (show = false → evs = GatewayCall <$> gateway_calls evs).
Proof.
  intros Hkey. unfold send_campaign_email, new_emailer. rewrite Hkey.
  cbn [require mbind result_bind].
  destruct (read_email_content email_html email_txt)
    as [[[subject plain] html]|e].
  - set (started := if show then [Output (SendingCampaignEmail recipient)]
                    else []).
    pose proof (send_email_cases
                  (sg (length (before ++ started))) sender_email [recipient]
                  subject plain html sender_name) as Hsent.
    destruct (send_email _ _ _ _ _ _ _) as [res sent].
    eexists _, _. split; [reflexivity|].
    match goal with
    | |- context [gateway_calls ?evs] =>
        assert (gateway_calls evs = sent) as Hcalls
    end.
    { rewrite !gateway_calls_app, gateway_calls_fmap. unfold started.
      destruct show; simpl; now rewrite app_nil_r. }
    rewrite Hcalls.
    split; [destruct Hsent as [[-> _]|Hm]; [now left|now right]|].
    split; [intros ->; destruct Hsent as [[_ ?]|(m & [=] & _)]; assumption|].
    split; [discriminate|].
    intros ->. simpl. now rewrite app_nil_r.
  - eexists _, _. split; [reflexivity|].
    assert (gateway_calls
              (if show then [Output (ContentError (str_of_exn e))] else [])
            = []) as Hcalls by now destruct show.
    rewrite Hcalls.
    split; [now left|]. split; [reflexivity|].
    split; [intros e' [= ->]; repeat split|].
    now intros ->.
Qed.

Lemma send_one_spec n i recipient s :
  truthy api_key = true →
  recipient ∉ addresses (progress_data s) →
  ∃ s' now ok msg sent,
    send_one sender_email sender_name api_key email_html email_txt sg clock
      writable n i recipient s = Ok s'
    ∧ get_sent_emails (progress_data s')
      = get_sent_emails (progress_data s)
        ++ [Dict {| email := Some recipient; timestamp := now;
                    success := Some ok; error := msg |}]
    ∧ gateway_calls (trace s') = gateway_calls (trace s) ++ sent
    ∧ (sent = []
       ∨ ∃ m, sent = [m] ∧ to_list m = [recipient]
              ∧ (from_address m).1 = sender_email)
    ∧ (sent = [] → ok = false)
    ∧ successful_sends s' = (successful_sends s + if ok then 1 else 0)%Z
    ∧ failed_sends s' = (failed_sends s + if ok then 0 else 1)%Z
    ∧ ((∀ k, writable k = true) →
       progress_file s' = Object (progress_data s'))
    ∧ (∀ e, read_email_content email_html email_txt = Raise e →
            sent = [] ∧ ok = false ∧ msg = str_of_exn e).
Proof.
  intros Hkey Hnew. unfold send_one.
  destruct (send_campaign_email_spec
              (trace s ++ [Output (SendingTo i n recipient)]) recipient false
              Hkey) as (res & evs & -> & Hcalls & Hnone & Hraise & Hevs).
  cbn [mbind result_bind]. specialize (Hevs eq_refl).
  set (sent := gateway_calls evs) in *.
  set (t2 := (trace s ++ [Output (SendingTo i n recipient)]) ++ evs).
  assert (gateway_calls t2 = gateway_calls (trace s) ++ sent) as Ht2.
  { unfold t2. rewrite !gateway_calls_app. simpl. now rewrite app_nil_r. }
  assert (∀ now ok msg,
    get_sent_emails (mark_email_sent now recipient ok msg (progress_data s))
    = get_sent_emails (progress_data s)
      ++ [Dict {| email := Some recipient; timestamp := now;
                  success := Some ok; error := msg |}]) as Hmark.
  { intros now ok msg. rewrite mark_email_sent_sent_emails.
    now rewrite bool_decide_eq_false_2. }
  destruct (Emailer.success res) eqn:Hres.
  - cbv zeta.
    set (pd1 := mark_email_sent (clock (length t2)) recipient true ""
                  (progress_data s)).
    set (t3 := t2 ++ [Output Success]).
    pose proof (save_progress_sent (clock (length t3)) (writable (length t3))
                  pd1 (progress_file s)) as Hsaved.
    pose proof (save_progress_written (clock (length t3)) pd1
                  (progress_file s) (mk_is_Some _ _ eq_refl)) as Hfile.
    destruct (save_progress _ _ pd1 _) as [pd' file'] eqn:Hsave.
    eexists _, (clock (length t2)), true, "", sent.
    split; [reflexivity|]. cbn [progress_data trace successful_sends
                                failed_sends progress_file].
    simpl in Hsaved. rewrite Hsaved. unfold pd1. rewrite Hmark.
    split; [reflexivity|].
    split.
    { rewrite !gateway_calls_app. fold t3. unfold t3.
      rewrite gateway_calls_app, Ht2. simpl.
      destruct (writable (length (t2 ++ [Output Success]))); simpl;
        now rewrite !app_nil_r. }
    split; [exact Hcalls|].
    split; [intros Hs; apply Hnone in Hs; congruence|].
    split; [reflexivity|]. split; [lia|].
    split.
    { intros Hw. rewrite Hw in Hsave. rewrite Hsave in Hfile.
      exact Hfile. }
    intros e He. apply Hraise in He as (_ & He & _). congruence.
  - cbv zeta.
    set (msg := default "Unknown error" (Emailer.error res)).
    set (pd1 := mark_email_sent (clock (length t2)) recipient false msg
                  (progress_data s)).
    set (t3 := t2 ++ [Output (Failed msg)]).
    pose proof (save_progress_sent (clock (length t3)) (writable (length t3))
                  pd1 (progress_file s)) as Hsaved.
    pose proof (save_progress_written (clock (length t3)) pd1
                  (progress_file s) (mk_is_Some _ _ eq_refl)) as Hfile.
    destruct (save_progress _ _ pd1 _) as [pd' file'] eqn:Hsave.
    eexists _, (clock (length t2)), false, msg, sent.
    split; [reflexivity|]. cbn [progress_data trace successful_sends
                                failed_sends progress_file].
    simpl in Hsaved. rewrite Hsaved. unfold pd1. rewrite Hmark.
    split; [reflexivity|].
    split.
    { rewrite !gateway_calls_app. fold t3. unfold t3.
      rewrite gateway_calls_app, Ht2. simpl.
      destruct (writable (length (t2 ++ [Output (Failed msg)]))); simpl;
        now rewrite !app_nil_r. }
    split; [exact Hcalls|].
    split; [reflexivity|].
    split; [lia|]. split; [reflexivity|].
    split.
    { intros Hw. rewrite Hw in Hsave. rewrite Hsave in Hfile.
      exact Hfile. }
    intros e He. apply Hraise in He as (Hs & _ & He).
    split; [exact Hs|]. split; [reflexivity|]. unfold msg. now rewrite He.
Qed.

Lemma count_app p l1 l2 : count p (l1 ++ l2) = (count p l1 + count p l2)%Z.
Proof. unfold count. rewrite filter_app, length_app. lia. Qed.

(** The loop over the batch, for an API key that is not empty and a batch of
    pairwise different addresses that the ledger does not have. *)
Lemma send_all_spec n targets : ∀ i s,
  truthy api_key = true →
  NoDup targets →
  (∀ r, r ∈ targets → r ∉ addresses (progress_data s)) →
  ∃ s' new_items recipients,
    send_all sender_email sender_name api_key email_html email_txt sg clock
      writable n i targets s = (s', None)
    ∧ get_sent_emails (progress_data s')
      = get_sent_emails (progress_data s) ++ new_items
    ∧ address <$> new_items = targets
    ∧ Forall has_outcome new_items
    ∧ successful_sends s'
      = (successful_sends s + count is_successful new_items)%Z
    ∧ failed_sends s' = (failed_sends s + count is_failed new_items)%Z
    ∧ recipients_called (trace s')
      = recipients_called (trace s) ++ ((λ r, [r]) <$> recipients)
    ∧ recipients `sublist_of` targets
    ∧ (count is_successful new_items ≤ Z.of_nat (length recipients))%Z
    ∧ ((∀ k, writable k = true) → targets ≠ [] →
       progress_file s' = Object (progress_data s'))
    ∧ (targets = [] → s' = s)
    ∧ (∀ e, read_email_content email_html email_txt = Raise e →
            recipients = []
            ∧ Forall (failed_with (str_of_exn e)) new_items)
    ∧ (∀ it, it ∈ new_items → is_successful it = true →
             address it ∈ recipients).
Proof.
  induction targets as [|r rest IH]; intros i s Hkey Hnd Hnew; simpl.
  - exists s, [], []. simpl. rewrite !app_nil_r.
    split; [reflexivity|]. split; [reflexivity|]. split; [reflexivity|].
    split; [apply Forall_nil_2|].
    split; [unfold count; simpl; lia|]. split; [unfold count; simpl; lia|].
    split; [reflexivity|]. split; [reflexivity|].
    split; [unfold count; simpl; lia|].
    split; [intros _ H; contradiction|].
    split; [reflexivity|].
    split; [intros e _; split; [reflexivity|apply Forall_nil_2]|].
    intros it Hit. apply elem_of_nil in Hit. contradiction.
  - apply NoDup_cons in Hnd as [Hr Hnd].
    destruct (send_one_spec n i r s Hkey (Hnew r (list_elem_of_here _ _)))
      as (s1 & now & ok & msg & sent & -> & Hitems1 & Hcalls1 & Hsent & Hnone
          & Hok1 & Hbad1 & Hfile1 & Hraise1).
    destruct (IH (S i) s1 Hkey Hnd) as
      (s' & items & recipients & -> & Hitems & Haddr & Hout & Hok & Hbad
       & Hcalls & Hsub & Hle & Hfile & Hnil & Hraise & Hsucc).
    { intros r' Hr' Hin. unfold addresses in Hin. rewrite Hitems1 in Hin.
      rewrite fmap_app in Hin. apply elem_of_app in Hin as [Hin|Hin].
      - apply (Hnew r'); [now right|exact Hin].
      - apply list_elem_of_singleton in Hin. simpl in Hin. congruence. }
    set (it := Dict {| email := Some r; timestamp := now; success := Some ok;
                       error := msg |}) in *.
    exists s', (it :: items),
      (match sent with [] => recipients | _ => r :: recipients end).
    split; [reflexivity|].
    split; [rewrite Hitems, Hitems1, <- app_assoc; reflexivity|].
    split; [rewrite fmap_cons, Haddr; reflexivity|].
    split; [constructor; [unfold has_outcome, it; eauto|assumption]|].
    assert (count is_successful [it] = (if ok then 1 else 0)%Z
            ∧ count is_failed [it] = (if ok then 0 else 1)%Z) as [Hc1 Hc2]
      by (unfold it; now destruct ok).
    change (it :: items) with ([it] ++ items). rewrite !count_app, Hc1, Hc2.
    split; [lia|]. split; [lia|].
    split.
    { rewrite Hcalls. unfold recipients_called. rewrite Hcalls1, fmap_app.
      rewrite <- app_assoc. f_equal.
      destruct Hsent as [-> |(m & -> & Hto & _)]; [reflexivity|].
      simpl. now rewrite Hto. }
    split.
    { destruct Hsent as [-> |(m & -> & _)];
        [now apply sublist_cons|now apply sublist_skip]. }
    split.
    { destruct Hsent as [-> |(m & -> & _)].
      - rewrite (Hnone eq_refl). lia.
      - simpl. destruct ok; lia. }
    split.
    { intros Hw _. destruct rest as [|r' rest'].
      - rewrite (Hnil eq_refl). now apply Hfile1.
      - apply Hfile; [assumption|discriminate]. }
    split; [discriminate|].
    split.
    { intros e He. destruct (Hraise1 e He) as (-> & -> & ->).
      destruct (Hraise e He) as [-> Hall].
      split; [reflexivity|]. constructor; [|assumption].
      unfold failed_with, it. eauto. }
    intros it' Hit' Hgood. apply elem_of_cons in Hit' as [-> |Hit'].
    + unfold it in Hgood. simpl in Hgood. subst ok.
      destruct Hsent as [-> |(m & -> & _)];
        [discriminate (Hnone eq_refl)|].
      unfold it. simpl. apply list_elem_of_here.
    + specialize (Hsucc it' Hit' Hgood).
      destruct Hsent as [-> |(m & -> & _)]; [assumption|now right].
Qed.

Lemma unsent_not_recorded pd email :
  email ∈ unsent_emails (load_email_list csv) pd → email ∉ addresses pd.
Proof.
  intros Hun Hin. unfold addresses in Hin.
  apply list_elem_of_fmap in Hin as (it & -> & Hit).
  now apply (unsent_emails_not_attempted _ _ _ _ Hun Hit).
Qed.

(** The size of the batch, and when there is none. *)
Lemma get_unsent_emails_cases pd limit :
  let unsent := unsent_emails (load_email_list csv) pd in
  match get_unsent_emails rand csv pd limit with
  | Ok batch =>
      batch ⊆ unsent ∧ NoDup batch
      ∧ ((unsent = [] ∧ batch = [])
         ∨ (unsent ≠ [] ∧ (0 ≤ limit)%Z
            ∧ Z.of_nat (length batch)
              = Z.min limit (Z.of_nat (length unsent))))
  | Raise e =>
      unsent ≠ [] ∧ (limit < 0)%Z
      ∧ e = ValueError "Sample larger than population or is negative"
  end.
Proof.
  intros unsent.
  destruct (get_unsent_emails rand csv pd limit) as [batch|e] eqn:Hget.
  - destruct (get_unsent_emails_inv _ _ _ _ _ Hget) as [Hsub Hnd].
    split; [exact Hsub|]. split; [exact Hnd|].
    unfold get_unsent_emails in Hget. fold unsent in Hget.
    case_bool_decide as Hnil; [left; split; congruence|right].
    apply sample_inv in Hget as [Hk ->].
    split; [assumption|]. split; [lia|].
    destruct (select_perm rand (Z.to_nat (Z.min limit
                (Z.of_nat (length unsent)))) 0 unsent) as [Hlen _]; lia.
  - unfold get_unsent_emails in Hget. fold unsent in Hget.
    case_bool_decide as Hnil; [discriminate|].
    unfold sample in Hget. case_bool_decide as Hk; [discriminate|].
    split; [assumption|]. split; [lia|]. congruence.
Qed.

(** What a run of [run_email_campaign] comes to. *)
Lemma run_email_campaign_summary batch_size file :
  ∃ new_items recipients,
    run_facts csv email_html email_txt api_key writable batch_size file
      (run_email_campaign sender_email sender_name api_key csv email_html
         email_txt sg clock writable rand batch_size file).1
      (run_email_campaign sender_email sender_name api_key csv email_html
         email_txt sg clock writable rand batch_size file).2
      new_items recipients.
Proof.
  set (pd0 := load_progress file).
  set (unsent := unsent_emails (load_email_list csv) pd0).
  set (remaining := emails_remaining (get_campaign_stats csv pd0)).
  set (sends := remaining ≠ 0%Z ∧ unsent ≠ [] ∧ (0 ≤ batch_size)%Z
                ∧ truthy api_key = true).
  assert (∀ s raised,
    progress_data s = pd0 → progress_file s = file →
    gateway_calls (trace s) = [] →
    successful_sends s = 0%Z → failed_sends s = 0%Z →
    (sends → Z.min batch_size (Z.of_nat (length unsent)) = 0%Z) →
    (raised = None
     ↔ ¬ (remaining ≠ 0%Z ∧ unsent ≠ [] ∧ (batch_size < 0)%Z)) →
    run_facts csv email_html email_txt api_key writable batch_size file
      s raised [] []) as Hidle.
  { intros s raised Hpd Hfile Hcalls Hok Hbad Hnot Hraised.
    unfold run_facts. cbv zeta. fold pd0 unsent remaining. fold sends.
    rewrite app_nil_r, Hpd.
    split; [reflexivity|].
    split; [apply NoDup_nil_2|]. split; [apply list_subseteq_nil|].
    split; [apply Forall_nil_2|].
    split; [intros Hs; apply Hnot in Hs; simpl; lia|].
    split; [reflexivity|]. split; [now split|].
    split; [exact Hok|]. split; [exact Hbad|].
    split; [unfold recipients_called; now rewrite Hcalls|].
    split; [reflexivity|]. split; [unfold count; simpl; lia|].
    split; [intros _ H; contradiction|].
    split; [intros e _; split; [reflexivity|apply Forall_nil_2]|].
    split; [exact Hraised|].
    intros it Hit. apply elem_of_nil in Hit. contradiction. }
  pose proof (get_unsent_emails_cases pd0 batch_size) as Hget.
  cbv zeta in Hget. fold unsent in Hget.
  unfold run_email_campaign. cbv zeta. fold pd0. fold remaining.
  case_bool_decide as Hrem.
  { exists [], []. apply Hidle; try reflexivity.
    - unfold sends. tauto.
    - split; [tauto|reflexivity]. }
  destruct (get_unsent_emails rand csv pd0 batch_size) as [targets|e].
  2:{ destruct Hget as (Hne & Hneg & ->).
      exists [], []. apply Hidle; try reflexivity.
      - unfold sends. intros (_ & _ & Hpos & _). lia.
      - split; [discriminate|]. intros H. exfalso. apply H. tauto. }
  destruct Hget as (Hsub & Hnd & Hsize).
  destruct targets as [|r rest].
  { exists [], []. apply Hidle; try reflexivity.
    - unfold sends.
      destruct Hsize as [[Hnil _]|(_ & Hpos & Hlen)]; [tauto|].
      simpl in Hlen. intros _. lia.
    - split; [|reflexivity]. intros _ (_ & Hne & Hneg).
      destruct Hsize as [[Hnil _]|(_ & Hpos & _)]; [contradiction|lia]. }
  destruct Hsize as [[_ [=]]|(Hne & Hpos & Hlen)].
  unfold new_emailer. destruct (truthy api_key) eqn:Hkey; cbn [require].
  2:{ exists [], []. apply Hidle; try reflexivity.
      - unfold sends. intros (_ & _ & _ & [=]).
      - split; [|reflexivity]. intros _ (_ & _ & Hneg). lia. }
  cbn [progress_data progress_file trace].
  set (s0 := {| progress_data := pd0; progress_file := file;
                successful_sends := 0; failed_sends := 0;
                trace := _ |}).
  destruct (send_all_spec (length (r :: rest)) (r :: rest) 1 s0 Hkey Hnd)
    as (s' & new_items & recipients & Hall & Hitems & Haddr & Hout & Hok
        & Hbad & Hcalls & Hsubl & Hle & Hfile & _ & Hraise & Hsucc).
  { intros r' Hr'. apply unsent_not_recorded. now apply Hsub. }
  rewrite Hall. exists new_items, recipients.
  unfold run_facts. cbv zeta. fold pd0 unsent remaining. fold sends.
  cbn [fst snd progress_data progress_file successful_sends failed_sends
       trace].
  assert (new_items ≠ []) as Hnonempty
    by (intros ->; discriminate Haddr).
  split; [exact Hitems|]. split; [now rewrite Haddr|].
  split; [now rewrite Haddr|]. split; [exact Hout|].
  split; [intros _; rewrite <- Hlen, <- Haddr; now rewrite length_fmap|].
  split; [intros Hnot; exfalso; apply Hnot; unfold sends; tauto|].
  split; [intros ->; contradiction|].
  split; [rewrite Hok; simpl; lia|]. split; [rewrite Hbad; simpl; lia|].
  split.
  { unfold recipients_called. rewrite gateway_calls_app. simpl.
    rewrite app_nil_r. fold (recipients_called (trace s')). rewrite Hcalls.
    reflexivity. }
  split; [now rewrite Haddr|]. split; [exact Hle|].
  split; [intros Hw _; apply Hfile; [exact Hw|discriminate]|].
  split; [exact Hraise|].
  split; [split; [intros _ (_ & _ & Hneg); lia|reflexivity]|].
  exact Hsucc.
Qed.

(** After a run whose writes all succeed, the progress file holds the
    ledger that the run ended with. *)
Lemma run_email_campaign_file batch_size file :
  (∀ k, writable k = true) →
  let s :=
    (run_email_campaign sender_email sender_name api_key csv email_html
       email_txt sg clock writable rand batch_size file).1 in
  load_progress (progress_file s) = progress_data s.
Proof.
  intros Hw s.
  destruct (run_email_campaign_summary batch_size file)
    as (new_items & recipients & Hfacts).
  fold s in Hfacts. unfold run_facts in Hfacts. cbv zeta in Hfacts.
  destruct Hfacts as (_ & _ & _ & _ & _ & _ & Hnil & _ & _ & _ & _ & _
                      & Hfile & _).
  destruct new_items as [|it items].
  - destruct (Hnil eq_refl) as [-> ->]. reflexivity.
  - rewrite Hfile; [reflexivity|assumption|discriminate].
Qed.

(** The addresses handed to the gateway are in the ledger afterwards. *)
Lemma run_email_campaign_called batch_size file :
  let s :=
    (run_email_campaign sender_email sender_name api_key csv email_html
       email_txt sg clock writable rand batch_size file).1 in
  ∃ recipients,
    recipients_called (trace s) = (λ r, [r]) <$> recipients
    ∧ NoDup recipients
    ∧ recipients ⊆ unsent_emails (load_email_list csv) (load_progress file)
    ∧ recipients ⊆ addresses (progress_data s)
    ∧ ((0 ≤ batch_size)%Z → (Z.of_nat (length recipients) ≤ batch_size)%Z).
Proof.
  intros s.
  destruct (run_email_campaign_summary batch_size file)
    as (new_items & recipients & Hfacts).
  fold s in Hfacts. unfold run_facts in Hfacts. cbv zeta in Hfacts.
  destruct Hfacts as (Hitems & Hnd & Hsub & _ & Hsends & Hidle & _ & _ & _
                      & Hcalls & Hsubl & _).
  exists recipients. split; [exact Hcalls|].
  split; [eapply sublist_NoDup; eassumption|].
  assert (recipients ⊆ address <$> new_items) as Hin
    by now apply sublist_subseteq.
  split; [intros r Hr; auto|].
  split.
  { intros r Hr. unfold addresses. rewrite Hitems, fmap_app.
    apply elem_of_app. right. auto. }
  intros Hpos. apply sublist_length in Hsubl. rewrite length_fmap in Hsubl.
  match type of Hsends with
  | ?sends → _ => destruct (decide sends) as [Hs|Hs]
  end.
  - apply Hsends in Hs. lia.
  - apply Hidle in Hs. subst new_items. simpl in Hsubl. lia.
Qed.

(** X13. Whatever the ledger, the batch size and the provider's replies,
    a run hands to the gateway only messages for one address each; these
    addresses are pairwise different, each of them was unsent when the run
    began, so none of them has an item in the ledger in any letter case,
    and they are at most [batch_size] many; after the run each of them is
    an address of the ledger. *)
Theorem run_email_campaign_recipients batch_size file :
  let s :=
    (run_email_campaign sender_email sender_name api_key csv email_html
       email_txt sg clock writable rand batch_size file).1 in
  ∃ recipients,
    recipients_called (trace s) = (λ r, [r]) <$> recipients
    ∧ NoDup recipients
    ∧ recipients ⊆ unsent_emails (load_email_list csv) (load_progress file)
    ∧ (∀ r it, r ∈ recipients → it ∈ get_sent_emails (load_progress file) →
               lower (address it) ≠ lower r)
    ∧ recipients ⊆ addresses (progress_data s)
    ∧ ((0 ≤ batch_size)%Z → (Z.of_nat (length recipients) ≤ batch_size)%Z).
Proof.
  intros s.
  destruct (run_email_campaign_called batch_size file)
    as (recipients & Hcalls & Hnd & Hun & Hin & Hlen).
  exists recipients. repeat split; try assumption.
  intros r it Hr Hit. eapply unsent_emails_not_attempted; eauto.
Qed.

(** X14. A run only appends to the ledger: one dictionary item with a
    [success] value for each address of the batch, for pairwise different
    addresses that were unsent. The counts of the batch summary are the
    numbers of new items that count as successful and as failed, and no
    more items are successful than messages were handed to the gateway. The
    batch has min([batch_size], number of unsent addresses) addresses when
    the run gets to send; it does not when nothing remains, nothing is
    unsent, [batch_size] is negative or the API key is empty, and then the
    ledger and the file stay as they were. A ledger that belonged to the
    file before the run belongs to it afterwards. *)
Theorem run_email_campaign_ledger batch_size file :
  let pd0 := load_progress file in
  let unsent := unsent_emails (load_email_list csv) pd0 in
  let s :=
    (run_email_campaign sender_email sender_name api_key csv email_html
       email_txt sg clock writable rand batch_size file).1 in
  let sends :=
    emails_remaining (get_campaign_stats csv pd0) ≠ 0%Z ∧ unsent ≠ []
    ∧ (0 ≤ batch_size)%Z ∧ truthy api_key = true in
  ∃ new_items,
    get_sent_emails (progress_data s) = get_sent_emails pd0 ++ new_items
    ∧ NoDup (address <$> new_items)
    ∧ address <$> new_items ⊆ unsent
    ∧ Forall has_outcome new_items
    ∧ successful_sends s = count is_successful new_items
    ∧ failed_sends s = count is_failed new_items
    ∧ (successful_sends s + failed_sends s
       = Z.of_nat (length new_items))%Z
    ∧ (successful_sends s
       ≤ Z.of_nat (length (gateway_calls (trace s))))%Z
    ∧ (sends → Z.of_nat (length new_items)
               = Z.min batch_size (Z.of_nat (length unsent)))
    ∧ (¬ sends →
       new_items = [] ∧ progress_data s = pd0 ∧ progress_file s = file)
    ∧ (matches_list csv pd0 → matches_list csv (progress_data s)).
Proof.
  intros pd0 unsent s sends.
  destruct (run_email_campaign_summary batch_size file)
    as (new_items & recipients & Hfacts).
  fold s in Hfacts. unfold run_facts in Hfacts. cbv zeta in Hfacts.
  fold pd0 unsent in Hfacts. fold sends in Hfacts.
  destruct Hfacts as (Hitems & Hnd & Hsub & Hout & Hsends & Hidle & Hnil
                      & Hok & Hbad & Hcalls & Hsubl & Hle & _).
  exists new_items.
  split; [exact Hitems|]. split; [exact Hnd|]. split; [exact Hsub|].
  split; [exact Hout|]. split; [exact Hok|]. split; [exact Hbad|].
  split; [rewrite Hok, Hbad; now apply count_outcomes|].
  split.
  { rewrite Hok. unfold recipients_called in Hcalls.
    apply (f_equal length) in Hcalls. rewrite !length_fmap in Hcalls. lia. }
  split; [exact Hsends|].
  split; [intros Hnot; specialize (Hidle Hnot); subst; split;
            [reflexivity|now apply Hnil]|].
  intros [Hnd0 Hsub0]. unfold matches_list, addresses.
  rewrite Hitems, fmap_app. split.
  - apply NoDup_app. split; [exact Hnd0|]. split; [|exact Hnd].
    intros x Hx Hnew. apply Hsub in Hnew.
    now apply (unsent_not_recorded pd0 x).
  - intros x [Hx|Hx]%elem_of_app; [now apply Hsub0|].
    apply Hsub in Hx. now apply list_elem_of_filter in Hx.
Qed.

(** X15. When the content cannot be read (no [email.html] and no
    [email.txt], or a first line that does not start with [SUBJECT:]), a
    run that gets to send does not stop: it hands nothing to the gateway
    and records every address of the batch as failed with the text of the
    error, so these addresses are not selected again. *)
Theorem run_email_campaign_content_error batch_size file e :
  read_email_content email_html email_txt = Raise e →
  truthy api_key = true →
  (0 ≤ batch_size)%Z →
  let pd0 := load_progress file in
  let unsent := unsent_emails (load_email_list csv) pd0 in
  emails_remaining (get_campaign_stats csv pd0) ≠ 0%Z →
  let s :=
    (run_email_campaign sender_email sender_name api_key csv email_html
       email_txt sg clock writable rand batch_size file).1 in
  gateway_calls (trace s) = []
  ∧ ∃ new_items,
      get_sent_emails (progress_data s) = get_sent_emails pd0 ++ new_items
      ∧ Z.of_nat (length new_items)
        = Z.min batch_size (Z.of_nat (length unsent))
      ∧ address <$> new_items ⊆ unsent
      ∧ Forall (failed_with (str_of_exn e)) new_items
      ∧ failed_sends s = Z.of_nat (length new_items)
      ∧ successful_sends s = 0%Z.
Proof.
  intros Hraise Hkey Hpos pd0 unsent Hrem s.
  destruct (run_email_campaign_summary batch_size file)
    as (new_items & recipients & Hfacts).
  fold s in Hfacts. unfold run_facts in Hfacts. cbv zeta in Hfacts.
  fold pd0 unsent in Hfacts.
  destruct Hfacts as (Hitems & Hnd & Hsub & Hout & Hsends & Hidle & Hnil
                      & Hok & Hbad & Hcalls & Hsubl & Hle & _ & Hfail & _).
  destruct (Hfail e Hraise) as [-> Hall].
  split.
  { unfold recipients_called in Hcalls.
    destruct (gateway_calls (trace s)); [reflexivity|discriminate]. }
  exists new_items. split; [exact Hitems|].
  assert (Z.of_nat (length new_items)
          = Z.min batch_size (Z.of_nat (length unsent))) as Hlen.
  { destruct (decide (unsent = [])) as [Hnone|Hsome].
    - rewrite Hidle by tauto. rewrite Hnone. simpl. lia.
    - apply Hsends. tauto. }
  split; [exact Hlen|]. split; [exact Hsub|]. split; [exact Hall|].
  simpl in Hle.
  pose proof (proj1 (count_outcomes new_items)) as Hsum.
  pose proof (proj2 (proj2 (count_outcomes new_items)) Hout).
  pose proof (count_bounds is_successful new_items).
  rewrite Hok, Hbad. lia.
Qed.

(** X16. On a progress file that is missing, that cannot be read, that
    line 207 cannot read, or that holds a ledger of the schema,
    [run_email_campaign] lets an exception out exactly when [batch_size] is
    negative while addresses remain and are unsent: then [random.sample]
    raises; nothing has been handed to the gateway and the ledger and the
    file are as they were. Nothing is said of a file that holds an object
    outside the schema, on which the code raises elsewhere as well. *)
Theorem run_email_campaign_raises_iff batch_size raw file :
  ProgressFile.abstract raw = Some file →
  let pd0 := load_progress file in
  let run :=
    run_email_campaign sender_email sender_name api_key csv email_html
      email_txt sg clock writable rand batch_size file in
  (run.2 ≠ None
   ↔ emails_remaining (get_campaign_stats csv pd0) ≠ 0%Z
     ∧ unsent_emails (load_email_list csv) pd0 ≠ []
     ∧ (batch_size < 0)%Z)
  ∧ (run.2 ≠ None →
     gateway_calls (trace run.1) = []
     ∧ progress_data run.1 = pd0 ∧ progress_file run.1 = file).
Proof.
  intros _ pd0 run.
  destruct (run_email_campaign_summary batch_size file)
    as (new_items & recipients & Hfacts).
  fold run in Hfacts. unfold run_facts in Hfacts. cbv zeta in Hfacts.
  fold pd0 in Hfacts.
  destruct Hfacts as (Hitems & _ & _ & _ & _ & Hidle & Hnil & _ & _ & Hcalls
                      & Hsubl & _ & _ & _ & Hraised & _).
  assert (run.2 ≠ None
          ↔ emails_remaining (get_campaign_stats csv pd0) ≠ 0%Z
            ∧ unsent_emails (load_email_list csv) pd0 ≠ []
            ∧ (batch_size < 0)%Z) as Hiff.
  { rewrite Hraised. split; [|tauto]. intros Hnn.
    destruct (decide (emails_remaining (get_campaign_stats csv pd0) = 0%Z));
      [exfalso; apply Hnn; tauto|].
    destruct (decide (unsent_emails (load_email_list csv) pd0 = []));
      [exfalso; apply Hnn; tauto|].
    destruct (decide (batch_size < 0)%Z); [tauto|].
    exfalso. apply Hnn. tauto. }
  split; [exact Hiff|]. intros (_ & _ & Hneg)%Hiff.
  rewrite Hidle in * by (intros (_ & _ & ? & _); lia).
  apply sublist_nil_r in Hsubl. subst recipients.
  split; [|now apply Hnil].
  unfold recipients_called in Hcalls.
  destruct (gateway_calls (trace run.1)); [reflexivity|discriminate].
Qed.

(** X17. When every write of the progress file succeeds, the file holds,
    after the run, the ledger that the run ended with: loading it gives
    that ledger back. *)
Theorem run_email_campaign_persisted batch_size file :
  (∀ k, writable k = true) →
  let s :=
    (run_email_campaign sender_email sender_name api_key csv email_html
       email_txt sg clock writable rand batch_size file).1 in
  load_progress (progress_file s) = progress_data s.
Proof. exact (run_email_campaign_file batch_size file). Qed.

End RunMore.

(** ** Runs on concrete files, and one run after another *)

Section RunsMore.
Import PyStr Source Random Emailer Ledger LedgerSpec Campaign DriverSpec.

(** A negative batch size, on a missing progress file and a list of one
    address. *)
Lemma run_email_campaign_raises_iff_witness :
  let csv := ascii_file ["email"] (one_column "email" ["a@x.com"]) in
  let run :=
    run_email_campaign "sender@x.com" "Sender" "key" csv None
      (Some (Ok ["SUBJECT: Hello"; "text"])) (λ _ _, Response 202 "" [])
      (λ _, "t") (λ _, true) (λ n, n) (-1) NoFile in
  ProgressFile.abstract ProgressFile.Missing = Some NoFile
  ∧ run.2 ≠ None
  ∧ gateway_calls (trace run.1) = [].
Proof.
  intros csv run. split; [reflexivity|].
  destruct (run_email_campaign_raises_iff "sender@x.com" "Sender" "key" csv
              None (Some (Ok ["SUBJECT: Hello"; "text"]))
              (λ _ _, Response 202 "" []) (λ _, "t") (λ _, true) (λ n, n)
              (-1) ProgressFile.Missing NoFile eq_refl) as [Hiff Hkeep].
  fold run in Hiff, Hkeep.
  assert (run.2 ≠ None) as Hraised.
  { apply Hiff. split; [vm_compute; discriminate|].
    split; [vm_compute; discriminate|reflexivity]. }
  split; [exact Hraised|]. exact (proj1 (Hkeep Hraised)).
Defined.

(** No content file, three unsent addresses, a batch of two. *)
Lemma run_email_campaign_content_error_witness :
  let csv :=
    ascii_file ["email"] (one_column "email" ["a@x.com"; "b@x.com"; "c@x.com"]) in
  let s :=
    (run_email_campaign "sender@x.com" "Sender" "key" csv None None
       (λ _ _, Response 202 "" []) (λ _, "t") (λ _, true) (λ n, n) 2
       NoFile).1 in
  read_email_content None None
  = Raise (RuntimeError
      "No email.html or email.txt found. Please create one with 'SUBJECT: ...' as the first line.")
  ∧ gateway_calls (trace s) = []
  ∧ addresses (progress_data s) = ["a@x.com"; "b@x.com"]
  ∧ failed_sends s = 2%Z.
Proof.
  intros csv s. split; [reflexivity|].
  assert (emails_remaining (get_campaign_stats csv (load_progress NoFile))
          ≠ 0%Z) as Hrem by (vm_compute; discriminate).
  destruct (run_email_campaign_content_error "sender@x.com" "Sender" "key"
              csv None None (λ _ _, Response 202 "" []) (λ _, "t")
              (λ _, true) (λ n, n) 2 NoFile _ eq_refl eq_refl
              (Z.le_0_2) Hrem) as (Hcalls & _).
  split; [exact Hcalls|]. split; vm_compute; reflexivity.
Defined.

(** Two addresses, a provider that accepts the first message and refuses
    the second. *)
Lemma run_email_campaign_persisted_witness :
  let s :=
    (run_email_campaign "sender@x.com" "Sender" "key"
       (ascii_file ["email"] (one_column "email" ["a@x.com"; "b@x.com"]))
       None (Some (Ok ["SUBJECT: Hello"; "text"]))
       (λ k _, if (k <? 4)%nat then Response 202 "" [] else Response 500 "" [])
       (λ _, "t") (λ _, true) (λ _, 0) 50 NoFile).1 in
  (∀ k : nat, (λ _ : nat, true) k = true)
  ∧ load_progress (progress_file s) = progress_data s
  ∧ successful_sends s = 1%Z ∧ failed_sends s = 1%Z.
Proof.
  intros s. split; [reflexivity|]. split; [|split; vm_compute; reflexivity].
  apply (run_email_campaign_persisted "sender@x.com" "Sender" "key"
           (ascii_file ["email"] (one_column "email" ["a@x.com"; "b@x.com"]))
           None (Some (Ok ["SUBJECT: Hello"; "text"]))
           (λ k _, if (k <? 4)%nat then Response 202 "" []
                   else Response 500 "" [])
           (λ _, "t") (λ _, true) (λ _, 0) 50 NoFile).
  reflexivity.
Defined.

(** X18. Resuming does not send twice when the first run starts on a
    progress file that is missing, that cannot be read, that line 207
    cannot read, or that holds a ledger of the schema. When every write of
    the progress file succeeds in such a run, a later run started on the
    file that the first one left, with whatever recipient file, settings,
    batch size and provider, hands to the gateway no address that the first
    run handed to it, in any letter case. Nothing is said of a first run on
    a file that holds an object outside the schema: there the code can
    raise after a gateway call and before the record is made. *)
Theorem run_email_campaign_resume
    sender_email sender_name api_key csv email_html email_txt sg clock
    writable rand batch_size raw file
    sender_email' sender_name' api_key' csv' email_html' email_txt' sg'
    clock' writable' rand' batch_size' to1 to2 a b :
  ProgressFile.abstract raw = Some file →
  (∀ k, writable k = true) →
  let s1 :=
    (run_email_campaign sender_email sender_name api_key csv email_html
       email_txt sg clock writable rand batch_size file).1 in
  let s2 :=
    (run_email_campaign sender_email' sender_name' api_key' csv' email_html'
       email_txt' sg' clock' writable' rand' batch_size'
       (progress_file s1)).1 in
  to1 ∈ recipients_called (trace s1) →
  to2 ∈ recipients_called (trace s2) →
  a ∈ to1 → b ∈ to2 →
  lower a ≠ lower b.
Proof.
  intros _ Hw s1 s2 Hto1 Hto2 Ha Hb.
  destruct (run_email_campaign_called sender_email sender_name api_key csv
              email_html email_txt sg clock writable rand batch_size file)
    as (rs1 & Hcalls1 & _ & _ & Hin1 & _).
  destruct (run_email_campaign_called sender_email' sender_name' api_key'
              csv' email_html' email_txt' sg' clock' writable' rand'
              batch_size' (progress_file s1))
    as (rs2 & Hcalls2 & _ & Hun2 & _).
  fold s1 in Hcalls1, Hin1. fold s2 in Hcalls2.
  pose proof (run_email_campaign_file sender_email sender_name api_key csv
                email_html email_txt sg clock writable rand batch_size file
                Hw) as Hfile.
  cbv zeta in Hfile. fold s1 in Hfile. rewrite Hfile in Hun2.
  rewrite Hcalls1 in Hto1. rewrite Hcalls2 in Hto2.
  apply list_elem_of_fmap in Hto1 as (r1 & -> & Hr1).
  apply list_elem_of_fmap in Hto2 as (r2 & -> & Hr2).
  apply list_elem_of_singleton in Ha, Hb. subst a b.
  apply Hin1 in Hr1. apply Hun2 in Hr2.
  unfold addresses in Hr1. apply list_elem_of_fmap in Hr1 as (it & -> & Hit).
  eapply unsent_emails_not_attempted; eassumption.
Qed.

(** Three addresses: a first run with a batch of two, then a second run on
    the file it left. *)
Lemma run_email_campaign_resume_witness :
  let csv :=
    ascii_file ["email"] (one_column "email" ["a@x.com"; "b@x.com"; "c@x.com"]) in
  let run file :=
    (run_email_campaign "sender@x.com" "Sender" "key" csv None
       (Some (Ok ["SUBJECT: Hello"; "text"])) (λ _ _, Response 202 "" [])
       (λ _, "t") (λ _, true) (λ n, n) 2 file).1 in
  ProgressFile.abstract ProgressFile.Missing = Some NoFile
  ∧ (∀ k : nat, (λ _ : nat, true) k = true)
  ∧ recipients_called (trace (run NoFile)) = [["a@x.com"]; ["b@x.com"]]
  ∧ recipients_called (trace (run (progress_file (run NoFile))))
    = [["c@x.com"]]
  ∧ lower "b@x.com" ≠ lower "c@x.com".
Proof.
  intros csv run. split; [reflexivity|]. split; [reflexivity|].
  assert (recipients_called (trace (run NoFile))
          = [["a@x.com"]; ["b@x.com"]]) as H1 by (vm_compute; reflexivity).
  assert (recipients_called (trace (run (progress_file (run NoFile))))
          = [["c@x.com"]]) as H2 by (vm_compute; reflexivity).
  split; [exact H1|]. split; [exact H2|].
  apply (run_email_campaign_resume "sender@x.com" "Sender" "key" csv None
           (Some (Ok ["SUBJECT: Hello"; "text"])) (λ _ _, Response 202 "" [])
           (λ _, "t") (λ _, true) (λ n, n) 2 ProgressFile.Missing NoFile
           "sender@x.com" "Sender" "key" csv None
           (Some (Ok ["SUBJECT: Hello"; "text"])) (λ _ _, Response 202 "" [])
           (λ _, "t") (λ _, true) (λ n, n) 2
           ["b@x.com"] ["c@x.com"] "b@x.com" "c@x.com").
  - reflexivity.
  - reflexivity.
  - fold (run NoFile). rewrite H1. right. left.
  - fold (run NoFile). fold (run (progress_file (run NoFile))).
    rewrite H2. left.
  - left.
  - left.
Defined.

End RunsMore.

(** ** The test-address dialog against [validate_email] *)

Section GuiMore.
Import PyStr Regex Emailer Gui.

Lemma contains_append_r c s1 s2 :
  contains c s2 = true → contains c (s1 +:+ s2) = true.
Proof.
  intros H. induction s1 as [|d s1 IH]; [exact H|].
  rewrite append_cons. simpl. now destruct (ascii_dec c d).
Qed.

Lemma length_append s1 s2 :
  String.length (s1 +:+ s2) = String.length s1 + String.length s2.
Proof.
  induction s1 as [|d s1 IH]; [reflexivity|].
  rewrite append_cons. simpl. now rewrite IH.
Qed.

Lemma partition_at local rest :
  all_chars local_char local = true →
  partition "@" (local +:+ "@" +:+ rest) = (local, "@", rest).
Proof.
  induction local as [|d local IH]; [reflexivity|]. cbn [all_chars].
  intros [Hd Hl]%andb_prop. rewrite append_cons. cbn [partition].
  destruct (ascii_dec "@" d) as [<-|_]; [discriminate Hd|].
  now rewrite (IH Hl).
Qed.

(** X19. Every address that [validate_email] accepts passes
    [is_valid_email], the check of the test-address dialog. The dialog's
    check is the weaker one: it lets [a b@x.y z] through, which
    [validate_email] rejects. *)
Theorem is_valid_email_weaker email :
  (validate_email email = true → is_valid_email email = true)
  ∧ is_valid_email "a b@x.y z" = true
  ∧ validate_email "a b@x.y z" = false.
Proof.
  split; [|split; vm_compute; reflexivity].
  intros (local & domain & tld & final & -> & [Hl Hlocal] & [Hd _]
          & [Ht _] & _)%validate_email_shape.
  unfold is_valid_email.
  assert (truthy (local +:+ "@" +:+ domain +:+ "." +:+ tld +:+ final) = true)
    as -> by (destruct local; [contradiction|reflexivity]).
  assert (contains "@" (local +:+ "@" +:+ domain +:+ "." +:+ tld +:+ final)
          = true) as -> by now apply contains_append_r.
  cbn [negb orb]. rewrite (partition_at _ _ Hlocal).
  rewrite (contains_append_r "." domain) by reflexivity.
  rewrite !length_append.
  destruct local; [contradiction|]. destruct domain; [contradiction|].
  simpl. apply Nat.ltb_lt. lia.
Qed.

(** [bob@y.org] is accepted by both. *)
Lemma is_valid_email_weaker_witness :
  validate_email "bob@y.org" = true ∧ is_valid_email "bob@y.org" = true.
Proof.
  assert (validate_email "bob@y.org" = true) as H by (vm_compute; reflexivity).
  split; [exact H|].
  exact (proj1 (is_valid_email_weaker "bob@y.org") H).
Defined.

End GuiMore.

(** ** The order of sending, saving and sleeping *)

Section OrderMore.
Import PyStr Source Random Emailer Ledger LedgerSpec Campaign DriverSpec.

Variables sender_email sender_name api_key : string.
Variable csv : source.
Variables email_html email_txt : content_file.
Variable sg : nat → mail → reply.
Variable clock : nat → string.
Variable writable : nat → bool.
Variable rand : nat → nat.

Lemma unsaved_app t1 : ∀ pending t2,
  unsaved pending (t1 ++ t2) = unsaved (unsaved pending t1) t2.
Proof.
  induction t1 as [|ev t1 IH]; intros pending t2; [reflexivity|].
  destruct ev; simpl; apply IH.
Qed.

Lemma saved_app t1 : ∀ pending t2,
  saved_before_each_call pending (t1 ++ t2)
  ↔ saved_before_each_call pending t1
    ∧ saved_before_each_call (unsaved pending t1) t2.
Proof.
  induction t1 as [|ev t1 IH]; intros pending t2; simpl; [tauto|].
  destruct ev; simpl; try apply IH.
  rewrite IH. split.
  - intros (-> & H1 & H2). tauto.
  - intros ((-> & H1) & H2). tauto.
Qed.

Lemma called_after_app t1 : ∀ called t2,
  called_after called (t1 ++ t2) = called_after (called_after called t1) t2.
Proof.
  induction t1 as [|ev t1 IH]; intros called t2; [reflexivity|].
  destruct ev; simpl; apply IH.
Qed.

Lemma sleeps_app t1 : ∀ called t2,
  sleeps_between_calls called (t1 ++ t2)
  ↔ sleeps_between_calls called t1
    ∧ sleeps_between_calls (called_after called t1) t2.
Proof.
  induction t1 as [|ev t1 IH]; intros called t2; simpl; [tauto|].
  destruct ev; simpl; try apply IH; rewrite IH; tauto.
Qed.

(** A trace in which every call finds the file up to date, that ends with
    the file up to date, and that sleeps after every call. *)
Lemma in_order_app t step :
  (saved_before_each_call [] t ∧ unsaved [] t = []) →
  (saved_before_each_call [] step ∧ unsaved [] step = []) →
  saved_before_each_call [] (t ++ step) ∧ unsaved [] (t ++ step) = [].
Proof.
  intros [Hs Hu] [Hs' Hu']. rewrite saved_app, unsaved_app, Hu. tauto.
Qed.

Lemma sleeping_app t step :
  (sleeps_between_calls false t ∧ called_after false t = false) →
  (sleeps_between_calls false step ∧ called_after false step = false) →
  sleeps_between_calls false (t ++ step)
  ∧ called_after false (t ++ step) = false.
Proof.
  intros [Hs Hc] [Hs' Hc']. rewrite sleeps_app, called_after_app, Hc. tauto.
Qed.

Lemma mark_email_sent_recorded now email ok msg pd :
  email ∈ addresses (mark_email_sent now email ok msg pd).
Proof.
  unfold addresses. rewrite mark_email_sent_sent_emails.
  case_bool_decide as Hin; [exact Hin|].
  rewrite fmap_app. apply elem_of_app. right. left.
Qed.

(** The events of one pass of the loop. *)
Lemma send_one_trace n i recipient s :
  truthy api_key = true →
  ∃ s' step,
    send_one sender_email sender_name api_key email_html email_txt sg clock
      writable n i recipient s = Ok s'
    ∧ trace s' = trace s ++ step
    ∧ sleeps_between_calls false step ∧ called_after false step = false
    ∧ ((∀ k, writable k = true) →
       saved_before_each_call [] step ∧ unsaved [] step = []).
Proof.
  intros Hkey. unfold send_one.
  destruct (send_campaign_email_spec sender_email sender_name api_key
              email_html email_txt sg
              (trace s ++ [Output (SendingTo i n recipient)]) recipient false
              Hkey) as (res & evs & -> & Hcalls & _ & _ & Hevs).
  cbn [mbind result_bind]. specialize (Hevs eq_refl).
  set (sent := gateway_calls evs) in *. rewrite Hevs. clear Hevs.
  set (t2 := (trace s ++ [Output (SendingTo i n recipient)])
             ++ (GatewayCall <$> sent)).
  assert (∀ ok msg line,
    let pd1 := mark_email_sent (clock (length t2)) recipient ok msg
                 (progress_data s) in
    let t3 := t2 ++ [Output line] in
    let saved := save_progress (clock (length t3)) (writable (length t3)) pd1
                   (progress_file s) in
    let written :=
      match campaign_stats pd1 with
      | Some _ => if writable (length t3) then [FileWritten saved.1] else []
      | None => []
      end in
    let step := [Output (SendingTo i n recipient)] ++ (GatewayCall <$> sent)
                ++ [Output line] ++ written ++ [Sleep 2] in
    t3 ++ written ++ [Sleep 2] = trace s ++ step
    ∧ sleeps_between_calls false step ∧ called_after false step = false
    ∧ ((∀ k, writable k = true) →
       saved_before_each_call [] step ∧ unsaved [] step = [])) as Hstep.
  { intros ok msg line pd1 t3 saved written step.
    split; [unfold t3, t2, step; now rewrite <- !app_assoc|].
    set (pd' := saved.1) in *.
    assert (recipient ∈ addresses pd') as Hin.
    { unfold addresses, pd', saved. rewrite save_progress_sent.
      apply mark_email_sent_recorded. }
    assert (written = [] ∨ written = [FileWritten pd']) as Hwritten.
    { unfold written. simpl. destruct (writable (length t3)); auto. }
    assert ((∀ k, writable k = true) → written = [FileWritten pd'])
      as Hwritten'.
    { intros Hw. unfold written. simpl. now rewrite Hw. }
    clearbody pd' written. clear saved. subst step.
    split; [|split].
    - destruct Hcalls as [-> |(m & -> & _)], Hwritten as [-> | ->];
        simpl; tauto.
    - destruct Hcalls as [-> |(m & -> & _)], Hwritten as [-> | ->];
        reflexivity.
    - intros Hw. rewrite (Hwritten' Hw).
      destruct Hcalls as [-> |(m & -> & Hto & _)];
        cbn [app fmap list_fmap unsaved saved_before_each_call]; [tauto|].
      rewrite Hto. cbn [app].
      rewrite (filter_none _ [recipient]); [tauto|].
      intros x ->%list_elem_of_singleton H. exact (H Hin). }
  destruct (Emailer.success res).
  - specialize (Hstep true "" Success). cbv zeta in Hstep |- *.
    destruct (save_progress _ _ _ _) as [pd' file'].
    eexists _, _. split; [reflexivity|]. exact Hstep.
  - specialize (Hstep false (default "Unknown error" (Emailer.error res))
                  (Failed (default "Unknown error" (Emailer.error res)))).
    cbv zeta in Hstep |- *.
    destruct (save_progress _ _ _ _) as [pd' file'].
    eexists _, _. split; [reflexivity|]. exact Hstep.
Qed.

Lemma send_all_trace n targets : ∀ i s,
  truthy api_key = true →
  ∃ s' steps,
    send_all sender_email sender_name api_key email_html email_txt sg clock
      writable n i targets s = (s', None)
    ∧ trace s' = trace s ++ steps
    ∧ sleeps_between_calls false steps ∧ called_after false steps = false
    ∧ ((∀ k, writable k = true) →
       saved_before_each_call [] steps ∧ unsaved [] steps = []).
Proof.
  induction targets as [|r rest IH]; intros i s Hkey; simpl.
  - exists s, []. rewrite app_nil_r. simpl. tauto.
  - destruct (send_one_trace n i r s Hkey)
      as (s1 & step & -> & Ht1 & Hsl1 & Hc1 & Hsaved1).
    destruct (IH (S i) s1 Hkey)
      as (s' & steps & -> & Ht & Hsl & Hc & Hsaved).
    exists s', (step ++ steps). split; [reflexivity|].
    split; [now rewrite Ht, Ht1, app_assoc|].
    destruct (sleeping_app step steps) as [Hsl' Hc']; [tauto|tauto|].
    split; [exact Hsl'|]. split; [exact Hc'|].
    intros Hw. apply in_order_app; auto.
Qed.

(** X20. In every run the program sleeps two seconds after a gateway call
    before it makes the next one. When every write of the progress file
    succeeds, each gateway call is made only when the file holds the
    addresses of all calls made before, and at the end of the run the file
    holds the addresses of all calls made. *)
Theorem run_email_campaign_order batch_size file :
  let t :=
    trace (run_email_campaign sender_email sender_name api_key csv email_html
             email_txt sg clock writable rand batch_size file).1 in
  sleeps_between_calls false t
  ∧ ((∀ k, writable k = true) →
     saved_before_each_call [] t ∧ unsaved [] t = []).
Proof.
  unfold run_email_campaign. cbv zeta.
  case_bool_decide; [simpl; tauto|].
  destruct (get_unsent_emails _ _ _ _) as [[|r rest]|e]; [simpl; tauto| |simpl; tauto].
  unfold new_emailer. destruct (truthy api_key) eqn:Hkey; cbn [require];
    [|simpl; tauto].
  cbn [progress_data progress_file trace].
  set (s0 := {| progress_data := load_progress file; progress_file := file;
                successful_sends := 0; failed_sends := 0; trace := _ |}).
  destruct (send_all_trace (length (r :: rest)) (r :: rest) 1 s0 Hkey)
    as (s' & steps & -> & Ht & Hsl & Hc & Hsaved).
  cbn [fst trace]. rewrite Ht. unfold s0. cbn [trace].
  split.
  - rewrite !sleeps_app. cbn [called_after sleeps_between_calls]. tauto.
  - intros Hw. destruct (Hsaved Hw) as [Hs Hu]. split.
    + rewrite !saved_app. cbn [unsaved saved_before_each_call]. tauto.
    + rewrite !unsaved_app. cbn [unsaved]. exact Hu.
Qed.

End OrderMore.

(** ** [send_campaign_email], and the order of a concrete run *)

Section CampaignEmailMore.
Import PyStr Source Random Emailer Ledger LedgerSpec Campaign DriverSpec.

Lemma send_campaign_email_invalid
    sender_email sender_name api_key email_html email_txt sg before recipient
    show res evs :
  validate_email recipient = false ∨ validate_email sender_email = false →
  send_campaign_email sender_email sender_name api_key email_html email_txt
    sg before recipient show = Ok (res, evs) →
  gateway_calls evs = [].
Proof.
  intros Hbad. unfold send_campaign_email.
  destruct (new_emailer api_key); cbn [mbind result_bind]; [|discriminate].
  destruct (read_email_content email_html email_txt)
    as [[[subject plain] html]|e].
  - set (started := if show then [Output (SendingCampaignEmail recipient)]
                    else []).
    assert (∃ text, check_arguments sender_email [recipient] subject plain
                      html = Raise (ValueError text)) as [text Hc].
    { apply check_arguments_rejects. destruct Hbad as [Hr|Hs]; [|now left].
      right. right. left. exists recipient. split; [left|exact Hr]. }
    unfold send_email, send_email_try. rewrite Hc. intros H. simplify_eq.
    unfold started. now destruct show.
  - intros H. simplify_eq. now destruct show.
Qed.

(** X21. [send_campaign_email] raises a [ValueError] when the API key is
    empty. Otherwise it returns a dictionary and hands at most one message
    to the gateway; for a stripped recipient the message goes to this
    address alone, and for a stripped sender it comes from the configured
    sender (what the provider's library makes of an address with a newline
    at its end is not stated). It hands over none, and reports a failure,
    when the content cannot be read, and none when the recipient or the
    configured sender is not a valid address. *)
Theorem send_campaign_email_result
    sender_email sender_name api_key email_html email_txt sg before recipient
    show :
  (truthy api_key = false →
   send_campaign_email sender_email sender_name api_key email_html email_txt
     sg before recipient show
   = Raise (ValueError "SendGrid API key is required."))
  ∧ (truthy api_key = true →
     ∃ res evs,
       send_campaign_email sender_email sender_name api_key email_html
         email_txt sg before recipient show = Ok (res, evs)
       ∧ (gateway_calls evs = []
          ∨ ∃ m, gateway_calls evs = [m]
                 ∧ (strip recipient = recipient → to_list m = [recipient])
                 ∧ (strip sender_email = sender_email →
                    (from_address m).1 = sender_email))
       ∧ (gateway_calls evs = [] → Emailer.success res = false)
       ∧ (∀ e, read_email_content email_html email_txt = Raise e →
               gateway_calls evs = []
               ∧ Emailer.error res = Some (str_of_exn e))
       ∧ (validate_email recipient = false
          ∨ validate_email sender_email = false →
          gateway_calls evs = [])).
Proof.
  split.
  - intros Hkey. unfold send_campaign_email, new_emailer. now rewrite Hkey.
  - intros Hkey.
    destruct (send_campaign_email_spec sender_email sender_name api_key
                email_html email_txt sg before recipient show Hkey)
      as (res & evs & Heq & Hcalls & Hnone & Hraise & _).
    exists res, evs. split; [exact Heq|].
    split; [destruct Hcalls as [Hnil|(m & Hm & Hto & Hfrom)];
            [now left|right; exists m; auto]|].
    split; [exact Hnone|].
    split; [intros e He; destruct (Hraise e He) as (? & _ & ?); auto|].
    intros Hbad. eapply send_campaign_email_invalid; eassumption.
Qed.

(** An address that passes the dialog's check and is not valid: nothing is
    handed to the gateway. *)
Lemma send_campaign_email_result_witness :
  Gui.is_valid_email "a b@x.y z" = true
  ∧ truthy "key" = true
  ∧ ∃ res evs,
      send_campaign_email "sender@x.com" "Sender" "key" None
        (Some (Ok ["SUBJECT: Hello"; "text"])) (λ _ _, Response 202 "" [])
        [] "a b@x.y z" true = Ok (res, evs)
      ∧ gateway_calls evs = [] ∧ Emailer.success res = false.
Proof.
  split; [vm_compute; reflexivity|]. split; [reflexivity|].
  destruct (send_campaign_email_result "sender@x.com" "Sender" "key" None
              (Some (Ok ["SUBJECT: Hello"; "text"]))
              (λ _ _, Response 202 "" []) [] "a b@x.y z" true)
    as [_ H].
  destruct (H eq_refl) as (res & evs & Heq & _ & Hnone & _ & Hbad).
  exists res, evs. split; [exact Heq|].
  assert (gateway_calls evs = []) as Hcalls
    by (apply Hbad; left; vm_compute; reflexivity).
  split; [exact Hcalls|exact (Hnone Hcalls)].
Defined.

(** Two sends with working writes: the file is written and the program
    sleeps between the two calls. *)
Lemma run_email_campaign_order_witness :
  let t :=
    trace (run_email_campaign "sender@x.com" "Sender" "key"
             (ascii_file ["email"] (one_column "email" ["a@x.com"; "b@x.com"]))
             None (Some (Ok ["SUBJECT: Hello"; "text"]))
             (λ _ _, Response 202 "" []) (λ _, "t") (λ _, true) (λ _, 0) 50
             NoFile).1 in
  length (gateway_calls t) = 2
  ∧ sleeps_between_calls false t
  ∧ saved_before_each_call [] t ∧ unsaved [] t = [].
Proof.
  intros t. split; [vm_compute; reflexivity|].
  destruct (run_email_campaign_order "sender@x.com" "Sender" "key"
              (ascii_file ["email"] (one_column "email" ["a@x.com"; "b@x.com"]))
              None (Some (Ok ["SUBJECT: Hello"; "text"]))
              (λ _ _, Response 202 "" []) (λ _, "t") (λ _, true) (λ _, 0) 50
              NoFile) as [Hsleeps Hsaved].
  split; [exact Hsleeps|]. apply Hsaved. reflexivity.
Defined.

(** Two calls in a row are not in order: neither saved nor slept. *)
Example two_calls_in_a_row m1 m2 :
  ¬ saved_before_each_call [] [GatewayCall m1; GatewayCall m2]
  ∨ to_list m1 = [].
Proof.
  destruct (to_list m1) eqn:H; [now right|left].
  simpl. rewrite H. intros (_ & [=] & _).
Qed.

Example two_calls_without_sleep m1 m2 :
  ¬ sleeps_between_calls false [GatewayCall m1; Output Success; GatewayCall m2].
Proof. simpl. intros (_ & [=] & _). Qed.

End CampaignEmailMore.

(** ** The count test of [run_email_campaign] *)

Section CountTestMore.
Import PyStr Source Random Emailer Ledger LedgerSpec Campaign DriverSpec.

(** X22. The "Campaign complete" line depends on two counts only: when the
    ledger has as many items as the list has addresses, a run prints it and
    stops without a gateway call, whether or not addresses of the list are
    unsent. *)
Theorem run_email_campaign_complete_by_count
    sender_email sender_name api_key csv email_html email_txt sg clock
    writable rand batch_size file :
  length (load_email_list csv) = length (get_sent_emails (load_progress file)) →
  ∃ s,
    run_email_campaign sender_email sender_name api_key csv email_html
      email_txt sg clock writable rand batch_size file = (s, None)
    ∧ printed (trace s)
      = [Status (get_campaign_stats csv (load_progress file));
         CampaignComplete]
    ∧ gateway_calls (trace s) = []
    ∧ progress_data s = load_progress file
    ∧ progress_file s = file.
Proof.
  intros Hlen. unfold run_email_campaign. cbv zeta.
  rewrite bool_decide_eq_true_2.
  - eexists. split; [reflexivity|]. repeat split.
  - unfold get_campaign_stats. cbn [emails_remaining]. lia.
Qed.

(** A list with [a@x.com] and a ledger whose only item is for [b@x.com]:
    [a@x.com] is unsent, and the run prints "Campaign complete". *)
Lemma run_email_campaign_complete_by_count_witness :
  let csv := ascii_file ["email"] (one_column "email" ["a@x.com"]) in
  let file := Object (mark_email_sent "t1" "b@x.com" true "" fresh) in
  unsent_emails (load_email_list csv) (load_progress file) = ["a@x.com"]
  ∧ ∃ s,
      run_email_campaign "sender@x.com" "Sender" "key" csv None
        (Some (Ok ["SUBJECT: Hello"; "text"])) (λ _ _, Response 202 "" [])
        (λ _, "t2") (λ _, true) (λ _, 0) 50 file = (s, None)
      ∧ printed (trace s)
        = [Status (get_campaign_stats csv (load_progress file));
           CampaignComplete]
      ∧ gateway_calls (trace s) = []
      ∧ progress_data s = load_progress file
      ∧ progress_file s = file.
Proof.
  intros csv file. split; [vm_compute; reflexivity|].
  apply run_email_campaign_complete_by_count. vm_compute. reflexivity.
Defined.

End CountTestMore.

(** ** What the gateway is handed, and what is recorded as successful *)

Section MessagesMore.
Import PyStr Source Random Emailer Ledger LedgerSpec Campaign DriverSpec.

Variables sender_email sender_name api_key : string.
Variable csv : source.
Variables email_html email_txt : content_file.
Variable sg : nat → mail → reply.
Variable clock : nat → string.
Variable writable : nat → bool.
Variable rand : nat → nat.

Lemma read_email_content_kinds subject plain html :
  read_email_content email_html email_txt = Ok (subject, plain, html) →
  strip subject = subject
  ∧ match email_html with Some _ => plain = "" | None => html = "" end.
Proof.
  unfold read_email_content.
  destruct email_html as [file|]; [|destruct email_txt as [file|]];
    [| |discriminate].
  - destruct (read_content "email.html" file) as [[s b]|e] eqn:Hr;
      cbn [mbind result_bind]; [|discriminate].
    intros H. simplify_eq.
    apply read_content_Ok in Hr as (f & r & _ & _ & -> & _).
    split; [apply strip_idemp|reflexivity].
  - destruct (read_content "email.txt" file) as [[s b]|e] eqn:Hr;
      cbn [mbind result_bind]; [|discriminate].
    intros H. simplify_eq.
    apply read_content_Ok in Hr as (f & r & _ & _ & -> & _).
    split; [apply strip_idemp|reflexivity].
Qed.

(** A message that [send_email] hands to the gateway is the one built from
    its arguments, and these have passed the checks. *)
Lemma send_email_message sg' from_email to_emails subject plain html name m :
  m ∈ (send_email sg' from_email to_emails subject plain html name).2 →
  m = build_message from_email to_emails subject plain html name
  ∧ check_arguments from_email to_emails subject plain html = Ok tt.
Proof.
  unfold send_email, send_email_try.
  destruct (check_arguments _ _ _ _ _) as [[]|e]; cbn [snd].
  - intros ->%list_elem_of_singleton. now split.
  - intros H. apply elem_of_nil in H. contradiction.
Qed.

Lemma send_campaign_email_messages before recipient show res evs :
  send_campaign_email sender_email sender_name api_key email_html email_txt
    sg before recipient show = Ok (res, evs) →
  Forall (campaign_message sender_email sender_name email_html email_txt)
    (gateway_calls evs).
Proof.
  unfold send_campaign_email, new_emailer.
  destruct (truthy api_key); cbn [require mbind result_bind]; [|discriminate].
  destruct (read_email_content email_html email_txt)
    as [[[subject plain] html]|e] eqn:Hread.
  - set (started := if show then [Output (SendingCampaignEmail recipient)]
                    else []).
    pose proof (send_email_message
                  (sg (length (before ++ started))) sender_email [recipient]
                  subject plain html sender_name) as Hm.
    destruct (send_email _ _ _ _ _ _ _) as [res' sent].
    intros H. simplify_eq.
    rewrite !gateway_calls_app, gateway_calls_fmap.
    assert (gateway_calls started = []) as -> by (unfold started; now destruct show).
    match goal with
    | |- context [gateway_calls (if show then ?a else ?b)] =>
        assert (gateway_calls (if show then a else b) = []) as ->
          by now destruct show
    end.
    rewrite app_nil_r. cbn [app].
    apply Forall_forall. intros m Hin.
    destruct (Hm m Hin) as [-> Hcheck].
    apply check_arguments_Ok in Hcheck as (Hfrom & _ & Hto & Hsub & Hbody).
    apply Forall_cons in Hto as [Hto _].
    destruct (read_email_content_kinds _ _ _ Hread) as [Hstrip Hkind].
    unfold campaign_message, build_message.
    cbn [from_address to_list mail_subject contents].
    split; [reflexivity|]. split; [assumption|]. split; [eauto|].
    exists subject, plain, html.
    split; [exact Hread|]. split; [reflexivity|].
    split; [congruence|].
    destruct email_html; subst.
    + destruct Hbody as [Hbody|Hbody]; [contradiction|].
      apply truthy_true in Hbody. now rewrite Hbody.
    + destruct Hbody as [Hbody|Hbody]; [|contradiction].
      apply truthy_true in Hbody. now rewrite Hbody.
  - intros H. simplify_eq.
    replace (gateway_calls _) with (@nil mail) by now destruct show.
    constructor.
Qed.

Lemma send_one_messages n i recipient s s' :
  send_one sender_email sender_name api_key email_html email_txt sg clock
    writable n i recipient s = Ok s' →
  Forall (campaign_message sender_email sender_name email_html email_txt)
    (gateway_calls (trace s)) →
  Forall (campaign_message sender_email sender_name email_html email_txt)
    (gateway_calls (trace s')).
Proof.
  unfold send_one.
  destruct (send_campaign_email _ _ _ _ _ _ _ _ _) as [[res evs]|e] eqn:Hsend;
    cbn [mbind result_bind]; [|discriminate].
  apply send_campaign_email_messages in Hsend.
  intros Hs' Hall.
  destruct (Emailer.success res); cbv zeta in Hs';
    destruct (save_progress _ _ _ _) as [pd' file'] eqn:Hsave in Hs';
    simplify_eq; cbn [trace].
  all: rewrite !gateway_calls_app.
  all: repeat (apply Forall_app; split); try assumption.
  all: repeat case_match; simpl; constructor.
Qed.

Lemma send_all_messages n targets : ∀ i s,
  Forall (campaign_message sender_email sender_name email_html email_txt)
    (gateway_calls (trace s)) →
  Forall (campaign_message sender_email sender_name email_html email_txt)
    (gateway_calls
       (trace (send_all sender_email sender_name api_key email_html email_txt
                 sg clock writable n i targets s).1)).
Proof.
  induction targets as [|r rest IH]; intros i s Hall; simpl; [assumption|].
  destruct (send_one _ _ _ _ _ _ _ _ _ _ _ _) as [s'|e] eqn:Hone;
    [|assumption].
  apply IH. eapply send_one_messages; eassumption.
Qed.

Lemma run_email_campaign_messages_all batch_size file :
  Forall (campaign_message sender_email sender_name email_html email_txt)
    (gateway_calls
       (trace (run_email_campaign sender_email sender_name api_key csv
                 email_html email_txt sg clock writable rand batch_size
                 file).1)).
Proof.
  unfold run_email_campaign. cbv zeta.
  case_bool_decide; [simpl; constructor|].
  destruct (get_unsent_emails rand csv _ batch_size) as [[|r rest]|e];
    [simpl; constructor| |simpl; constructor].
  destruct (new_emailer api_key); [|simpl; constructor].
  cbn [progress_data progress_file trace].
  match goal with
  | |- context [send_all _ _ _ _ _ _ _ _ ?n ?i ?targets ?s0] =>
      pose proof (send_all_messages n targets i s0) as Hall
  end.
  destruct (send_all _ _ _ _ _ _ _ _ _ _ _ _) as [s' [e|]];
    cbn [fst trace] in *.
  - apply Hall. simpl. constructor.
  - rewrite gateway_calls_app. simpl. rewrite app_nil_r.
    apply Hall. simpl. constructor.
Qed.

(** X23. Whatever the recipient file holds, every message that a run hands
    to the gateway comes from the configured sender, with the sender's name
    when there is one, and goes to one address; sender and recipient are
    addresses that [validate_email] accepts; the subject is the stripped
    subject of the content file that is read and is not empty; and the only
    content is the body of that file, HTML from [email.html] and plain text
    from [email.txt]. So a run with a sender that [validate_email] rejects
    hands nothing to the gateway. *)
Theorem run_email_campaign_messages batch_size file :
  let calls :=
    gateway_calls
      (trace (run_email_campaign sender_email sender_name api_key csv
                email_html email_txt sg clock writable rand batch_size
                file).1) in
  Forall (campaign_message sender_email sender_name email_html email_txt)
    calls
  ∧ (validate_email sender_email = false → calls = []).
Proof.
  intros calls.
  pose proof (run_email_campaign_messages_all batch_size file) as Hall.
  fold calls in Hall. split; [exact Hall|].
  intros Hbad. destruct calls as [|m rest]; [reflexivity|].
  apply Forall_cons in Hall as [(_ & Hvalid & _) _]. congruence.
Qed.

(** X24. An address is recorded as successful only when a message for
    exactly this address was handed to the gateway, so only when
    [validate_email] accepts the address and the sender and the content
    could be read. An address of the batch that [validate_email] rejects,
    and every address of the batch when the sender is rejected or the
    content cannot be read, is recorded as failed, and no message for it
    is handed to the gateway. *)
Theorem run_email_campaign_successful_only_if_sent batch_size file :
  let s :=
    (run_email_campaign sender_email sender_name api_key csv email_html
       email_txt sg clock writable rand batch_size file).1 in
  ∃ new_items,
    get_sent_emails (progress_data s)
    = get_sent_emails (load_progress file) ++ new_items
    ∧ (∀ it, it ∈ new_items → recorded_as true it →
         [address it] ∈ recipients_called (trace s)
         ∧ validate_email (address it) = true
         ∧ validate_email sender_email = true
         ∧ ∃ r, read_email_content email_html email_txt = Ok r)
    ∧ (∀ it, it ∈ new_items →
         validate_email (address it) = false
         ∨ validate_email sender_email = false
         ∨ (∃ e, read_email_content email_html email_txt = Raise e) →
         recorded_as false it
         ∧ [address it] ∉ recipients_called (trace s)).
Proof.
  intros s.
  destruct (run_email_campaign_summary sender_email sender_name api_key csv
              email_html email_txt sg clock writable rand batch_size file)
    as (new_items & recipients & Hfacts).
  fold s in Hfacts. unfold run_facts in Hfacts. cbv zeta in Hfacts.
  destruct Hfacts as (Hitems & _ & _ & Hout & _ & _ & _ & _ & _ & Hcalls & _
                      & _ & _ & _ & _ & Hsucc).
  pose proof (run_email_campaign_messages_all batch_size file) as Hall.
  fold s in Hall.
  assert (∀ r, [r] ∈ recipients_called (trace s) →
            validate_email r = true ∧ validate_email sender_email = true
            ∧ ∃ c, read_email_content email_html email_txt = Ok c) as Hcalled.
  { intros r Hr. unfold recipients_called in Hr.
    apply list_elem_of_fmap in Hr as (m & Hm & Hin).
    rewrite Forall_forall in Hall.
    destruct (Hall m Hin) as (_ & Hfrom & (r' & Hto & Hvalid)
                              & subject & plain & html & Hread & _).
    rewrite Hto in Hm. simplify_eq. eauto 10. }
  assert (∀ it, it ∈ new_items → recorded_as true it →
            [address it] ∈ recipients_called (trace s)) as Hsent.
  { intros it Hit (e & -> & He). rewrite Hcalls.
    apply list_elem_of_fmap. eexists. split; [reflexivity|].
    apply Hsucc; [assumption|]. simpl. now rewrite He. }
  exists new_items. split; [exact Hitems|]. split.
  - intros it Hit Hgood. split; [now apply Hsent|].
    apply Hcalled. now apply Hsent.
  - intros it Hit Hbad.
    assert ([address it] ∉ recipients_called (trace s)) as Hnot.
    { intros Hin. apply Hcalled in Hin as (Hv & Hs & c & Hc).
      destruct Hbad as [Hbad|[Hbad|[e Hbad]]]; congruence. }
    split; [|exact Hnot].
    rewrite Forall_forall in Hout.
    destruct (Hout it Hit) as (e & [|] & -> & He).
    + exfalso. apply Hnot. apply Hsent; [assumption|].
      unfold recorded_as. eauto.
    + unfold recorded_as. eauto.
Qed.

End MessagesMore.

(** ** A run over a list with an address that [validate_email] rejects *)

Section RejectedAddress.
Import PyStr Source Random Emailer Ledger LedgerSpec Campaign DriverSpec.

(** The cell [a b@x.com] gets into the list; the run hands nothing to the
    gateway for it and records it as failed. *)
Example rejected_address_is_recorded_as_failed :
  let csv := ascii_file ["email"] (one_column "email" ["a b@x.com"]) in
  let s :=
    (run_email_campaign "sender@x.com" "Sender" "key" csv None
       (Some (Ok ["SUBJECT: Hello"; "text"])) (λ _ _, Response 202 "" [])
       (λ _, "t") (λ _, true) (λ n, n) 50 NoFile).1 in
  load_email_list csv = ["a b@x.com"]
  ∧ gateway_calls (trace s) = []
  ∧ get_sent_emails (progress_data s)
    = [Dict {| email := Some "a b@x.com"; timestamp := "t";
               success := Some false;
               error := "Invalid recipient email: a b@x.com" |}].
Proof. cbv zeta. repeat split; vm_compute; reflexivity. Qed.

End RejectedAddress.

(** * The recipient list and its rows *)

Section RecipientListRows.
Import PyStr Source SourceSpec.






End RecipientListRows.

(** * The progress file as [load_progress] finds it *)

Section ProgressFileLoad.
Import Json ProgressFile.

(** The fresh dictionary is the fresh ledger. *)
Lemma decode_fresh : decode ProgressFile.fresh = Some Ledger.fresh.
Proof. reflexivity. Qed.

(** Line 207 on a value: it passes on a dictionary whose [sent_emails], if
    there, has a length. *)
Lemma load_progress_try_Ok v w :
  load_progress_try (Holds v) = Ok w
  ↔ w = v ∧ ∃ fields,
      v = Obj fields
      ∧ has_len (default (Arr []) (get "sent_emails" fields)) = true.
Proof.
  unfold load_progress_try. split.
  - destruct v as [| | | | |items|fields]; try discriminate.
    destruct (has_len _) eqn:Hlen; [|discriminate].
    intros H. simplify_eq. eauto.
  - intros (-> & fields & -> & Hlen). now rewrite Hlen.
Qed.

(** C8. [load_progress] never raises. It returns the fresh dictionary, a
    ledger without attempts and with [total_sent] 0, when the file is
    missing, when opening or parsing it raises, and when it holds a value
    that line 207 cannot read: one that is not a dictionary, or a dictionary
    whose [sent_emails] has no length. A dictionary that line 207 can read
    is returned as it is, whatever it holds, so what is returned is a
    well-formed ledger exactly when that dictionary is one. Where the file
    is one that [Ledger.stored] stands for, what is returned is the ledger
    that [Ledger.load_progress] gives. *)
Theorem load_progress_total file :
  ∃ v,
    ProgressFile.load_progress file = Ok v
    ∧ (∀ e, load_progress_try file = Raise e → v = ProgressFile.fresh)
    ∧ (file = Missing ∨ (∃ e, file = Fails e)
       ∨ (∃ w, file = Holds w
               ∧ ∀ fields, w = Obj fields →
                   has_len (default (Arr []) (get "sent_emails" fields))
                   = false) →
       v = ProgressFile.fresh ∧ decode v = Some Ledger.fresh)
    ∧ (∀ fields,
         file = Holds (Obj fields) →
         has_len (default (Arr []) (get "sent_emails" fields)) = true →
         v = Obj fields)
    ∧ (well_formed v
       ↔ ∀ fields,
           file = Holds (Obj fields) →
           has_len (default (Arr []) (get "sent_emails" fields)) = true →
           well_formed (Obj fields))
    ∧ (∀ typed, abstract file = Some typed →
         decode v = Some (Ledger.load_progress typed)).
Proof.
  assert (well_formed ProgressFile.fresh) as Hfresh
    by (unfold well_formed; rewrite decode_fresh; eauto).
  unfold ProgressFile.load_progress.
  destruct (load_progress_try file) as [v|e] eqn:Htry.
  - exists v. split; [reflexivity|]. split; [discriminate|].
    destruct file as [|e|w]; simpl in Htry.
    + simplify_eq. split; [now intros _|]. split; [discriminate|].
      split; [split; [discriminate|now intros _]|].
      intros typed [= <-]. reflexivity.
    + discriminate.
    + apply load_progress_try_Ok in Htry as (-> & fields & -> & Hlen).
      split.
      { intros [[=]|[[e [=]]|(w & [= <-] & Hw)]].
        rewrite (Hw fields eq_refl) in Hlen. discriminate. }
      split; [intros fields' [= <-] _; reflexivity|].
      split.
      { split; [intros Hwf fields' [= <-] _; exact Hwf|].
        intros H. now apply (H fields). }
      intros typed. unfold abstract.
      rewrite (proj2 (load_progress_try_Ok (Obj fields) (Obj fields)))
        by eauto.
      destruct (decode (Obj fields)) as [p|]; [|discriminate].
      intros [= <-]. reflexivity.
  - exists ProgressFile.fresh. split; [reflexivity|].
    split; [reflexivity|]. split; [now intros _|].
    destruct file as [|e'|w]; [discriminate Htry| |].
    + split; [discriminate|]. split; [split; [discriminate|now intros _]|].
      intros typed [= <-]. simpl in Htry. simplify_eq. reflexivity.
    + assert (∀ fields, w = Obj fields →
                has_len (default (Arr []) (get "sent_emails" fields))
                = false) as Hw.
      { intros fields Hfields. pose proof Htry as Htry'.
        rewrite Hfields in Htry'. simpl in Htry'.
        now destruct (has_len _). }
      split; [intros fields [= Hf] Hlen; rewrite (Hw fields Hf) in Hlen;
              discriminate|].
      split.
      { split; [|now intros _].
        intros _ fields [= Hf] Hlen. rewrite (Hw fields Hf) in Hlen.
        discriminate. }
      intros typed. unfold abstract. rewrite Htry.
      intros [= <-]. reflexivity.
Qed.

(** A file that holds [{"sent_emails": "ab"}], and one whose only item has
    the number 5 for its address: line 207 reads both, [load_progress]
    returns them as they are, and neither is a ledger. *)
Lemma load_progress_returns_foreign_object :
  let text := Obj [("sent_emails", Str "ab")] in
  let number := Obj [("sent_emails", Arr [Obj [("email", Int 5)]])] in
  ProgressFile.load_progress (Holds text) = Ok text
  ∧ ¬ well_formed text
  ∧ abstract (Holds text) = None
  ∧ ProgressFile.load_progress (Holds number) = Ok number
  ∧ ¬ well_formed number
  ∧ abstract (Holds number) = None.
Proof.
  cbv zeta. unfold well_formed.
  repeat split; try reflexivity; intros [p [=]].
Qed.

End ProgressFileLoad.
